(** * cevo: the runtime dispatch engine, embedded and verified

    A shallow embedding of the C sources of the command engine
    ([ce_hash.c], [parser_utils.c], [ce_dispatch.c], [ce_types.h]) and the
    properties its specification states about them.

    Conventions of the embedding.
    - A [char] buffer is a [list ascii].  The C string a [const char *]
      designates is the run of characters before the first NUL; the end of
      the list stands for the terminator as well, so every buffer is
      NUL-terminated.
    - A pointer that may be [NULL] is an [option].  An output pointer is an
      [option] holding the current content of the cell it designates; a
      function returns the new content of every cell it may write.
    - Fixed-width integers are [Z] with the wrap-around written out;
      [size_t] byte counts are [N]; array indices and counters that the
      array sizes bound are [nat]. *)

From Stdlib Require Import ZArith NArith List Ascii String Bool Lia.
Import ListNotations.

Local Open Scope Z_scope.

(** ** Characters, buffers and machine integers *)

Module CBase.

Definition cbuf := list ascii.

(** A string literal as a buffer. *)
Definition chars (s : string) : cbuf := list_ascii_of_string s.

(** The code of a character, 0..255. *)
Definition code (c : ascii) : Z := Z.of_N (N_of_ascii c).

Definition is_nul (c : ascii) : bool := (code c =? 0).

(** The C string stored at the start of a buffer. *)
Fixpoint c_str (buf : cbuf) : cbuf :=
  match buf with
  | [] => []
  | c :: rest => if is_nul c then [] else c :: c_str rest
  end.

(** [strlen]. *)
Definition strlen (buf : cbuf) : N := N.of_nat (List.length (c_str buf)).

Definition wrap (bits : Z) (x : Z) : Z := x mod 2 ^ bits.
Definition wrap8 := wrap 8.
Definition wrap16 := wrap 16.
Definition wrap32 := wrap 32.
Definition wrap64 := wrap 64.

(** Conversion of an unsigned [bits]-wide pattern to the signed type of
    the same width (two's complement, as every supported compiler does). *)
Definition to_signed (bits : Z) (x : Z) : Z :=
  let u := wrap bits x in
  if u <? 2 ^ (bits - 1) then u else u - 2 ^ bits.

Definition UINT8_MAX : Z := 255.
Definition UINT16_MAX : Z := 65535.
Definition UINT32_MAX : Z := 4294967295.
Definition UINT64_MAX : Z := 18446744073709551615.
Definition INT8_MIN : Z := -128.
Definition INT8_MAX : Z := 127.
Definition INT16_MIN : Z := -32768.
Definition INT16_MAX : Z := 32767.
Definition INT32_MIN : Z := -2147483648.
Definition INT32_MAX : Z := 2147483647.
Definition INT64_MIN : Z := -9223372036854775808.
Definition INT64_MAX : Z := 9223372036854775807.

End CBase.
Import CBase.

(** ** ce_hash.c *)

Module CeHash.

Definition DJB2_INIT_HASH : Z := 5381.
Definition DJB2_HASH_SHIFT : Z := 5.
Definition DJB2_HASH_MULTIPLIER : Z := 33.

Section Hash.

(** Whether plain [char] is a signed type is the compiler's choice; the
    conversion [(uint32_t)c] depends on it for codes above 127. *)
Variable char_is_signed : bool.

(** [(uint32_t)c] for [char c]. *)
Definition char_to_u32 (c : ascii) : Z :=
  if char_is_signed && (128 <=? code c)
  then wrap32 (code c - 256)
  else code c.

(** The body of [while ((c = *str++) != '\0')]. *)
Fixpoint hash_loop (str : cbuf) (hash : Z) : Z :=
  match str with
  | [] => hash
  | c :: str' =>
      if is_nul c then hash
      else hash_loop str'
             (wrap32 (wrap32 (wrap32 (Z.shiftl hash DJB2_HASH_SHIFT) + hash)
                      + char_to_u32 c))
  end.

Definition ce_hash_calculate (str : option cbuf) : Z :=
  match str with
  | None => 0
  | Some s => hash_loop s DJB2_INIT_HASH
  end.

(** Classic DJB2 as the specification words it: seed 5381, then for every
    character [hash = hash * 33 + byte] in 32-bit unsigned arithmetic. *)
Definition djb2 (bytes : list Z) : Z :=
  fold_left (fun hash byte => wrap32 (hash * DJB2_HASH_MULTIPLIER + byte))
            bytes DJB2_INIT_HASH.

(** What a byte adds to the sum on a given target: the byte itself, but
    the byte with the 24 bits above it set, [0xFFFFFF00 + byte], when the
    byte is above 127 and the target's [char] is signed. *)
Definition hash_addend (char_signed : bool) (byte : Z) : Z :=
  if char_signed && (128 <=? byte) then 4294967040 + byte else byte.

End Hash.

End CeHash.

(** ** parser_utils.c *)

Module ParserUtils.

Definition zero_char : ascii := Ascii.zero.

(** [*s] for a [const char *s]: the first cell, the terminator when the
    buffer is exhausted. *)
Definition deref (s : cbuf) : ascii := hd zero_char s.

(** [s[i]]. *)
Definition char_at (s : cbuf) (i : nat) : ascii := nth i s zero_char.

(** Every comparison below is between a [char] and 7-bit literals, so it
    gives the same answer whether [char] is signed or not (see
    [ParserFacts.range_test_signedness]); the codes are compared. *)
Definition ascii_tolower (c : ascii) : ascii :=
  if (code "A" <=? code c) && (code "Z" >=? code c)
  then ascii_of_N (Z.to_N (code c + (code "a" - code "A")))
  else c.

Definition ascii_to_digit (c : ascii) (out : option Z) : bool * option Z :=
  match out with
  | None => (false, out)
  | Some _ =>
      if (code "0" <=? code c) && (code c <=? code "9")
      then (true, Some (wrap8 (code c - code "0")))
      else (false, out)
  end.

Definition ascii_to_hex (c : ascii) (out : option Z) : bool * option Z :=
  match out with
  | None => (false, out)
  | Some _ =>
      let lower := ascii_tolower c in
      if (code "0" <=? code lower) && (code lower <=? code "9")
      then (true, Some (wrap8 (code lower - code "0")))
      else if (code "a" <=? code lower) && (code lower <=? code "f")
      then (true, Some (wrap8 (10 + wrap8 (code lower - code "a"))))
      else (false, out)
  end.

(** *** Unsigned integer parsers

    [parse_u8], [parse_u16], [parse_u32] and [parse_u64] are the same text
    up to the accumulator type ([acc_bits]: [uint32_t] for the first two,
    [uint64_t] for the others), the limit [tmax] and the output type
    ([out_bits]). *)
Section Unsigned.

Variables (acc_bits tmax out_bits : Z).

(** [while ('\0' != *s) { ... ++s; }]; [None] is an early [return false]. *)
Fixpoint unsigned_loop (s : cbuf) (value : Z) : option Z :=
  match s with
  | [] => Some value
  | c :: s' =>
      if is_nul c then Some value
      else
        match ascii_to_digit c (Some 0) with
        | (true, Some digit) =>
            if value >? tmax / 10 then None
            else
              let value := wrap acc_bits (value * 10) in
              if digit >? wrap acc_bits (tmax - value) then None
              else unsigned_loop s' (wrap acc_bits (value + digit))
        | _ => None
        end
  end.

Definition parse_unsigned (s : option cbuf) (out : option Z) : bool * option Z :=
  match s, out with
  | Some s, Some _ =>
      if is_nul (deref s) then (false, out)
      else
        match unsigned_loop s 0 with
        | Some value => (true, Some (wrap out_bits value))
        | None => (false, out)
        end
  | _, _ => (false, out)
  end.

End Unsigned.

Definition parse_u8 := parse_unsigned 32 UINT8_MAX 8.
Definition parse_u16 := parse_unsigned 32 UINT16_MAX 16.
Definition parse_u32 := parse_unsigned 64 UINT32_MAX 32.
Definition parse_u64 := parse_unsigned 64 UINT64_MAX 64.

(** *** Signed integer parsers

    [parse_i32] and [parse_i64] are the same text up to the width [bits]
    of the unsigned accumulator and of the result. *)
Section Signed.

Variable bits : Z.

Definition int_max : Z := 2 ^ (bits - 1) - 1.

Definition max_before_mul (negative : bool) : Z :=
  if negative then wrap bits (int_max + 1) else int_max.

Fixpoint signed_loop (negative : bool) (s : cbuf) (value : Z) : option Z :=
  match s with
  | [] => Some value
  | c :: s' =>
      if is_nul c then Some value
      else
        match ascii_to_digit c (Some 0) with
        | (true, Some digit) =>
            if value >? max_before_mul negative / 10 then None
            else
              let value := wrap bits (value * 10) in
              if digit >? wrap bits (max_before_mul negative - value) then None
              else signed_loop negative s' (wrap bits (value + digit))
        | _ => None
        end
  end.

(** The final conversion [(negative) ? -(intN_t)value : (intN_t)value];
    the cast and the negation are two's-complement, so that the magnitude
    [2^(bits-1)] yields the minimum of the type. *)
Definition signed_result (negative : bool) (value : Z) : Z :=
  if negative then to_signed bits (- to_signed bits value)
  else to_signed bits value.

Definition parse_signed (s : option cbuf) (out : option Z) : bool * option Z :=
  match s, out with
  | Some s, Some _ =>
      let '(negative, s) :=
        if code (deref s) =? code "-" then (true, tl s)
        else if code (deref s) =? code "+" then (false, tl s)
        else (false, s) in
      if is_nul (deref s) then (false, out)
      else
        match signed_loop negative s 0 with
        | Some value => (true, Some (signed_result negative value))
        | None => (false, out)
        end
  | _, _ => (false, out)
  end.

End Signed.

Definition parse_i32 := parse_signed 32.
Definition parse_i64 := parse_signed 64.

(** [parse_i8] and [parse_i16]: parse as [int32_t], then range-check. *)
Definition parse_narrow (tmin tmax out_bits : Z)
           (s : option cbuf) (out : option Z) : bool * option Z :=
  match s, out with
  | Some _, Some _ =>
      match parse_i32 s (Some 0) with
      | (true, Some tmp) =>
          if (tmp <? tmin) || (tmp >? tmax) then (false, out)
          else (true, Some (to_signed out_bits tmp))
      | _ => (false, out)
      end
  | _, _ => (false, out)
  end.

Definition parse_i8 := parse_narrow INT8_MIN INT8_MAX 8.
Definition parse_i16 := parse_narrow INT16_MIN INT16_MAX 16.

(** *** Boolean *)

(** [for (i = 0u; lit[i] != '\0'; ++i) { if (ascii_tolower(token[i]) != lit[i]) break; }]
    started at index [i] with [lit_rest] the literal from [i] on; the value
    is the final [i]. *)
Fixpoint literal_loop (lit_rest : cbuf) (token : cbuf) (i : nat) : nat :=
  match lit_rest with
  | [] => i
  | l :: lit_rest' =>
      if code (ascii_tolower (char_at token i)) =? code l
      then literal_loop lit_rest' token (S i)
      else i
  end.

(** [0 == strcmp(a, b)]. *)
Definition strcmp_eq (a b : cbuf) : bool :=
  if list_eq_dec ascii_dec (c_str a) (c_str b) then true else false.

Definition parse_boolean_token (token : option cbuf) (out_b : option bool)
  : bool * option bool :=
  match token, out_b with
  | Some token, Some _ =>
      let true_lit := chars "true" in
      let i := literal_loop true_lit token 0 in
      if is_nul (char_at true_lit i) && is_nul (char_at token i)
      then (true, Some true)
      else
        let false_lit := chars "false" in
        let i := literal_loop false_lit token 0 in
        if is_nul (char_at false_lit i) && is_nul (char_at token i)
        then (true, Some false)
        else if strcmp_eq token (chars "1") then (true, Some true)
        else if strcmp_eq token (chars "0") then (true, Some false)
        else (false, out_b)
  | _, _ => (false, out_b)
  end.

(** *** Hex strings *)

(** [out_buf[i] = b].  [out_buf] is the memory from the pointer on, as far
    as the object it points into extends; a store past the end of the
    object lands in the cells that follow it, which the model appends so
    that an overrun shows as a longer list. *)
Fixpoint poke (out_buf : list Z) (i : nat) (b : Z) : list Z :=
  match i, out_buf with
  | O, [] => [b]
  | O, _ :: rest => b :: rest
  | S i', [] => 0 :: poke [] i' b
  | S i', x :: rest => x :: poke rest i' b
  end.

(** [for (size_t i = ...; i < (len >> 1u); ++i)] with [n] iterations left. *)
Fixpoint hex_loop (n : nat) (i : nat) (s : cbuf) (out_buf : list Z)
  : bool * list Z :=
  match n with
  | O => (true, out_buf)
  | S n' =>
      match ascii_to_hex (char_at s (i * 2)) (Some 0) with
      | (true, Some hi) =>
          match ascii_to_hex (char_at s (i * 2 + 1)) (Some 0) with
          | (true, Some lo) =>
              hex_loop n' (S i) s
                       (poke out_buf i (wrap8 (Z.lor (Z.shiftl hi 4) lo)))
          | _ => (false, out_buf)
          end
      | _ => (false, out_buf)
      end
  end.

Definition parse_hex_string (s : option cbuf) (out_buf : option (list Z))
           (max_len : N) (out_len : option N)
  : bool * option (list Z) * option N :=
  match s, out_buf, out_len with
  | Some s, Some buf, Some _ =>
      let len := strlen s in
      if (len =? 0)%N then (false, out_buf, out_len)
      else if negb (N.land len 1 =? 0)%N then (false, out_buf, out_len)
      else if (max_len <? N.shiftr len 1)%N then (false, out_buf, out_len)
      else
        match hex_loop (N.to_nat (N.shiftr len 1)) 0 s buf with
        | (true, buf') => (true, Some buf', Some (N.shiftr len 1))
        | (false, buf') => (false, Some buf', out_len)
        end
  | _, _, _ => (false, out_buf, out_len)
  end.

End ParserUtils.

(** ** ce_types.h *)

Module CeTypes.

Definition MAX_TOKENS : nat := 8.
Definition MAX_ARG_CONTENT_SIZE : N := 64.
Definition MAX_LINE_BUF_SIZE : N := 256.

(** [TYPE_INVALID_e] stands for any value of the enumeration type that is
    none of its enumerators (the [default:] of the dispatcher's switch). *)
Inductive ce_arg_type_et :=
| TYPE_UINT8_e | TYPE_UINT16_e | TYPE_UINT32_e | TYPE_UINT64_e
| TYPE_INT8_e | TYPE_INT16_e | TYPE_INT32_e | TYPE_INT64_e
| TYPE_BOOL_e | TYPE_STRING_e | TYPE_UINT8_PTR_e
| TYPE_INVALID_e.

(** The two character objects a dispatch touches: the storage the caller's
    [line_str] points into, and the local array [line_buf]. *)
Inductive block := CallerMem | LineBuf.

Record char_ptr := { blk : block; off : nat }.

(** The union, as the variant its last store selected.  [bytes_u8p] is an
    offset into the scratch buffer. *)
Inductive ce_arg_value_ut :=
| V_u8 (v : Z) | V_u16 (v : Z) | V_u32 (v : Z) | V_u64 (v : Z)
| V_i8 (v : Z) | V_i16 (v : Z) | V_i32 (v : Z) | V_i64 (v : Z)
| V_b (b : bool)
| V_str_cp (p : char_ptr)
| V_bytes_u8p (p : nat).

(** [handler] is the identity of the function pointed to.  [types_e] is
    the array the pointer designates; [type_count_u8] is stored apart. *)
Record ce_signature_st := {
  hash_u32 : Z;
  handler : N;
  types_e : list ce_arg_type_et;
  type_count_u8 : nat
}.

End CeTypes.
Import CeTypes.

(** ** ce_dispatch.c *)

Module CeDispatch.
Import ParserUtils.

(** [typedef struct { uint8_t buffer[MAX_ARG_CONTENT_SIZE]; size_t used; }
    scratch_buffer_st;].  [buffer] holds the cells of the array, of which
    there are [MAX_ARG_CONTENT_SIZE]; [used] is the member behind it. *)
Record scratch_buffer_st := { buffer : list Z; used : N }.

Record memory := { caller_mem : cbuf; line_buf : cbuf }.

(** A store to [scratch->buffer[i]] with [i] outside the array is not
    given a meaning by the source.  In the object code it lands on [used],
    the member that follows the array, and from there on in whatever lies
    behind the structure.  The model takes what comes of it from outside:
    from the memory and the structure as they were when [parse_hex_string]
    was called, and the cells from [buffer + used] on as that call filled
    them, those beyond the array included, a [stray_stores] gives the
    memory and the structure as they are when the call returns.  Nothing
    is assumed of it; it is asked only when a store has left the array. *)
Definition stray_stores : Type :=
  memory -> scratch_buffer_st -> list Z -> memory * scratch_buffer_st.

Definition block_of (m : memory) (b : block) : cbuf :=
  match b with CallerMem => caller_mem m | LineBuf => line_buf m end.

(** The cells from [p] to the end of its object. *)
Definition load (m : memory) (p : char_ptr) : cbuf :=
  skipn (off p) (block_of m (blk p)).

(** Replace the cells from [p] on by [cells]. *)
Definition store (m : memory) (p : char_ptr) (cells : cbuf) : memory :=
  let whole := firstn (off p) (block_of m (blk p)) ++ cells in
  match blk p with
  | CallerMem => {| caller_mem := whole; line_buf := line_buf m |}
  | LineBuf => {| caller_mem := caller_mem m; line_buf := whole |}
  end.

Definition ptr_add (p : char_ptr) (n : nat) : char_ptr :=
  {| blk := blk p; off := off p + n |}.

(** [a[i] = v] for an index inside the array; the array is left as it is
    otherwise.  The dispatcher stores [tokens[count]] under
    [count < MAX_TOKENS] and [out_args_a[i]] under
    [i < type_count_u8 <= MAX_PARSABLE_ARGUMENTS], both inside arrays of
    [MAX_TOKENS] cells. *)
Fixpoint upd {A : Type} (i : nat) (v : A) (a : list A) : list A :=
  match a, i with
  | [], _ => []
  | _ :: rest, O => v :: rest
  | x :: rest, S i' => x :: upd i' v rest
  end.

Definition IS_WHITESPACE (c : ascii) : bool :=
  (code c =? code " ") || (code c =? 9) || (code c =? 13) || (code c =? 10).

Definition ARG_OFFSET : nat := 1.
Definition MAX_PARSABLE_ARGUMENTS : nat := MAX_TOKENS - ARG_OFFSET.

(** *** What a call leaves behind: diagnostics and calls *)

Inductive fn :=
| F_validate_argument_count | F_parse_value_by_type | F_parse_arguments
| F_lookup_signature_by_hash | F_parse_line_to_tokens | F_dispatch_command
| F_ce_dispatch_from_line.

(** One constructor per [LOG_ERR] of the file. *)
Inductive err_site :=
| E_null_pointer (f : fn)
| E_arg_count_mismatch (got expected : nat)
| E_null_scratch
| E_failed_hex (token : cbuf)
| E_unsupported_type
| E_too_many_arguments (n : nat)
| E_missing_argument (i : nat)
| E_failed_argument (i : nat) (type_e : ce_arg_type_et) (token : cbuf)
| E_too_many_tokens
| E_failed_command_arguments
| E_line_truncated
| E_no_command
| E_unknown_command (token : cbuf) (hash : Z).

(** [Call f]: [ce_dispatch_from_line] or [dispatch_command] called the
    stage function [f].  [Invoke]: the call of [ce_invoke_handler], with
    what it is given: the signature, the argument array, and the two
    objects the arguments point into.  [Stray first beyond]: a call of
    [parse_hex_string] stored to [scratch->buffer[first]] up to
    [scratch->buffer[beyond - 1]], cells that are not in the array. *)
Inductive event :=
| Call (f : fn)
| Err (e : err_site)
| Invoke (sig : ce_signature_st) (args : list ce_arg_value_ut)
         (m : memory) (scratch : scratch_buffer_st)
| Stray (first beyond : nat).

Definition validate_argument_count (tokens_count : nat)
           (sig_pst : option ce_signature_st) : bool * list event :=
  match sig_pst with
  | None => (false, [Err (E_null_pointer F_validate_argument_count)])
  | Some sig =>
      let arg_count := if (0 <? tokens_count)%nat then (tokens_count - 1)%nat else O in
      if negb (arg_count =? type_count_u8 sig)%nat
      then (false, [Err (E_arg_count_mismatch arg_count (type_count_u8 sig))])
      else (true, [])
  end.

(** A scalar parser run on one member of the union, [r] being its result.
    The parsers never read the cell they are given (they are handed one
    that holds 0 below); the member is written only when the parser
    succeeds, so a failure leaves the union as it is. *)
Definition into_member {A : Type} (mk : A -> ce_arg_value_ut)
           (r : bool * option A) (out_val_p : option ce_arg_value_ut)
  : bool * option ce_arg_value_ut :=
  match r with
  | (true, Some v) => (true, Some (mk v))
  | _ => (false, out_val_p)
  end.

Definition parse_value_by_type (stray : stray_stores) (m : memory)
           (type_e : ce_arg_type_et)
           (token_cp : option char_ptr)
           (out_val_p : option ce_arg_value_ut)
           (scratch : option scratch_buffer_st)
  : bool * memory * option ce_arg_value_ut * option scratch_buffer_st
    * list event :=
  match token_cp, out_val_p with
  | Some tok, Some _ =>
      let token := Some (load m tok) in
      let scalar (r : bool * option ce_arg_value_ut) :=
        (fst r, m, snd r, scratch, @nil event) in
      match type_e with
      | TYPE_UINT8_e => scalar (into_member V_u8 (parse_u8 token (Some 0)) out_val_p)
      | TYPE_UINT16_e => scalar (into_member V_u16 (parse_u16 token (Some 0)) out_val_p)
      | TYPE_UINT32_e => scalar (into_member V_u32 (parse_u32 token (Some 0)) out_val_p)
      | TYPE_UINT64_e => scalar (into_member V_u64 (parse_u64 token (Some 0)) out_val_p)
      | TYPE_INT8_e => scalar (into_member V_i8 (parse_i8 token (Some 0)) out_val_p)
      | TYPE_INT16_e => scalar (into_member V_i16 (parse_i16 token (Some 0)) out_val_p)
      | TYPE_INT32_e => scalar (into_member V_i32 (parse_i32 token (Some 0)) out_val_p)
      | TYPE_INT64_e => scalar (into_member V_i64 (parse_i64 token (Some 0)) out_val_p)
      | TYPE_BOOL_e =>
          scalar (into_member V_b (parse_boolean_token token (Some false)) out_val_p)
      | TYPE_STRING_e => (true, m, Some (V_str_cp tok), scratch, [])
      | TYPE_UINT8_PTR_e =>
          match scratch with
          | None => (false, m, out_val_p, scratch, [Err E_null_scratch])
          | Some sc =>
              (* [parse_hex_string(token_cp, scratch->buffer + scratch->used,
                 MAX_ARG_CONTENT_SIZE, &bytes_len)]: [room] is the array from
                 [buffer + used] to its end, [cells] the same cells after
                 the call, and more of them when a store went further *)
              let at_used := N.to_nat (used sc) in
              let room := skipn at_used (buffer sc) in
              let res := parse_hex_string token (Some room)
                                          MAX_ARG_CONTENT_SIZE (Some 0%N) in
              let cells := match snd (fst res) with
                           | Some cells => cells
                           | None => room
                           end in
              let outside := (List.length room <? List.length cells)%nat in
              let after :=
                if outside then stray m sc cells
                else (m, {| buffer := firstn at_used (buffer sc) ++ cells;
                            used := used sc |}) in
              let ev :=
                if outside
                then [Stray (at_used + List.length room)
                            (at_used + List.length cells)]
                else [] in
              (* [scratch->used] is read again after the call *)
              match res with
              | (true, _, Some bytes_len) =>
                  (true, fst after,
                   Some (V_bytes_u8p (N.to_nat (used (snd after)))),
                   Some {| buffer := buffer (snd after);
                           used := (used (snd after) + bytes_len)%N |}, ev)
              | _ =>
                  (false, fst after, out_val_p, Some (snd after),
                   ev ++ [Err (E_failed_hex (c_str (load (fst after) tok)))])
              end
          end
      | TYPE_INVALID_e => (false, m, out_val_p, scratch, [Err E_unsupported_type])
      end
  | _, _ =>
      (false, m, out_val_p, scratch,
       [Err (E_null_pointer F_parse_value_by_type)])
  end.

(** The zero-initialised union. *)
Definition zero_value : ce_arg_value_ut := V_u8 0.

(** [for (uint8_t i = ...; i < sig_pst->type_count_u8; ++i)] with [n]
    iterations left.  A read of [types_e] past its end is outside the table's
    contract; the model gives it [TYPE_INVALID_e]. *)
Fixpoint parse_arguments_loop (stray : stray_stores) (m : memory)
         (sig : ce_signature_st)
         (tokens_ca : list (option char_ptr)) (n i : nat)
         (out_args_a : list ce_arg_value_ut) (scratch : scratch_buffer_st)
  : bool * memory * list ce_arg_value_ut * scratch_buffer_st * list event :=
  match n with
  | O => (true, m, out_args_a, scratch, [])
  | S n' =>
      let token_cp := nth (i + ARG_OFFSET) tokens_ca None in
      let type_e := nth i (types_e sig) TYPE_INVALID_e in
      match token_cp with
      | None =>
          (false, m, out_args_a, scratch, [Err (E_missing_argument (i + 1))])
      | Some tok =>
          match parse_value_by_type stray m type_e token_cp
                  (Some (nth i out_args_a zero_value)) (Some scratch) with
          | (ok, m', out_val, scratch', ev) =>
              let out_args_a' :=
                match out_val with
                | Some v => upd i v out_args_a
                | None => out_args_a
                end in
              let scratch'' :=
                match scratch' with Some sc => sc | None => scratch end in
              if ok then
                match parse_arguments_loop stray m' sig tokens_ca n' (S i)
                        out_args_a' scratch'' with
                | (ok', m'', a, sc, ev') => (ok', m'', a, sc, ev ++ ev')
                end
              else
                (false, m', out_args_a', scratch'',
                 ev ++ [Err (E_failed_argument (i + 1) type_e
                                               (c_str (load m' tok)))])
          end
      end
  end.

Definition parse_arguments (stray : stray_stores) (m : memory)
           (sig_pst : option ce_signature_st)
           (tokens_ca : option (list (option char_ptr)))
           (out_args_a : option (list ce_arg_value_ut))
           (scratch : option scratch_buffer_st)
  : bool * memory * option (list ce_arg_value_ut)
    * option scratch_buffer_st * list event :=
  match sig_pst, tokens_ca, out_args_a, scratch with
  | Some sig, Some tokens, Some args, Some sc =>
      if (MAX_PARSABLE_ARGUMENTS <? type_count_u8 sig)%nat
      then (false, m, out_args_a, scratch,
            [Err (E_too_many_arguments (type_count_u8 sig))])
      else
        match parse_arguments_loop stray m sig tokens (type_count_u8 sig) 0
                                   args sc with
        | (ok, m', args', sc', ev) => (ok, m', Some args', Some sc', ev)
        end
  | _, _, _, _ =>
      (false, m, out_args_a, scratch,
       [Err (E_null_pointer F_parse_arguments)])
  end.

(** *** The token scanner

    [ptr] walks the line: [behind] holds the cells it has passed, nearest
    first and as the scanner left them, [ahead] the cells from [ptr] on.
    [ptr - line] is [length behind]. *)
Record scan_state := {
  behind : cbuf;
  ahead : cbuf;
  count : nat;
  in_token : bool;
  tokens : list (option char_ptr)
}.

(** [while (( *ptr != '\0') && (count < MAX_TOKENS)) { ... ptr++; }] *)
Fixpoint split_loop (line : char_ptr) (ahead behind : cbuf) (count : nat)
         (in_token : bool) (tokens : list (option char_ptr)) : scan_state :=
  match ahead with
  | [] => Build_scan_state behind [] count in_token tokens
  | c :: ahead' =>
      if negb (is_nul c) && (count <? MAX_TOKENS)%nat then
        if IS_WHITESPACE c then
          split_loop line ahead' (zero_char :: behind) count false tokens
        else if negb in_token then
          split_loop line ahead' (c :: behind) (S count) true
                     (upd count (Some (ptr_add line (List.length behind))) tokens)
        else
          split_loop line ahead' (c :: behind) count in_token tokens
      else Build_scan_state behind ahead count in_token tokens
  end.

(** [while (( *ptr != '\0') && !IS_WHITESPACE( *ptr)) { ptr++; }] *)
Fixpoint skip_token_loop (ahead behind : cbuf) : cbuf * cbuf :=
  match ahead with
  | [] => (behind, [])
  | c :: ahead' =>
      if negb (is_nul c) && negb (IS_WHITESPACE c)
      then skip_token_loop ahead' (c :: behind)
      else (behind, ahead)
  end.

(** [while (( *ptr != '\0') && IS_WHITESPACE( *ptr)) { *ptr = '\0'; ptr++; }] *)
Fixpoint skip_space_loop (ahead behind : cbuf) : cbuf * cbuf :=
  match ahead with
  | [] => (behind, [])
  | c :: ahead' =>
      if negb (is_nul c) && IS_WHITESPACE c
      then skip_space_loop ahead' (zero_char :: behind)
      else (behind, ahead)
  end.

Definition parse_line_to_tokens (m : memory) (line : option char_ptr)
           (tokens : option (list (option char_ptr)))
           (tokens_count : option nat)
  : bool * memory * option (list (option char_ptr)) * option nat * list event :=
  match line, tokens, tokens_count with
  | Some p, Some toks, Some _ =>
      let st := split_loop p (load m p) [] 0 false toks in
      let '(behind1, ahead1) :=
        if in_token st && (count st =? MAX_TOKENS)%nat
        then skip_token_loop (ahead st) (behind st)
        else (behind st, ahead st) in
      let '(behind2, ahead2) := skip_space_loop ahead1 behind1 in
      let m' := store m p (rev behind2 ++ ahead2) in
      if (count st =? MAX_TOKENS)%nat && negb (is_nul (deref ahead2))
      then (false, m', Some (CeDispatch.tokens st), tokens_count,
            [Err E_too_many_tokens])
      else (true, m', Some (CeDispatch.tokens st), Some (count st), [])
  | _, _, _ =>
      (false, m, tokens, tokens_count,
       [Err (E_null_pointer F_parse_line_to_tokens)])
  end.

(** [strncpy(dst, src, n)]: the string, cut at [n] characters, then NULs up
    to [n] cells. *)
Definition strncpy (dst src : cbuf) (n : nat) : cbuf :=
  let s := firstn n (c_str src) in
  s ++ repeat zero_char (n - List.length s) ++ skipn n dst.

Section Engine.

(** The compiler's choice for [char], the generated signature table, and
    the invocation glue, which does not write to the line or the scratch
    buffer it is handed. *)
Variable char_is_signed : bool.
Variable ce_table : list ce_signature_st.
Variable ce_invoke_handler :
  ce_signature_st -> list ce_arg_value_ut -> memory -> scratch_buffer_st -> bool.

(** What a store outside the scratch buffer comes to on the platform. *)
Variable stray : stray_stores.

(** [for (size_t i = 0; i < count; ++i) if (table[i].hash_u32 == hash) return &table[i];] *)
Fixpoint lookup_loop (table : list ce_signature_st) (hash : Z)
  : option ce_signature_st :=
  match table with
  | [] => None
  | sig :: table' =>
      if hash_u32 sig =? hash then Some sig else lookup_loop table' hash
  end.

Definition lookup_signature_by_hash (hash : Z) : option ce_signature_st :=
  lookup_loop ce_table hash.

Definition dispatch_command (m : memory) (sig_pst : option ce_signature_st)
           (tokens_ca : option (list (option char_ptr)))
  : bool * memory * list event :=
  let args_a := repeat zero_value MAX_TOKENS in
  let scratch := {| buffer := repeat 0 (N.to_nat MAX_ARG_CONTENT_SIZE);
                    used := 0%N |} in
  match sig_pst, tokens_ca with
  | Some sig, Some _ =>
      match parse_arguments stray m sig_pst tokens_ca (Some args_a)
                            (Some scratch) with
      | (true, m', Some args', Some scratch', ev) =>
          (ce_invoke_handler sig args' m' scratch', m',
           Call F_parse_arguments :: ev ++ [Invoke sig args' m' scratch'])
      | (_, m', _, _, ev) =>
          (false, m',
           Call F_parse_arguments :: ev ++ [Err E_failed_command_arguments])
      end
  | _, _ => (false, m, [Err (E_null_pointer F_dispatch_command)])
  end.

(** [line_str] is an offset into the caller's memory, or [NULL].  The
    result holds the value returned, the memory when the call returns (the
    local [line_buf] is kept for inspection) and what the call did. *)
Definition ce_dispatch_from_line (m : memory) (line_str : option nat)
  : bool * memory * list event :=
  let tokens_apc : list (option char_ptr) := repeat None MAX_TOKENS in
  let m := {| caller_mem := caller_mem m;
              line_buf := repeat zero_char (N.to_nat MAX_LINE_BUF_SIZE) |} in
  match line_str with
  | None => (false, m, [Err (E_null_pointer F_ce_dispatch_from_line)])
  | Some o =>
      let src := load m {| blk := CallerMem; off := o |} in
      if (MAX_LINE_BUF_SIZE <=? strlen src)%N
      then (false, m, [Err E_line_truncated])
      else
        let size := N.to_nat MAX_LINE_BUF_SIZE in
        let copied := strncpy (line_buf m) src (size - 1) in
        let m := {| caller_mem := caller_mem m;
                    line_buf := upd (size - 1) zero_char copied |} in
        match parse_line_to_tokens m (Some {| blk := LineBuf; off := 0 |})
                                   (Some tokens_apc) (Some O) with
        | (false, m, _, _, ev) => (false, m, Call F_parse_line_to_tokens :: ev)
        | (true, m, toks, cnt, ev) =>
            let ev := Call F_parse_line_to_tokens :: ev in
            let tokens_apc := match toks with Some t => t | None => tokens_apc end in
            let tokens_count := match cnt with Some n => n | None => O end in
            match tokens_count, nth 0 tokens_apc None with
            | O, _ | _, None => (false, m, ev ++ [Err E_no_command])
            | _, Some tok0 =>
                let hash_u32 :=
                  CeHash.ce_hash_calculate char_is_signed (Some (load m tok0)) in
                let sig_pst := lookup_signature_by_hash hash_u32 in
                let ev := ev ++ [Call F_lookup_signature_by_hash] in
                match sig_pst with
                | None =>
                    (false, m,
                     ev ++ [Err (E_unknown_command (c_str (load m tok0)) hash_u32)])
                | Some _ =>
                    match validate_argument_count tokens_count sig_pst with
                    | (false, ev') =>
                        (false, m, ev ++ Call F_validate_argument_count :: ev')
                    | (true, ev') =>
                        let ev := ev ++ Call F_validate_argument_count :: ev' in
                        match dispatch_command m sig_pst (Some tokens_apc) with
                        | (ok, m', ev') =>
                            (ok, m', ev ++ Call F_dispatch_command :: ev')
                        end
                    end
                end
            end
        end
  end.

End Engine.

End CeDispatch.

(** ** The specification's vocabulary

    Definitions that follow the words of the specification, against which
    the functions above are compared. *)

Module Spec.

(** *** Decimal numerals *)

Definition is_digit (c : ascii) : bool := (48 <=? code c) && (code c <=? 57).

Definition digit_val (c : ascii) : Z := code c - 48.

(** The number a run of digits denotes, continuing from [v]. *)
Definition decimal_from (v : Z) (s : cbuf) : Z :=
  fold_left (fun v c => v * 10 + digit_val c) s v.

Definition decimal_value (s : cbuf) : Z := decimal_from 0 s.

Definition nonempty (s : cbuf) : bool :=
  match s with [] => false | _ :: _ => true end.

(** Non-empty, digits only, value at most [tmax]. *)
Definition unsigned_accepts (tmax : Z) (s : cbuf) : bool :=
  nonempty s && forallb is_digit s && (decimal_value s <=? tmax).

(** An optional single leading sign, and what follows it. *)
Definition split_sign (s : cbuf) : bool * cbuf :=
  match s with
  | c :: rest =>
      if code c =? 45 then (true, rest)
      else if code c =? 43 then (false, rest)
      else (false, s)
  | [] => (false, [])
  end.

Definition signed_value (s : cbuf) : Z :=
  let '(negative, digits) := split_sign s in
  if negative then - decimal_value digits else decimal_value digits.

(** Optional sign, one or more digits, signed value in [tmin, tmax]. *)
Definition signed_accepts (tmin tmax : Z) (s : cbuf) : bool :=
  let '(_, digits) := split_sign s in
  nonempty digits && forallb is_digit digits
  && (tmin <=? signed_value s) && (signed_value s <=? tmax).

(** *** Hex strings *)

Definition is_hex (c : ascii) : bool :=
  is_digit c
  || ((65 <=? code c) && (code c <=? 70))
  || ((97 <=? code c) && (code c <=? 102)).

Definition hex_val (c : ascii) : Z :=
  if is_digit c then code c - 48
  else if (65 <=? code c) && (code c <=? 70) then code c - 65 + 10
  else code c - 97 + 10.

(** One byte per pair: high nibble first, then low nibble. *)
Fixpoint decode_pairs (s : cbuf) : list Z :=
  match s with
  | hi :: lo :: rest => (hex_val hi * 16 + hex_val lo) :: decode_pairs rest
  | _ => []
  end.

(** Non-empty, even length, hex digits only, at most [max_len] bytes. *)
Definition hex_accepts (max_len : N) (s : cbuf) : bool :=
  nonempty s && Nat.even (List.length s) && forallb is_hex s
  && (N.of_nat (Nat.div2 (List.length s)) <=? max_len)%N.

(** *** What the parsers are compared with *)

(** What it is for [parse] to be the exact parser of the unsigned type
    with maximum [tmax]. *)
Definition unsigned_parser_of (tmax : Z)
           (parse : option cbuf -> option Z -> bool * option Z) : Prop :=
  forall (s : cbuf) (o : Z),
    parse (Some s) (Some o)
    = if unsigned_accepts tmax (c_str s)
      then (true, Some (decimal_value (c_str s))) else (false, Some o).

(** What it is for [parse] to be the exact parser of the signed type with
    range [tmin, tmax]. *)
Definition signed_parser_of (tmin tmax : Z)
           (parse : option cbuf -> option Z -> bool * option Z) : Prop :=
  forall (s : cbuf) (o : Z),
    parse (Some s) (Some o)
    = if signed_accepts tmin tmax (c_str s)
      then (true, Some (signed_value (c_str s))) else (false, Some o).

(** A parser is atomic on failure when a [false] return leaves the cell
    behind the output pointer as it was. *)
Definition atomic_on_failure {A : Type}
           (parse : option cbuf -> option A -> bool * option A) : Prop :=
  forall (s : option cbuf) (out : option A),
    fst (parse s out) = false -> snd (parse s out) = out.

(** *** Lines and tokens *)

(** Space, tab, carriage return and newline separate tokens. *)
Definition is_separator (c : ascii) : bool :=
  (code c =? 32) || (code c =? 9) || (code c =? 13) || (code c =? 10).

Fixpoint drop_separators (s : cbuf) : cbuf :=
  match s with
  | c :: rest => if is_separator c then drop_separators rest else s
  | [] => []
  end.

(** The characters of the token a string starts with, and what follows. *)
Fixpoint take_word (s : cbuf) : cbuf :=
  match s with
  | c :: rest => if is_separator c then [] else c :: take_word rest
  | [] => []
  end.

Fixpoint drop_word (s : cbuf) : cbuf :=
  match s with
  | c :: rest => if is_separator c then s else drop_word rest
  | [] => []
  end.

(** The first token of a line (empty when there is none). *)
Definition first_word (s : cbuf) : cbuf := take_word (drop_separators s).

(** What is left of a line beyond its first [n] tokens. *)
Fixpoint after_tokens (n : nat) (s : cbuf) : cbuf :=
  match n with
  | O => s
  | S n' => after_tokens n' (drop_word (drop_separators s))
  end.

(** Some character of [s] is not a separator. *)
Definition content_remains (s : cbuf) : bool :=
  existsb (fun c => negb (is_separator c)) s.

(** The number of tokens of a line; [in_word] tells whether the line
    starts inside a token already counted. *)
Fixpoint count_tokens (in_word : bool) (s : cbuf) : nat :=
  match s with
  | [] => O
  | c :: rest =>
      if is_separator c then count_tokens false rest
      else ((if in_word then 0 else 1) + count_tokens true rest)%nat
  end.

(** Where [ptr] stands when the scanner takes its decision. *)
Definition residue (st : CeDispatch.scan_state) : cbuf :=
  let '(behind1, ahead1) :=
    if CeDispatch.in_token st && (CeDispatch.count st =? MAX_TOKENS)%nat
    then CeDispatch.skip_token_loop (CeDispatch.ahead st) (CeDispatch.behind st)
    else (CeDispatch.behind st, CeDispatch.ahead st) in
  snd (CeDispatch.skip_space_loop ahead1 behind1).

(** The line the scanner leaves: what the first loop passed, then a rest
    that starts with a NUL whenever the first loop stopped on one. *)
Definition final_line (st : CeDispatch.scan_state) : cbuf :=
  let '(behind1, ahead1) :=
    if CeDispatch.in_token st && (CeDispatch.count st =? MAX_TOKENS)%nat
    then CeDispatch.skip_token_loop (CeDispatch.ahead st) (CeDispatch.behind st)
    else (CeDispatch.behind st, CeDispatch.ahead st) in
  let '(behind2, ahead2) := CeDispatch.skip_space_loop ahead1 behind1 in
  rev behind2 ++ ahead2.

(** *** The stages of a dispatch *)





Definition is_err (e : CeDispatch.event) : bool :=
  match e with CeDispatch.Err _ => true | _ => false end.

Definition is_invoke (e : CeDispatch.event) : bool :=
  match e with CeDispatch.Invoke _ _ _ _ => true | _ => false end.

Definition is_stray (e : CeDispatch.event) : bool :=
  match e with CeDispatch.Stray _ _ => true | _ => false end.

(** How many times the handler was invoked. *)
Definition invocations (ev : list CeDispatch.event) : nat :=
  List.length (filter is_invoke ev).


(** Whether the scanner accepts a line given as a literal. *)
Definition scanner_accepts (line : string) : bool :=
  fst (fst (fst (fst
    (CeDispatch.parse_line_to_tokens
       {| CeDispatch.caller_mem := chars line; CeDispatch.line_buf := [] |}
       (Some {| blk := CallerMem; off := 0 |})
       (Some (repeat None MAX_TOKENS)) (Some O))))).

(** The calls a dispatch makes before it reaches the stage named. *)
Definition calls_upto_tokenize : list CeDispatch.event :=
  [CeDispatch.Call CeDispatch.F_parse_line_to_tokens].
Definition calls_upto_resolve : list CeDispatch.event :=
  calls_upto_tokenize ++ [CeDispatch.Call CeDispatch.F_lookup_signature_by_hash].
Definition calls_upto_arity : list CeDispatch.event :=
  calls_upto_resolve ++ [CeDispatch.Call CeDispatch.F_validate_argument_count].
Definition calls_upto_parse : list CeDispatch.event :=
  calls_upto_arity ++ [CeDispatch.Call CeDispatch.F_dispatch_command;
                       CeDispatch.Call CeDispatch.F_parse_arguments].

Definition call_prefixes : list (list CeDispatch.event) :=
  [ []; calls_upto_tokenize; calls_upto_resolve; calls_upto_arity;
    calls_upto_parse ].

(** The two ways a dispatch can go: it stops in some stage, leaving
    diagnostics and nothing else after the calls made so far, or it goes
    through all of them and ends with the one invocation, whose result it
    returns.  Stores that left the scratch buffer are recorded where they
    happened, after the calls and before anything else. *)
Inductive dispatch_trace
          (handler : ce_signature_st -> list ce_arg_value_ut ->
                     CeDispatch.memory -> CeDispatch.scratch_buffer_st -> bool)
  : bool -> list CeDispatch.event -> Prop :=
| trace_failed (calls strays errs : list CeDispatch.event) :
    In calls call_prefixes -> forallb is_stray strays = true ->
    errs <> [] -> forallb is_err errs = true ->
    dispatch_trace handler false (calls ++ strays ++ errs)
| trace_invoked (strays : list CeDispatch.event)
                (sig : ce_signature_st) (args : list ce_arg_value_ut)
                (m : CeDispatch.memory) (sc : CeDispatch.scratch_buffer_st) :
    forallb is_stray strays = true ->
    dispatch_trace handler (handler sig args m sc)
                   (calls_upto_parse ++ strays
                    ++ [CeDispatch.Invoke sig args m sc]).

(** A stage function that succeeds is silent; one that fails leaves
    diagnostics only. *)
Definition silent_or_failed (ok : bool) (ev : list CeDispatch.event) : Prop :=
  forallb is_err ev = true /\ (ok = true -> ev = []) /\ (ok = false -> ev <> []).

(** The same for the argument parsers, where a store that left the
    scratch buffer is recorded before the diagnostics, if any. *)
Definition strays_then_errs (ok : bool) (ev : list CeDispatch.event) : Prop :=
  exists strays errs,
    ev = strays ++ errs
    /\ forallb is_stray strays = true
    /\ forallb is_err errs = true
    /\ (ok = true -> errs = []).

(** Neither a handler call nor a store outside the scratch buffer. *)
Definition uneventful (ev : list CeDispatch.event) : Prop :=
  forallb (fun e => negb (is_invoke e || is_stray e)) ev = true.

(** No store left the scratch buffer. *)
Definition in_bounds (ev : list CeDispatch.event) : Prop :=
  forall first beyond, ~ In (CeDispatch.Stray first beyond) ev.

(** The scratch buffer as the handler is given it. *)
Fixpoint invoked_scratch (ev : list CeDispatch.event)
  : option CeDispatch.scratch_buffer_st :=
  match ev with
  | [] => None
  | CeDispatch.Invoke _ _ _ sc :: _ => Some sc
  | _ :: rest => invoked_scratch rest
  end.

(** The arguments as the handler is given them. *)
Fixpoint invoked_args (ev : list CeDispatch.event)
  : option (list ce_arg_value_ut) :=
  match ev with
  | [] => None
  | CeDispatch.Invoke _ args _ _ :: _ => Some args
  | _ :: rest => invoked_args rest
  end.

End Spec.

(** ** The demo command set *)

Module Demo.

Section Table.

Variable char_is_signed : bool.

Definition signature (name : string) (handler : N)
           (types : list ce_arg_type_et) : ce_signature_st :=
  {| hash_u32 := CeHash.ce_hash_calculate char_is_signed (Some (chars name));
     handler := handler;
     types_e := types;
     type_count_u8 := List.length types |}.

(** Modelled from the spec: the generated signature table ([ce_table.c] is
    produced by the code generator and is not among the sources).  The
    entries are the commands of the demo, with the argument types of the
    handlers' prototypes in [demo.h] and, as hash, what the hash function
    gives for the command name. *)
Definition ce_table : list ce_signature_st :=
  [ signature "cat_string" 1 [TYPE_STRING_e];
    signature "cat_byte" 2 [TYPE_UINT8_e];
    signature "cat_bytes" 3 [TYPE_UINT8_PTR_e; TYPE_UINT8_e];
    signature "void" 4 [];
    signature "cat_mixed" 5
              [TYPE_UINT8_PTR_e; TYPE_UINT8_PTR_e; TYPE_STRING_e; TYPE_STRING_e;
               TYPE_UINT8_PTR_e; TYPE_INT64_e; TYPE_UINT32_e] ].

(** [run] below is for lines that store nothing outside the scratch
    buffer; what such a store does is never asked for on them, and [run]
    is given the answer that it does nothing. *)
Definition unreached : CeDispatch.stray_stores := fun m sc _ => (m, sc).

(** A handler that reports success. *)
Definition accept (_ : ce_signature_st) (_ : list ce_arg_value_ut)
           (_ : CeDispatch.memory) (_ : CeDispatch.scratch_buffer_st) : bool :=
  true.

(** A dispatch of a line given as a literal, in a memory that holds it. *)
Definition run (line : cbuf) : bool * CeDispatch.memory * list CeDispatch.event :=
  CeDispatch.ce_dispatch_from_line char_is_signed ce_table accept unreached
    {| CeDispatch.caller_mem := line; CeDispatch.line_buf := [] |} (Some O).

End Table.

(** A [cat_mixed] line whose first two binary arguments are 33 bytes each
    (159 characters, eight tokens). *)
Definition long_buffers_line : cbuf :=
  chars "cat_mixed " ++ repeat "A"%char 66 ++ chars " " ++ repeat "B"%char 66
  ++ chars " foo bar 00 -1 1".


End Demo.

(** ** logger.c *)

Module Logger.

Definition LOG_HISTORY_SIZE : nat := 10.

Inductive ce_file_id_et := CE_FILE_DISPATCH_e | CE_FILE_PARSER_UTILS_e | CE_FILE_MAX_e.

Record log_entry_st := { file_id : ce_file_id_et; line : Z }.

(** The two statics of the file. *)
Record log_state := {
  log_history : list log_entry_st;
  log_history_idx : nat
}.

(** Static storage is zero-initialised. *)
Definition zero_entry : log_entry_st := {| file_id := CE_FILE_DISPATCH_e; line := 0 |}.

Definition initial_state : log_state :=
  {| log_history := repeat zero_entry LOG_HISTORY_SIZE; log_history_idx := 0 |}.

(** [log_history[i] = e], for [i] inside the array. *)
Fixpoint set_entry (i : nat) (e : log_entry_st) (a : list log_entry_st)
  : list log_entry_st :=
  match a, i with
  | [], _ => []
  | _ :: rest, O => e :: rest
  | x :: rest, S i' => x :: set_entry i' e rest
  end.

Definition log_event (st : log_state) (file_id : ce_file_id_et) (line : Z)
  : log_state :=
  {| log_history :=
       set_entry (log_history_idx st) {| file_id := file_id; line := line |}
                 (log_history st);
     log_history_idx := (log_history_idx st + 1) mod LOG_HISTORY_SIZE |}.

(** A run of [log_event] calls, oldest first. *)
Definition log_events (st : log_state) (es : list log_entry_st) : log_state :=
  fold_left (fun st e => log_event st (file_id e) (line e)) es st.

End Logger.

(** ** More of the specification's vocabulary *)

Module SpecMore.
Import Spec.

(** *** Booleans *)

(** [c] is the letter [l], in either case ([l] being lower case). *)
Definition same_letter (c l : ascii) : bool :=
  if (65 <=? code c) && (code c <=? 90)
  then code c + 32 =? code l
  else code c =? code l.

(** [s] is the literal [lit] up to the case of its letters. *)
Fixpoint matches_literal (s lit : cbuf) : bool :=
  match s, lit with
  | [], [] => true
  | c :: s', l :: lit' => same_letter c l && matches_literal s' lit'
  | _, _ => false
  end.

Definition is_exactly (s lit : cbuf) : bool :=
  if list_eq_dec ascii_dec s lit then true else false.

(** The boolean a token denotes, if any. *)
Definition boolean_value (s : cbuf) : option bool :=
  if matches_literal s (chars "true") then Some true
  else if matches_literal s (chars "false") then Some false
  else if is_exactly s (chars "1") then Some true
  else if is_exactly s (chars "0") then Some false
  else None.

(** *** Writing numbers *)

Definition digit_char (d : Z) : ascii := ascii_of_N (Z.to_N (48 + d)).

(** The decimal digits of [v] put in front of [acc]; [fuel] bounds their
    number. *)
Fixpoint render_onto (fuel : nat) (v : Z) (acc : cbuf) : cbuf :=
  match fuel with
  | O => acc
  | S fuel' =>
      let acc' := digit_char (v mod 10) :: acc in
      if v <? 10 then acc' else render_onto fuel' (v / 10) acc'
  end.

(** The decimal numeral of a natural number, without leading zeros. *)
Definition render_unsigned (v : Z) : cbuf :=
  render_onto (S (Z.to_nat (Z.log2 v))) v [].

(** The decimal numeral of an integer, with ['-'] when negative. *)
Definition render (v : Z) : cbuf :=
  if v <? 0 then "-"%char :: render_unsigned (- v) else render_unsigned v.

(** *** Writing bytes in hex *)

Definition hex_char (upper : bool) (n : Z) : ascii :=
  if n <? 10 then ascii_of_N (Z.to_N (48 + n))
  else ascii_of_N (Z.to_N ((if upper then 65 else 97) + (n - 10))).

(** Two hex digits per byte, high nibble first. *)
Fixpoint hex_encode (upper : bool) (bytes : list Z) : cbuf :=
  match bytes with
  | [] => []
  | b :: rest => hex_char upper (b / 16) :: hex_char upper (b mod 16)
                 :: hex_encode upper rest
  end.

(** *** Typed arguments *)

(** The value a token denotes at a declared type: [s] is the token's text,
    [tok] where it stands in the line, [at_used] the fill of the scratch
    buffer when the argument is reached. *)
Definition typed_value (type_e : ce_arg_type_et) (tok : char_ptr) (s : cbuf)
           (at_used : nat) : option ce_arg_value_ut :=
  let unsigned (mk : Z -> ce_arg_value_ut) (tmax : Z) :=
    if unsigned_accepts tmax s then Some (mk (decimal_value s)) else None in
  let signed (mk : Z -> ce_arg_value_ut) (tmin tmax : Z) :=
    if signed_accepts tmin tmax s then Some (mk (signed_value s)) else None in
  match type_e with
  | TYPE_UINT8_e => unsigned V_u8 UINT8_MAX
  | TYPE_UINT16_e => unsigned V_u16 UINT16_MAX
  | TYPE_UINT32_e => unsigned V_u32 UINT32_MAX
  | TYPE_UINT64_e => unsigned V_u64 UINT64_MAX
  | TYPE_INT8_e => signed V_i8 INT8_MIN INT8_MAX
  | TYPE_INT16_e => signed V_i16 INT16_MIN INT16_MAX
  | TYPE_INT32_e => signed V_i32 INT32_MIN INT32_MAX
  | TYPE_INT64_e => signed V_i64 INT64_MIN INT64_MAX
  | TYPE_BOOL_e => option_map V_b (boolean_value s)
  | TYPE_STRING_e => Some (V_str_cp tok)
  | TYPE_UINT8_PTR_e =>
      if hex_accepts MAX_ARG_CONTENT_SIZE s then Some (V_bytes_u8p at_used)
      else None
  | TYPE_INVALID_e => None
  end.

(** The [i]-th token of a line, counted from 0 (empty when there is none). *)
Definition nth_word (i : nat) (s : cbuf) : cbuf := first_word (after_tokens i s).

End SpecMore.

(** *** What the scanner may do to a cell *)

Module ScanSpec.
Import Spec.

(** A cell after the scan: as before, or a separator turned into NUL. *)
Definition blanked (c c' : ascii) : Prop :=
  c' = c \/ (is_separator c = true /\ c' = Ascii.zero).

End ScanSpec.

(** *** The arguments of a command *)

Module ArgSpec.
Import Spec SpecMore.

(** The bytes a token contributes to the scratch buffer at a declared
    type: the decoded pairs for a binary argument, none otherwise. *)
Definition argument_bytes (type_e : ce_arg_type_et) (s : cbuf) : list Z :=
  match type_e with
  | TYPE_UINT8_PTR_e => decode_pairs s
  | _ => []
  end.

(** The values a run of tokens denotes at a run of declared types, and
    the bytes their binary arguments put into the scratch buffer, which
    holds [at_used] bytes when the run starts.  [None] when a token is
    missing or does not denote a value of its type. *)
Fixpoint argument_values (m : CeDispatch.memory) (types : list ce_arg_type_et)
         (tokens : list (option char_ptr)) (at_used : nat)
  : option (list ce_arg_value_ut * list Z) :=
  match types with
  | [] => Some ([], [])
  | type_e :: types' =>
      match tokens with
      | Some tok :: tokens' =>
          let s := c_str (CeDispatch.load m tok) in
          match typed_value type_e tok s at_used with
          | Some v =>
              let bytes := argument_bytes type_e s in
              match argument_values m types' tokens'
                                    (at_used + List.length bytes) with
              | Some (vs, more) => Some (v :: vs, bytes ++ more)
              | None => None
              end
          | None => None
          end
      | _ => None
      end
  end.

(** The types a signature declares: the first [type_count_u8] entries of
    its type array. *)
Definition declared_types (sig : ce_signature_st) : list ce_arg_type_et :=
  map (fun i => nth i (types_e sig) TYPE_INVALID_e) (seq 0 (type_count_u8 sig)).

(** The scratch buffer after [bytes] were stored at its fill [used]. *)
Definition scratch_with (sc : CeDispatch.scratch_buffer_st) (bytes : list Z)
  : CeDispatch.scratch_buffer_st :=
  let at_used := N.to_nat (CeDispatch.used sc) in
  {| CeDispatch.buffer :=
       firstn at_used (CeDispatch.buffer sc) ++ bytes
       ++ skipn (at_used + List.length bytes) (CeDispatch.buffer sc);
     CeDispatch.used := (CeDispatch.used sc + N.of_nat (List.length bytes))%N |}.

(** How many of the declared types are binary arguments. *)
Definition is_binary (type_e : ce_arg_type_et) : bool :=
  match type_e with TYPE_UINT8_PTR_e => true | _ => false end.

Definition binary_arguments (types : list ce_arg_type_et) : nat :=
  List.length (filter is_binary types).

(** The scratch buffer a dispatch starts from. *)
Definition empty_scratch : CeDispatch.scratch_buffer_st :=
  {| CeDispatch.buffer := repeat 0 (N.to_nat MAX_ARG_CONTENT_SIZE);
     CeDispatch.used := 0%N |}.

(** The handler's events of a trace. *)
Definition handler_calls (ev : list CeDispatch.event) : list CeDispatch.event :=
  filter is_invoke ev.

(** What a dispatch of the line [s] comes to, given the token pointers
    [toks] the scanner produced and the memory [m'] it left: the command
    is the entry found for the hash of the first token, the line must have
    one token more than the command declares arguments, every argument
    must denote a value of its declared type, and the handler is then
    called once, on these values, and decides the result. *)
Definition dispatch_outcome (char_is_signed : bool)
           (ce_table : list ce_signature_st)
           (ce_invoke_handler : ce_signature_st -> list ce_arg_value_ut ->
                                CeDispatch.memory -> CeDispatch.scratch_buffer_st -> bool)
           (m' : CeDispatch.memory) (toks : list (option char_ptr)) (s : cbuf)
  : bool * list CeDispatch.event :=
  let n := count_tokens false s in
  if (0 <? n)%nat && (n <=? MAX_TOKENS)%nat then
    match CeDispatch.lookup_signature_by_hash ce_table
            (CeHash.ce_hash_calculate char_is_signed (Some (nth_word 0 s))) with
    | Some sig =>
        if (n =? S (type_count_u8 sig))%nat then
          match argument_values m' (declared_types sig) (skipn 1 toks) 0 with
          | Some (vs, bytes) =>
              let args := vs ++ repeat CeDispatch.zero_value
                                       (MAX_TOKENS - type_count_u8 sig) in
              let sc := scratch_with empty_scratch bytes in
              (ce_invoke_handler sig args m' sc,
               [CeDispatch.Invoke sig args m' sc])
          | None => (false, [])
          end
        else (false, [])
    | None => (false, [])
    end
  else (false, []).

End ArgSpec.

(** Case analysis on every integer comparison of the goal. *)
Ltac order_cases :=
  repeat (match goal with
          | |- context [?a <=? ?b] => destruct (Z.leb_spec a b)
          | |- context [?a <? ?b] => destruct (Z.ltb_spec a b)
          | |- context [?a >? ?b] => destruct (Z.gtb_spec a b)
          end; cbn [andb orb negb]).

(** * Properties *)

(** ** Buffers and machine arithmetic *)

Module BaseFacts.

Lemma code_range (c : ascii) : 0 <= code c < 256.
Proof.
  unfold code. pose proof (N_ascii_bounded c) as H.
  split; [apply N2Z.is_nonneg | ]. change 256 with (Z.of_N 256).
  apply N2Z.inj_lt. exact H.
Qed.

Lemma code_inj (c d : ascii) : code c = code d -> c = d.
Proof.
  unfold code. intros H. apply N2Z.inj in H.
  rewrite <- (ascii_N_embedding c), <- (ascii_N_embedding d). now rewrite H.
Qed.

Lemma code_eqb (c d : ascii) : (code c =? code d) = true <-> c = d.
Proof.
  rewrite Z.eqb_eq. split; [apply code_inj | now intros ->].
Qed.

Lemma c_str_no_nul (buf : cbuf) :
  Forall (fun c => is_nul c = false) (c_str buf).
Proof.
  induction buf as [|c rest IH]; simpl; [constructor|].
  destruct (is_nul c) eqn:E; constructor; assumption.
Qed.

Lemma c_str_fixed (s : cbuf) :
  Forall (fun c => is_nul c = false) s -> c_str s = s.
Proof.
  induction 1 as [|c rest Hc _ IH]; simpl; [reflexivity|].
  now rewrite Hc, IH.
Qed.

Lemma c_str_idem (buf : cbuf) : c_str (c_str buf) = c_str buf.
Proof. apply c_str_fixed, c_str_no_nul. Qed.

Lemma c_str_length (buf : cbuf) : (List.length (c_str buf) <= List.length buf)%nat.
Proof.
  induction buf as [|c rest IH]; simpl; [lia|].
  destruct (is_nul c); simpl; lia.
Qed.

(** Inside the string, the buffer and the string agree. *)
Lemma c_str_nth (buf : cbuf) (i : nat) :
  (i < List.length (c_str buf))%nat ->
  nth i buf Ascii.zero = nth i (c_str buf) Ascii.zero.
Proof.
  revert i. induction buf as [|c rest IH]; simpl; intros i Hi; [lia|].
  destruct (is_nul c); simpl in *; [lia|].
  destruct i; [reflexivity|]. apply IH. lia.
Qed.

Lemma wrap_small (bits x : Z) : 0 <= x < 2 ^ bits -> wrap bits x = x.
Proof. intros H. unfold wrap. now apply Z.mod_small. Qed.

Lemma wrap_range (bits x : Z) : 0 <= bits -> 0 <= wrap bits x < 2 ^ bits.
Proof.
  intros H. unfold wrap. apply Z.mod_pos_bound. now apply Z.pow_pos_nonneg.
Qed.

Lemma to_signed_small (bits x : Z) :
  0 < bits -> - 2 ^ (bits - 1) <= x < 2 ^ (bits - 1) -> to_signed bits x = x.
Proof.
  intros Hb Hx. unfold to_signed, wrap.
  assert (Hp : 2 ^ bits = 2 * 2 ^ (bits - 1)).
  { replace bits with (Z.succ (bits - 1)) at 1 by lia.
    rewrite Z.pow_succ_r by lia. reflexivity. }
  assert (0 < 2 ^ (bits - 1)) by (apply Z.pow_pos_nonneg; lia).
  destruct (Z.neg_nonneg_cases x) as [Hneg|Hpos].
  - replace (x mod 2 ^ bits) with (x + 2 ^ bits).
    + destruct (Z.ltb_spec (x + 2 ^ bits) (2 ^ (bits - 1))); lia.
    + apply Z.mod_unique with (q := -1); lia.
  - rewrite Z.mod_small by lia.
    destruct (Z.ltb_spec x (2 ^ (bits - 1))); lia.
Qed.

End BaseFacts.

(** ** The hash *)

Module HashFacts.
Import CeHash BaseFacts.

(** Shift-and-add is multiplication by 33, and the intermediate
    reductions are absorbed by the last one. *)
Lemma djb2_step (hash x : Z) :
  wrap32 (wrap32 (wrap32 (Z.shiftl hash DJB2_HASH_SHIFT) + hash) + x)
  = wrap32 (hash * DJB2_HASH_MULTIPLIER + x).
Proof.
  unfold wrap32, wrap, DJB2_HASH_SHIFT, DJB2_HASH_MULTIPLIER.
  rewrite Z.shiftl_mul_pow2 by lia.
  rewrite Z.add_mod_idemp_l by lia.
  rewrite <- Z.add_assoc, Z.add_mod_idemp_l by lia.
  f_equal. change (2 ^ 5) with 32. lia.
Qed.

Lemma hash_loop_fold (signed : bool) (s : cbuf) (hash : Z) :
  hash_loop signed s hash
  = fold_left (fun h byte => wrap32 (h * DJB2_HASH_MULTIPLIER + byte))
              (map (char_to_u32 signed) (c_str s)) hash.
Proof.
  revert hash.
  induction s as [|c rest IH]; intros hash; cbn [hash_loop c_str]; [reflexivity|].
  destruct (is_nul c); cbn [map fold_left]; [reflexivity|].
  rewrite IH, djb2_step. reflexivity.
Qed.

Lemma djb2_range (bytes : list Z) : 0 <= djb2 bytes < 2 ^ 32.
Proof.
  unfold djb2.
  assert (H : forall h, 0 <= h < 2 ^ 32 ->
            0 <= fold_left (fun hash byte => wrap32 (hash * DJB2_HASH_MULTIPLIER + byte))
                           bytes h < 2 ^ 32).
  { induction bytes as [|b rest IH]; intros h Hh; simpl; [exact Hh|].
    apply IH. apply wrap_range. lia. }
  apply H. unfold DJB2_INIT_HASH. lia.
Qed.

(** Where [(uint32_t)c] is the code of the character: always when [char]
    is unsigned, and for 7-bit characters in any case. *)
Lemma char_to_u32_code (signed : bool) (c : ascii) :
  signed = false \/ code c < 128 -> char_to_u32 signed c = code c.
Proof.
  unfold char_to_u32. intros [-> | H]; [reflexivity|].
  destruct (Z.leb_spec 128 (code c)); [lia|].
  now rewrite andb_false_r.
Qed.

(** What the conversion gives for a byte above 127 where [char] is
    signed: the byte with the 24 bits above it set. *)
Lemma char_to_u32_addend (signed : bool) (c : ascii) :
  char_to_u32 signed c = hash_addend signed (code c).
Proof.
  unfold char_to_u32, hash_addend.
  destruct (signed && (128 <=? code c)) eqn:E; [|reflexivity].
  apply andb_true_iff in E as [_ E]. apply Z.leb_le in E.
  pose proof (code_range c). unfold wrap32, wrap.
  symmetry. apply Z.mod_unique with (q := -1); lia.
Qed.

(** C3, and where the code departs from it.  A null input gives 0 and
    the empty string the seed 5381; the result is a 32-bit value; and it
    is classic DJB2 over the bytes of the string, from 5381 with
    [hash = hash * 33 + byte] modulo 2^32, whenever [char] is unsigned or
    the string is 7-bit ASCII.  Where [char] is signed a byte above 127
    is sign-extended by [(uint32_t)c] and enters the sum with its upper 24
    bits set: the one-byte string [0x80] hashes to 177445, and classic
    DJB2 gives 177701 for it. *)
Theorem ce_hash_calculate_is_djb2 (signed : bool) (s : cbuf) :
  ce_hash_calculate signed None = 0
  /\ ce_hash_calculate signed (Some (chars "")) = 5381
  /\ 0 <= ce_hash_calculate signed (Some s) < 2 ^ 32
  /\ (signed = false \/ Forall (fun c => code c < 128) (c_str s) ->
      ce_hash_calculate signed (Some s) = djb2 (map code (c_str s)))
  /\ ce_hash_calculate signed (Some s)
     = djb2 (map (hash_addend signed) (map code (c_str s)))
  /\ (ce_hash_calculate true (Some ["128"%char]) = 177445
      /\ djb2 (map code ["128"%char]) = 177701).
Proof.
  split; [reflexivity|]. split; [reflexivity|].
  assert (E : ce_hash_calculate signed (Some s)
              = djb2 (map (char_to_u32 signed) (c_str s))).
  { unfold ce_hash_calculate, djb2. apply hash_loop_fold. }
  split; [rewrite E; apply djb2_range|]. split; [|split].
  - intros H. rewrite E. f_equal. apply map_ext_in. intros c Hc.
    apply char_to_u32_code. destruct H as [H|H]; [now left|right].
    rewrite Forall_forall in H. now apply H.
  - rewrite E, map_map. f_equal. apply map_ext. intros c.
    apply char_to_u32_addend.
  - split; reflexivity.
Qed.

Lemma ce_hash_calculate_is_djb2_witness :
  ce_hash_calculate true (Some (chars "reset")) = 273105544
  /\ djb2 (map code (chars "reset")) = 273105544.
Proof.
  pose proof (ce_hash_calculate_is_djb2 true (chars "reset"))
    as (_ & _ & _ & H & _).
  assert (A : ce_hash_calculate true (Some (chars "reset"))
              = djb2 (map code (c_str (chars "reset")))).
  { apply H. right. repeat constructor. }
  split; [rewrite A|]; reflexivity.
Defined.

(** The values the tests of the repository expect. *)
Example known_hash_values (signed : bool) :
  ce_hash_calculate signed (Some (chars "set_speed")) = 0x435A0D81
  /\ ce_hash_calculate signed (Some (chars "set_mac")) = 0x8C2AFEA1
  /\ ce_hash_calculate signed (Some (chars "reset")) = 0x10474288
  /\ ce_hash_calculate signed (Some (chars "Reset"))
     <> ce_hash_calculate signed (Some (chars "reset")).
Proof. destruct signed; repeat split; (reflexivity || (vm_compute; discriminate)). Qed.

(** Where the signedness of [char] shows: a byte above 127. *)
Example high_byte_hash :
  ce_hash_calculate false (Some ["128"%char]) = 177701
  /\ ce_hash_calculate true (Some ["128"%char]) = 177445.
Proof. split; reflexivity. Qed.

End HashFacts.

(** ** The scalar parsers *)

Module ParserFacts.
Import ParserUtils Spec BaseFacts.

(** A range test against 7-bit literals does not depend on whether [char]
    is signed: a character above 127 fails it either way. *)
Lemma range_test_signedness (lo hi : Z) (c : ascii) :
  0 <= lo -> hi < 128 ->
  let signed_value := if 128 <=? code c then code c - 256 else code c in
  ((lo <=? signed_value) && (signed_value <=? hi))
  = ((lo <=? code c) && (code c <=? hi)).
Proof.
  intros Hlo Hhi. cbv zeta. pose proof (code_range c).
  destruct (Z.leb_spec 128 (code c)); [|reflexivity].
  destruct (Z.leb_spec lo (code c - 256)); [lia|].
  destruct (Z.leb_spec (code c) hi); [lia|].
  now rewrite andb_false_r.
Qed.

Lemma is_digit_bounds (c : ascii) : is_digit c = true -> 0 <= digit_val c <= 9.
Proof.
  unfold is_digit, digit_val. rewrite andb_true_iff, !Z.leb_le. lia.
Qed.

Lemma ascii_to_digit_spec (c : ascii) (d : Z) :
  ascii_to_digit c (Some d)
  = if is_digit c then (true, Some (digit_val c)) else (false, Some d).
Proof.
  unfold ascii_to_digit. change (code "0") with 48. change (code "9") with 57.
  fold (is_digit c). destruct (is_digit c) eqn:D; [|reflexivity].
  apply is_digit_bounds in D. unfold digit_val in *.
  unfold wrap8. rewrite wrap_small; [reflexivity|]. change (2 ^ 8) with 256. lia.
Qed.

Lemma is_nul_deref (s : cbuf) : is_nul (deref s) = negb (nonempty (c_str s)).
Proof.
  destruct s as [|c rest]; [reflexivity|].
  cbn [deref hd c_str]. now destruct (is_nul c).
Qed.

Lemma decimal_from_ge (s : cbuf) (v : Z) :
  forallb is_digit s = true -> 0 <= v -> v <= decimal_from v s.
Proof.
  unfold decimal_from. revert v.
  induction s as [|c rest IH]; intros v F Hv; cbn [fold_left]; [lia|].
  cbn [forallb] in F. apply andb_true_iff in F as [D F].
  apply is_digit_bounds in D. specialize (IH (v * 10 + digit_val c) F). lia.
Qed.

Lemma decimal_from_cons (c : ascii) (s : cbuf) (v : Z) :
  decimal_from v (c :: s) = decimal_from (v * 10 + digit_val c) s.
Proof. reflexivity. Qed.

Section UnsignedLoop.

Variables (acc_bits tmax : Z).
Hypothesis tmax_fits : 0 <= tmax < 2 ^ acc_bits.

(** The loop accepts exactly the digit strings whose value stays within
    [tmax]; no intermediate value ever exceeds [tmax], so none wraps. *)
Lemma unsigned_loop_spec (s : cbuf) (v : Z) :
  0 <= v <= tmax ->
  unsigned_loop acc_bits tmax s v
  = if forallb is_digit (c_str s) && (decimal_from v (c_str s) <=? tmax)
    then Some (decimal_from v (c_str s)) else None.
Proof.
  revert v. induction s as [|c rest IH]; intros v Hv; cbn [unsigned_loop c_str].
  - cbn. destruct (Z.leb_spec v tmax); [reflexivity|lia].
  - destruct (is_nul c).
    + cbn. destruct (Z.leb_spec v tmax); [reflexivity|lia].
    + rewrite ascii_to_digit_spec. cbn [forallb]. rewrite decimal_from_cons.
      destruct (is_digit c) eqn:D; [|reflexivity].
      pose proof (is_digit_bounds c D) as Hd.
      pose proof (Z.div_mod tmax 10 ltac:(lia)) as Hdiv.
      pose proof (Z.mod_pos_bound tmax 10 ltac:(lia)) as Hmod.
      assert (Hover : tmax < v * 10 + digit_val c ->
                forallb is_digit (c_str rest)
                && (decimal_from (v * 10 + digit_val c) (c_str rest) <=? tmax)
                = false).
      { intros Hbig. destruct (forallb is_digit (c_str rest)) eqn:F; [|reflexivity].
        pose proof (decimal_from_ge (c_str rest) (v * 10 + digit_val c) F
                                    ltac:(lia)).
        cbn [andb]. apply Z.leb_gt. lia. }
      cbn [andb]. destruct (Z.gtb_spec v (tmax / 10)) as [Hgt|Hle].
      * rewrite Hover by lia. reflexivity.
      * rewrite (wrap_small acc_bits (v * 10)) by lia.
        rewrite (wrap_small acc_bits (tmax - v * 10)) by lia.
        destruct (Z.gtb_spec (digit_val c) (tmax - v * 10)) as [Hgt'|Hle'].
        -- rewrite Hover by lia. reflexivity.
        -- rewrite (wrap_small acc_bits (v * 10 + digit_val c)) by lia.
           apply IH. lia.
Qed.

Variable out_bits : Z.
Hypothesis tmax_out : tmax < 2 ^ out_bits.

Lemma parse_unsigned_spec (s : cbuf) (o : Z) :
  parse_unsigned acc_bits tmax out_bits (Some s) (Some o)
  = if unsigned_accepts tmax (c_str s)
    then (true, Some (decimal_value (c_str s))) else (false, Some o).
Proof.
  unfold parse_unsigned, unsigned_accepts, decimal_value.
  rewrite is_nul_deref. destruct (nonempty (c_str s)); [|reflexivity].
  cbn [negb andb]. rewrite unsigned_loop_spec by lia.
  destruct (forallb is_digit (c_str s)) eqn:F; [|reflexivity]. cbn [andb].
  destruct (Z.leb_spec (decimal_from 0 (c_str s)) tmax); [|reflexivity].
  pose proof (decimal_from_ge (c_str s) 0 F ltac:(lia)).
  rewrite wrap_small by lia. reflexivity.
Qed.

End UnsignedLoop.

(** C4: each of [parse_u8], [parse_u16], [parse_u32], [parse_u64] succeeds
    exactly on the non-empty strings of decimal digits whose value is at
    most the maximum of the type, and then yields that value; leading zeros
    do not count (["001"] gives 1); the first value above the maximum fails
    (["256"] for [parse_u8], and ["260"], whose 8-bit wrap-around would be
    4). *)
Theorem parse_unsigned_exact :
  unsigned_parser_of UINT8_MAX parse_u8
  /\ unsigned_parser_of UINT16_MAX parse_u16
  /\ unsigned_parser_of UINT32_MAX parse_u32
  /\ unsigned_parser_of UINT64_MAX parse_u64
  /\ parse_u8 (Some (chars "001")) (Some 9) = (true, Some 1)
  /\ parse_u8 (Some (chars "256")) (Some 9) = (false, Some 9)
  /\ parse_u8 (Some (chars "260")) (Some 9) = (false, Some 9).
Proof.
  repeat split; try reflexivity;
    intros s o; apply parse_unsigned_spec; cbv; try split; congruence.
Qed.

(** *** Signed parsers *)

Lemma signed_loop_unsigned (bits : Z) (negative : bool) (s : cbuf) (v : Z) :
  signed_loop bits negative s v
  = unsigned_loop bits (max_before_mul bits negative) s v.
Proof.
  revert v. induction s as [|c rest IH]; intros v; cbn [signed_loop unsigned_loop];
    [reflexivity|].
  destruct (is_nul c); [reflexivity|].
  destruct (ascii_to_digit c (Some 0)) as [[|] [digit|]]; try reflexivity.
  destruct (v >? _); [reflexivity|]. cbv zeta.
  destruct (digit >? _); [reflexivity|]. apply IH.
Qed.

Lemma decimal_value_nonneg (s : cbuf) :
  forallb is_digit s = true -> 0 <= decimal_value s.
Proof. intros F. apply (decimal_from_ge s 0 F). lia. Qed.

Section SignedWidth.

Variable bits : Z.
Hypothesis bits_pos : 1 < bits.

Let half := 2 ^ (bits - 1).

Lemma pow_bits : 2 ^ bits = 2 * half /\ 0 < half.
Proof.
  subst half. split.
  - replace bits with (Z.succ (bits - 1)) at 1 by lia.
    now rewrite Z.pow_succ_r by lia.
  - apply Z.pow_pos_nonneg; lia.
Qed.

Lemma max_before_mul_value (negative : bool) :
  max_before_mul bits negative = if negative then half else half - 1.
Proof.
  destruct pow_bits as [Hp Hh].
  unfold max_before_mul, int_max. fold half. destruct negative; [|reflexivity].
  replace (half - 1 + 1) with half by lia. apply wrap_small. lia.
Qed.

(** The final conversion yields the signed value of the magnitude, the
    minimum of the type included. *)
Lemma signed_result_value (negative : bool) (v : Z) :
  0 <= v <= max_before_mul bits negative ->
  signed_result bits negative v = if negative then - v else v.
Proof.
  destruct pow_bits as [Hp Hh]. rewrite max_before_mul_value.
  unfold signed_result. destruct negative; intros Hv.
  - destruct (Z.eq_dec v half) as [->|Hne].
    + assert (E : to_signed bits half = - half).
      { unfold to_signed. rewrite wrap_small by lia. fold half.
        rewrite Z.ltb_irrefl. lia. }
      rewrite E, Z.opp_involutive. exact E.
    + rewrite (to_signed_small bits v) by (fold half; lia).
      apply to_signed_small; fold half; lia.
  - apply to_signed_small; fold half; lia.
Qed.

Lemma parse_signed_spec (s : cbuf) (o : Z) :
  parse_signed bits (Some s) (Some o)
  = if signed_accepts (- half) (half - 1) (c_str s)
    then (true, Some (signed_value (c_str s))) else (false, Some o).
Proof.
  destruct pow_bits as [Hp Hh].
  assert (Body : forall (negative : bool) (digits : cbuf),
    (if is_nul (deref digits) then (false, Some o)
     else match signed_loop bits negative digits 0 with
          | Some value => (true, Some (signed_result bits negative value))
          | None => (false, Some o)
          end)
    = let value := decimal_value (c_str digits) in
      let signed := if negative then - value else value in
      if nonempty (c_str digits) && forallb is_digit (c_str digits)
         && (- half <=? signed) && (signed <=? half - 1)
      then (true, Some signed) else (false, Some o)).
  { intros negative digits. cbv zeta. rewrite is_nul_deref.
    destruct (nonempty (c_str digits)); [|reflexivity]. cbn [negb andb].
    rewrite signed_loop_unsigned.
    pose proof (max_before_mul_value negative) as HL.
    rewrite unsigned_loop_spec by (destruct negative; lia).
    fold (decimal_value (c_str digits)).
    destruct (forallb is_digit (c_str digits)) eqn:F; [|reflexivity].
    pose proof (decimal_value_nonneg _ F) as Hnn. cbn [andb].
    destruct (Z.leb_spec (decimal_value (c_str digits))
                         (max_before_mul bits negative)) as [Hle|Hgt].
    - rewrite signed_result_value by lia.
      destruct negative; order_cases; try lia; reflexivity.
    - destruct negative; order_cases; try lia; reflexivity. }
  unfold parse_signed, signed_accepts, signed_value.
  change (code "-") with 45. change (code "+") with 43.
  destruct s as [|c rest].
  - reflexivity.
  - cbn [deref hd tl c_str]. destruct (is_nul c) eqn:N.
    + assert (Hc : code c = 0) by (unfold is_nul in N; now apply Z.eqb_eq in N).
      rewrite Hc. change (0 =? 45) with false. change (0 =? 43) with false.
      cbv iota. cbn [deref hd]. rewrite N. reflexivity.
    + cbn [split_sign].
      destruct (code c =? 45); [apply (Body true rest)|].
      destruct (code c =? 43); [apply (Body false rest)|].
      assert (E : c_str (c :: rest) = c :: c_str rest) by (cbn; now rewrite N).
      rewrite <- E. apply (Body false (c :: rest)).
Qed.

End SignedWidth.

Lemma parse_narrow_spec (tmin tmax out_bits : Z) (s : cbuf) (o : Z) :
  0 < out_bits -> tmin = - 2 ^ (out_bits - 1) -> tmax = 2 ^ (out_bits - 1) - 1 ->
  INT32_MIN <= tmin -> tmax <= INT32_MAX ->
  parse_narrow tmin tmax out_bits (Some s) (Some o)
  = if signed_accepts tmin tmax (c_str s)
    then (true, Some (signed_value (c_str s))) else (false, Some o).
Proof.
  intros Hb Hmin Hmax Hlo Hhi. unfold parse_narrow, parse_i32.
  rewrite parse_signed_spec by lia. unfold signed_accepts.
  change (2 ^ (32 - 1)) with 2147483648. unfold INT32_MIN, INT32_MAX in *.
  destruct (split_sign (c_str s)) as [negative digits] eqn:S.
  set (v := signed_value (c_str s)).
  destruct (nonempty digits && forallb is_digit digits); [|reflexivity].
  cbn [andb].
  order_cases; try lia; try reflexivity.
  rewrite to_signed_small by lia. reflexivity.
Qed.

(** The narrow parsers are the 32-bit parser followed by a range check. *)
Lemma parse_narrow_through_i32 (tmin tmax out_bits : Z) (s : cbuf) (o : Z) :
  0 < out_bits -> tmin = - 2 ^ (out_bits - 1) -> tmax = 2 ^ (out_bits - 1) - 1 ->
  parse_narrow tmin tmax out_bits (Some s) (Some o)
  = match parse_i32 (Some s) (Some 0) with
    | (true, Some tmp) =>
        if (tmin <=? tmp) && (tmp <=? tmax)
        then (true, Some tmp) else (false, Some o)
    | _ => (false, Some o)
    end.
Proof.
  intros Hb Hmin Hmax. unfold parse_narrow.
  destruct (parse_i32 (Some s) (Some 0)) as [[|] [tmp|]]; try reflexivity.
  order_cases; try lia; try reflexivity.
  rewrite to_signed_small by lia. reflexivity.
Qed.

(** C5: each of [parse_i8], [parse_i16], [parse_i32], [parse_i64] succeeds
    exactly on an optional single ['+'] or ['-'] followed by one or more
    decimal digits whose signed value lies in the range of the type, and
    then yields that value.  A bare sign is rejected; the minimum is
    reached (["-2147483648"] gives [INT32_MIN]) while ["2147483648"] and
    ["-2147483649"] fail; [parse_i8] and [parse_i16] go through the 32-bit
    parser and reject what falls outside their own range. *)
Theorem parse_signed_exact :
  signed_parser_of INT8_MIN INT8_MAX parse_i8
  /\ signed_parser_of INT16_MIN INT16_MAX parse_i16
  /\ signed_parser_of INT32_MIN INT32_MAX parse_i32
  /\ signed_parser_of INT64_MIN INT64_MAX parse_i64
  /\ parse_i32 (Some (chars "-")) (Some 9) = (false, Some 9)
  /\ parse_i32 (Some (chars "+")) (Some 9) = (false, Some 9)
  /\ parse_i32 (Some (chars "-2147483648")) (Some 9) = (true, Some INT32_MIN)
  /\ parse_i32 (Some (chars "2147483648")) (Some 9) = (false, Some 9)
  /\ parse_i32 (Some (chars "-2147483649")) (Some 9) = (false, Some 9)
  /\ (forall s o,
        parse_i8 (Some s) (Some o)
        = match parse_i32 (Some s) (Some 0) with
          | (true, Some tmp) =>
              if (INT8_MIN <=? tmp) && (tmp <=? INT8_MAX)
              then (true, Some tmp) else (false, Some o)
          | _ => (false, Some o)
          end)
  /\ (forall s o,
        parse_i16 (Some s) (Some o)
        = match parse_i32 (Some s) (Some 0) with
          | (true, Some tmp) =>
              if (INT16_MIN <=? tmp) && (tmp <=? INT16_MAX)
              then (true, Some tmp) else (false, Some o)
          | _ => (false, Some o)
          end).
Proof.
  split; [intros s o; apply parse_narrow_spec; cbv; congruence|].
  split; [intros s o; apply parse_narrow_spec; cbv; congruence|].
  split; [intros s o; apply (parse_signed_spec 32); lia|].
  split; [intros s o; apply (parse_signed_spec 64); lia|].
  repeat (split; [reflexivity|]).
  split; intros s o; apply parse_narrow_through_i32; reflexivity || lia.
Qed.

(** *** Failure leaves the destination alone *)

Lemma parse_unsigned_atomic (acc_bits tmax out_bits : Z) :
  atomic_on_failure (parse_unsigned acc_bits tmax out_bits).
Proof.
  intros [s|] [o|]; try reflexivity. unfold parse_unsigned.
  destruct (is_nul (deref s)); [reflexivity|].
  destruct (unsigned_loop acc_bits tmax s 0); cbn; [discriminate|reflexivity].
Qed.

Lemma parse_signed_atomic (bits : Z) : atomic_on_failure (parse_signed bits).
Proof.
  intros [s|] [o|]; try reflexivity. unfold parse_signed.
  destruct (if code (deref s) =? code "-" then (true, tl s)
            else if code (deref s) =? code "+" then (false, tl s)
            else (false, s)) as [negative digits].
  destruct (is_nul (deref digits)); [reflexivity|].
  destruct (signed_loop bits negative digits 0); cbn; [discriminate|reflexivity].
Qed.

Lemma parse_narrow_atomic (tmin tmax out_bits : Z) :
  atomic_on_failure (parse_narrow tmin tmax out_bits).
Proof.
  intros [s|] [o|]; try reflexivity. unfold parse_narrow.
  destruct (parse_i32 (Some s) (Some 0)) as [[|] [tmp|]]; try reflexivity.
  destruct ((tmp <? tmin) || (tmp >? tmax)); cbn; [reflexivity|discriminate].
Qed.

Lemma parse_boolean_token_atomic : atomic_on_failure parse_boolean_token.
Proof.
  intros [token|] [o|]; try reflexivity. unfold parse_boolean_token. cbv zeta.
  repeat match goal with
         | |- context [if ?b then _ else _] => destruct b; cbn [fst snd]
         end;
    try discriminate; reflexivity.
Qed.

(** C9: every scalar parser is atomic on failure: whenever it returns
    [false], null pointers included, the value behind the output pointer
    is the one it held before the call. *)
Theorem scalar_parsers_atomic :
  atomic_on_failure parse_u8 /\ atomic_on_failure parse_u16
  /\ atomic_on_failure parse_u32 /\ atomic_on_failure parse_u64
  /\ atomic_on_failure parse_i8 /\ atomic_on_failure parse_i16
  /\ atomic_on_failure parse_i32 /\ atomic_on_failure parse_i64
  /\ atomic_on_failure parse_boolean_token.
Proof.
  repeat split;
    first [ apply parse_unsigned_atomic | apply parse_signed_atomic
          | apply parse_narrow_atomic | apply parse_boolean_token_atomic ].
Qed.

Lemma scalar_parsers_atomic_witness :
  snd (parse_u8 (Some (chars "25x")) (Some 7)) = Some 7
  /\ snd (parse_i32 (Some (chars "-2147483649")) (Some 7)) = Some 7
  /\ snd (parse_boolean_token (Some (chars "truex")) (Some false)) = Some false.
Proof.
  destruct scalar_parsers_atomic as (U8 & _ & _ & _ & _ & _ & I32 & _ & B).
  split; [apply U8; reflexivity|].
  split; [apply I32; reflexivity | apply B; reflexivity].
Defined.

(** *** Hex strings *)

Lemma ascii_to_hex_spec (c : ascii) (d : Z) :
  ascii_to_hex c (Some d)
  = if is_hex c then (true, Some (hex_val c)) else (false, Some d).
Proof.
  destruct c as [[] [] [] [] [] [] [] []]; reflexivity.
Qed.

Lemma hex_val_range (c : ascii) : is_hex c = true -> 0 <= hex_val c < 16.
Proof.
  destruct c as [[] [] [] [] [] [] [] []]; cbv; intros H;
    first [ discriminate H | split; congruence ].
Qed.

(** [(hi << 4) | lo] is [hi * 16 + lo] for two nibbles. *)
Lemma combine_nibbles (hi lo : Z) :
  0 <= hi < 16 -> 0 <= lo < 16 ->
  wrap8 (Z.lor (Z.shiftl hi 4) lo) = hi * 16 + lo.
Proof.
  intros Hh Hl.
  assert (Eh : hi = Z.of_nat (Z.to_nat hi)) by lia.
  assert (El : lo = Z.of_nat (Z.to_nat lo)) by lia.
  assert (Bh : (Z.to_nat hi < 16)%nat) by lia.
  assert (Bl : (Z.to_nat lo < 16)%nat) by lia.
  rewrite Eh, El. clear Eh El Hh Hl.
  generalize dependent (Z.to_nat lo). generalize dependent (Z.to_nat hi).
  intros a Ha b Hb.
  do 16 (destruct a as [|a];
         [do 16 (destruct b as [|b]; [reflexivity|]); exfalso; lia|]).
  exfalso; lia.
Qed.

Lemma poke_end (w t : list Z) (b : Z) :
  poke (w ++ t) (List.length w) b = (w ++ [b]) ++ tl t.
Proof.
  induction w as [|x w IH]; cbn [app List.length poke].
  - destruct t; reflexivity.
  - cbn [poke]. now rewrite IH.
Qed.

Lemma skipn_tl {A : Type} (n : nat) (t : list A) :
  skipn n (tl t) = skipn (S n) t.
Proof. destruct t; [now rewrite skipn_nil|reflexivity]. Qed.

(** The loop started at pair [length w], with [w] the bytes already stored
    and [r] the characters still to read. *)
Lemma hex_loop_spec (n : nat) :
  forall (w t : list Z) (pre r : cbuf),
    List.length pre = (List.length w * 2)%nat ->
    (2 * n <= List.length r)%nat ->
    let res := hex_loop n (List.length w) (pre ++ r) (w ++ t) in
    fst res = forallb is_hex (firstn (2 * n) r)
    /\ (fst res = true ->
        snd res = w ++ decode_pairs (firstn (2 * n) r) ++ skipn n t).
Proof.
  induction n as [|n IH]; intros w t pre r Hpre Hlen; cbv zeta.
  - cbn. split; [reflexivity|]. intros _. reflexivity.
  - destruct r as [|hi [|lo r]]; cbn [List.length] in Hlen; try lia.
    replace (2 * S n)%nat with (S (S (2 * n))) by lia.
    cbn [firstn forallb decode_pairs hex_loop].
    assert (Ehi : char_at (pre ++ hi :: lo :: r) (List.length w * 2) = hi).
    { unfold char_at. rewrite <- Hpre, app_nth2, Nat.sub_diag by lia. reflexivity. }
    assert (Elo : char_at (pre ++ hi :: lo :: r) (List.length w * 2 + 1) = lo).
    { unfold char_at. rewrite <- Hpre, app_nth2 by lia.
      replace (List.length pre + 1 - List.length pre)%nat with 1%nat by lia.
      reflexivity. }
    rewrite Ehi, Elo, !ascii_to_hex_spec.
    destruct (is_hex hi) eqn:Hh; [|split; [reflexivity|discriminate]].
    destruct (is_hex lo) eqn:Hl; [|split; [reflexivity|discriminate]].
    cbn [andb].
    rewrite combine_nibbles by (now apply hex_val_range).
    rewrite poke_end.
    replace (S (List.length w))
      with (List.length (w ++ [hex_val hi * 16 + hex_val lo]))
      by (rewrite length_app; cbn; lia).
    replace (pre ++ hi :: lo :: r) with ((pre ++ [hi; lo]) ++ r)
      by (now rewrite <- app_assoc).
    specialize (IH (w ++ [hex_val hi * 16 + hex_val lo]) (tl t)
                   (pre ++ [hi; lo]) r).
    cbv zeta in IH. destruct IH as [IH1 IH2].
    + rewrite !length_app. cbn [List.length]. lia.
    + lia.
    + split; [exact IH1|]. intros Hok. rewrite (IH2 Hok), skipn_tl.
      rewrite <- app_assoc. reflexivity.
Qed.

Lemma c_str_prefix (s : cbuf) : firstn (List.length (c_str s)) s = c_str s.
Proof.
  induction s as [|c rest IH]; [reflexivity|]. cbn [c_str].
  destruct (is_nul c); [reflexivity|]. cbn [List.length firstn]. now rewrite IH.
Qed.

Lemma decode_pairs_length (s : cbuf) :
  List.length (decode_pairs s) = Nat.div2 (List.length s).
Proof.
  assert (H : forall n (s : cbuf), (List.length s <= n)%nat ->
            List.length (decode_pairs s) = Nat.div2 (List.length s)).
  { induction n as [|n IH]; intros [|hi [|lo r]] Hn; cbn in *; try lia.
    f_equal. apply IH. lia. }
  now apply (H (List.length s)).
Qed.

(** The three tests on the length, in terms of the string. *)
Lemma length_tests (s : cbuf) :
  let len := strlen s in
  (len =? 0)%N = negb (nonempty (c_str s))
  /\ (N.land len 1 =? 0)%N = Nat.even (List.length (c_str s))
  /\ N.shiftr len 1 = N.of_nat (Nat.div2 (List.length (c_str s))).
Proof.
  cbv zeta. unfold strlen. set (n := List.length (c_str s)).
  assert (H0 : (N.of_nat n =? 0)%N = negb (nonempty (c_str s))).
  { subst n. destruct (c_str s); reflexivity. }
  split; [exact H0|]. clear H0.
  rewrite <- N.div2_spec, <- Nat2N.inj_div2. split; [|reflexivity].
  change 1%N with (N.ones 1). rewrite N.land_ones. change (2 ^ 1)%N with 2%N.
  destruct (Nat.Even_or_Odd n) as [[k Hk]|[k Hk]]; rewrite Hk.
  - replace (N.of_nat (2 * k)) with (N.of_nat k * 2)%N by lia.
    rewrite N.Div0.mod_mul. rewrite Nat.even_mul. reflexivity.
  - replace (N.of_nat (2 * k + 1)) with (1 + N.of_nat k * 2)%N by lia.
    rewrite N.Div0.mod_add. rewrite Nat.add_comm, Nat.even_add_mul_2.
    reflexivity.
Qed.

Lemma parse_hex_string_spec (s : cbuf) (buf : list Z) (max_len o : N) :
  let bytes := Nat.div2 (List.length (c_str s)) in
  let res := parse_hex_string (Some s) (Some buf) max_len (Some o) in
  if hex_accepts max_len (c_str s)
  then res = (true, Some (decode_pairs (c_str s) ++ skipn bytes buf),
              Some (N.of_nat bytes))
  else fst (fst res) = false /\ snd res = Some o.
Proof.
  cbv zeta. unfold parse_hex_string, hex_accepts.
  destruct (length_tests s) as (E0 & E1 & E2). cbv zeta in E0, E1, E2.
  rewrite E0, E1, E2.
  destruct (nonempty (c_str s)); [|now split]. cbn [negb andb].
  destruct (Nat.even (List.length (c_str s))) eqn:Ev; [|now split].
  cbn [negb andb]. rewrite Nat2N.id, N.ltb_antisym.
  destruct (N.leb_spec (N.of_nat (Nat.div2 (List.length (c_str s)))) max_len);
    [|rewrite andb_false_r; now split].
  cbn [negb]. rewrite andb_true_r.
  apply Nat.even_spec in Ev. destruct Ev as [k Hk].
  assert (Hd : Nat.div2 (List.length (c_str s)) = k).
  { rewrite Hk. apply Nat.div2_double. }
  rewrite Hd.
  pose proof (hex_loop_spec k [] buf [] s eq_refl) as L. cbv zeta in L.
  cbn [List.length app] in L.
  pose proof (c_str_length s).
  destruct L as [L1 L2]; [lia|].
  rewrite <- Hk, c_str_prefix in L1, L2.
  destruct (hex_loop k 0 s buf) as [[|] buf']; cbn [fst snd] in *.
  - rewrite <- L1, (L2 eq_refl). reflexivity.
  - rewrite <- L1. now split.
Qed.

(** C6: [parse_hex_string] succeeds exactly when the string is non-empty,
    of even length, made of hex digits of either case, and decodes to at
    most [max_len] bytes.  On success the bytes stored are the pairs'
    values, high nibble first, one byte per pair, and [*out_len] is their
    number; an odd length fails whatever the characters, and so does a
    maximum of zero. *)
Theorem parse_hex_string_exact (s : cbuf) (buf : list Z) (max_len o : N) :
  let res := parse_hex_string (Some s) (Some buf) max_len (Some o) in
  let bytes := Nat.div2 (List.length (c_str s)) in
  fst (fst res) = hex_accepts max_len (c_str s)
  /\ (hex_accepts max_len (c_str s) = true ->
      res = (true, Some (decode_pairs (c_str s) ++ skipn bytes buf),
             Some (N.of_nat bytes))
      /\ List.length (decode_pairs (c_str s)) = bytes)
  /\ (Nat.odd (List.length (c_str s)) = true -> fst (fst res) = false)
  /\ (max_len = 0%N -> fst (fst res) = false)
  /\ decode_pairs (chars "aAfF") = [170; 255].
Proof.
  cbv zeta. pose proof (parse_hex_string_spec s buf max_len o) as E.
  cbv zeta in E.
  assert (F : fst (fst (parse_hex_string (Some s) (Some buf) max_len (Some o)))
              = hex_accepts max_len (c_str s)).
  { destruct (hex_accepts max_len (c_str s)); [now rewrite E|apply E]. }
  split; [exact F|]. split; [|split; [|split; [|reflexivity]]].
  - intros A. rewrite A in E. split; [exact E|apply decode_pairs_length].
  - intros Hodd. rewrite F. unfold hex_accepts.
    rewrite <- Nat.negb_odd, Hodd. cbn [negb].
    now rewrite andb_false_r.
  - intros ->. rewrite F. unfold hex_accepts.
    destruct (c_str s) as [|hi [|lo r]]; try reflexivity.
    cbn [nonempty List.length Nat.div2].
    destruct (Nat.even (S (S (List.length r)))), (forallb is_hex (hi :: lo :: r));
      reflexivity.
Qed.

Lemma parse_hex_string_exact_witness :
  parse_hex_string (Some (chars "01FF")) (Some [7; 7; 7]) 2 (Some 9%N)
  = (true, Some [1; 255; 7], Some 2%N)
  /\ fst (fst (parse_hex_string (Some (chars "ABC")) (Some [7; 7; 7]) 2 (Some 9%N)))
     = false
  /\ fst (fst (parse_hex_string (Some (chars "FF")) (Some [7; 7; 7]) 0 (Some 9%N)))
     = false.
Proof.
  split; [|split].
  - destruct (parse_hex_string_exact (chars "01FF") [7; 7; 7] 2 9)
      as (_ & Ok & _).
    apply Ok. reflexivity.
  - destruct (parse_hex_string_exact (chars "ABC") [7; 7; 7] 2 9)
      as (_ & _ & Odd & _).
    apply Odd. reflexivity.
  - destruct (parse_hex_string_exact (chars "FF") [7; 7; 7] 0 9)
      as (_ & _ & _ & Zero & _).
    apply Zero. reflexivity.
Defined.

(** C10: [parse_hex_string] is not atomic on failure.  On ["0AZZ"] it
    returns [false] after storing the byte of the first pair; in every
    failing call, however, [*out_len] keeps its value, and it is written
    when the call succeeds. *)
Theorem parse_hex_string_partial_writes :
  parse_hex_string (Some (chars "0AZZ")) (Some [255; 255]) 2 (Some 7%N)
  = (false, Some [10; 255], Some 7%N)
  /\ (forall s out_buf max_len out_len,
        fst (fst (parse_hex_string s out_buf max_len out_len)) = false ->
        snd (parse_hex_string s out_buf max_len out_len) = out_len)
  /\ (forall s out_buf max_len out_len,
        fst (fst (parse_hex_string s out_buf max_len out_len)) = true ->
        exists str, s = Some str
          /\ snd (parse_hex_string s out_buf max_len out_len)
             = Some (N.shiftr (strlen str) 1)).
Proof.
  split; [reflexivity|]. split.
  - intros [s|] [buf|] max_len [o|]; try reflexivity.
    unfold parse_hex_string. cbv zeta.
    repeat match goal with
           | |- context [if ?b then _ else _] => destruct b; cbn [fst snd]
           end; try reflexivity.
    destruct (hex_loop _ _ _ _) as [[|] buf']; cbn [fst snd];
      [discriminate|reflexivity].
  - intros [s|] [buf|] max_len [o|]; cbn [parse_hex_string fst];
      try discriminate.
    unfold parse_hex_string. cbv zeta.
    repeat match goal with
           | |- context [if ?b then _ else _] =>
               destruct b; cbn [fst snd]; try discriminate
           end.
    destruct (hex_loop _ _ _ _) as [[|] buf']; cbn [fst snd];
      [|discriminate].
    intros _. exists s. split; reflexivity.
Qed.

Lemma parse_hex_string_partial_writes_witness :
  snd (parse_hex_string (Some (chars "0G")) (Some [255]) 1 (Some 7%N)) = Some 7%N
  /\ exists str, Some (chars "00") = Some str
       /\ snd (parse_hex_string (Some (chars "00")) (Some [255]) 1 (Some 7%N))
          = Some (N.shiftr (strlen str) 1).
Proof.
  destruct parse_hex_string_partial_writes as (_ & F & T).
  split; [apply F; reflexivity | apply T; reflexivity].
Defined.

End ParserFacts.

(** ** The token scanner *)

Module TokenFacts.
Import ParserUtils CeDispatch Spec BaseFacts ParserFacts.

Lemma IS_WHITESPACE_separator (c : ascii) : IS_WHITESPACE c = is_separator c.
Proof. reflexivity. Qed.

Lemma separator_not_nul (c : ascii) : is_separator c = true -> is_nul c = false.
Proof.
  destruct c as [[] [] [] [] [] [] [] []]; cbv; congruence.
Qed.

Lemma after_tokens_nil (n : nat) : after_tokens n [] = [].
Proof. induction n as [|n IH]; [reflexivity|exact IH]. Qed.

Lemma content_remains_drop (s : cbuf) :
  content_remains s = nonempty (drop_separators s).
Proof.
  induction s as [|c rest IH]; [reflexivity|].
  cbn [content_remains existsb drop_separators].
  destruct (is_separator c); [exact IH|reflexivity].
Qed.

Lemma count_tokens_in_word (s : cbuf) :
  count_tokens true s = count_tokens false (drop_word s).
Proof.
  induction s as [|c rest IH]; [reflexivity|].
  cbn [count_tokens drop_word].
  destruct (is_separator c) eqn:E; [|exact IH].
  cbn [count_tokens]. now rewrite E.
Qed.

Lemma count_tokens_step (s : cbuf) :
  count_tokens false s
  = if content_remains s
    then S (count_tokens false (drop_word (drop_separators s))) else O.
Proof.
  induction s as [|c rest IH]; [reflexivity|].
  cbn [count_tokens content_remains existsb drop_separators].
  destruct (is_separator c) eqn:E; cbn [negb orb]; [exact IH|].
  cbn [drop_word]. rewrite E, count_tokens_in_word. reflexivity.
Qed.

(** Content remains beyond the first [n] tokens exactly when the line has
    more than [n] tokens. *)
Lemma content_beyond_count (n : nat) (s : cbuf) :
  content_remains (after_tokens n s) = (n <? count_tokens false s)%nat.
Proof.
  revert s. induction n as [|n IH]; intros s.
  - cbn [after_tokens]. rewrite (count_tokens_step s).
    now destruct (content_remains s).
  - cbn [after_tokens]. rewrite IH, (count_tokens_step s).
    destruct (content_remains s) eqn:E; [reflexivity|].
    rewrite content_remains_drop in E.
    destruct (drop_separators s); [reflexivity|discriminate].
Qed.

Lemma count_tokens_trailing (s ws : cbuf) (in_word : bool) :
  forallb is_separator ws = true ->
  count_tokens in_word (s ++ ws) = count_tokens in_word s.
Proof.
  intros Hws. revert in_word. induction s as [|c rest IH]; intros in_word.
  - cbn [app]. clear - Hws. induction ws as [|w ws IH]; [reflexivity|].
    cbn [forallb] in Hws. apply andb_true_iff in Hws as [Hw Hws].
    cbn [count_tokens]. rewrite Hw.
    destruct in_word; [|now apply IH].
    specialize (IH Hws). destruct ws as [|w' ws']; [reflexivity|].
    cbn [count_tokens] in *. cbn [forallb] in Hws.
    apply andb_true_iff in Hws as [Hw' _]. now rewrite Hw' in *.
  - cbn [app count_tokens]. now rewrite !IH.
Qed.

Lemma skip_token_c_str (a b : cbuf) :
  c_str (snd (skip_token_loop a b)) = drop_word (c_str a).
Proof.
  revert b. induction a as [|c rest IH]; intros b; [reflexivity|].
  cbn [skip_token_loop c_str]. rewrite IS_WHITESPACE_separator.
  destruct (is_nul c) eqn:N; cbn [negb andb snd c_str]; [now rewrite N|].
  cbn [drop_word].
  destruct (is_separator c); cbn [negb snd c_str]; [now rewrite N|apply IH].
Qed.

Lemma skip_space_c_str (a b : cbuf) :
  c_str (snd (skip_space_loop a b)) = drop_separators (c_str a).
Proof.
  revert b. induction a as [|c rest IH]; intros b; [reflexivity|].
  cbn [skip_space_loop c_str]. rewrite IS_WHITESPACE_separator.
  destruct (is_nul c) eqn:N; cbn [negb andb snd c_str]; [now rewrite N|].
  cbn [drop_separators].
  destruct (is_separator c); cbn [snd c_str]; [apply IH|now rewrite N].
Qed.

Lemma residue_c_str (st : scan_state) :
  c_str (residue st)
  = drop_separators
      (if in_token st && (count st =? MAX_TOKENS)%nat
       then drop_word (c_str (ahead st)) else c_str (ahead st)).
Proof.
  unfold residue.
  destruct (in_token st && (count st =? MAX_TOKENS)%nat).
  - destruct (skip_token_loop (ahead st) (behind st)) as [b1 a1] eqn:E.
    rewrite skip_space_c_str.
    change a1 with (snd (b1, a1)). rewrite <- E, skip_token_c_str. reflexivity.
  - apply skip_space_c_str.
Qed.

Section Scan.

Variable line : char_ptr.

(** The decision of the scanner, in terms of the string scanned. *)
Lemma split_loop_residue (ahead behind : cbuf) :
  forall (count : nat) (in_token : bool) (toks : list (option char_ptr)),
    (count <= MAX_TOKENS)%nat ->
    let st := split_loop line ahead behind count in_token toks in
    (CeDispatch.count st =? MAX_TOKENS)%nat && nonempty (c_str (residue st))
    = content_remains
        (after_tokens (MAX_TOKENS - count)
           (if in_token then drop_word (c_str ahead) else c_str ahead)).
Proof.
  revert behind.
  induction ahead as [|c rest IH]; intros behind count in_token toks Hc; cbv zeta.
  - cbn [split_loop]. rewrite residue_c_str. cbn [CeDispatch.ahead c_str drop_word].
    rewrite !Tauto.if_same. cbn [drop_separators nonempty].
    rewrite after_tokens_nil, andb_false_r. reflexivity.
  - cbn [split_loop c_str]. rewrite IS_WHITESPACE_separator.
    destruct (is_nul c) eqn:N; cbn [negb andb].
    + rewrite residue_c_str. cbn [CeDispatch.ahead c_str]. rewrite N.
      cbn [drop_word]. rewrite !Tauto.if_same. cbn [drop_separators nonempty].
      rewrite after_tokens_nil, andb_false_r. reflexivity.
    + destruct (Nat.ltb_spec count MAX_TOKENS) as [Hlt|Hge].
      * destruct (MAX_TOKENS - count)%nat as [|k] eqn:K; [lia|].
        destruct (is_separator c) eqn:Sep.
        -- rewrite IH by lia. rewrite K. cbn [drop_word]. rewrite Sep.
           rewrite Tauto.if_same. cbn [after_tokens drop_separators]. rewrite Sep.
           reflexivity.
        -- destruct in_token; cbn [negb].
           ++ rewrite IH by lia. rewrite K. cbn [drop_word]. now rewrite Sep.
           ++ rewrite IH by lia.
              replace (MAX_TOKENS - S count)%nat with k by lia.
              cbn [after_tokens drop_separators]. rewrite Sep.
              cbn [drop_word]. now rewrite Sep.
      * assert (E : count = MAX_TOKENS) by lia. subst count.
        rewrite residue_c_str.
        cbn [CeDispatch.ahead CeDispatch.count CeDispatch.in_token c_str].
        rewrite N, Nat.eqb_refl, Nat.sub_diag, andb_true_r. cbn [after_tokens andb].
        now rewrite content_remains_drop.
Qed.

Lemma split_loop_count (ahead behind : cbuf) :
  forall (count : nat) (in_token : bool) (toks : list (option char_ptr)),
    (count <= MAX_TOKENS)%nat ->
    CeDispatch.count (split_loop line ahead behind count in_token toks)
    = Nat.min MAX_TOKENS (count + count_tokens in_token (c_str ahead)).
Proof.
  revert behind.
  induction ahead as [|c rest IH]; intros behind count in_token toks Hc.
  - cbn [split_loop CeDispatch.count c_str count_tokens]. lia.
  - cbn [split_loop c_str]. rewrite IS_WHITESPACE_separator.
    destruct (is_nul c) eqn:N; cbn [negb andb];
      [cbn [CeDispatch.count count_tokens]; lia|].
    destruct (Nat.ltb_spec count MAX_TOKENS) as [Hlt|Hge].
    + cbn [count_tokens]. destruct (is_separator c) eqn:Sep.
      * now rewrite IH by lia.
      * destruct in_token; cbn [negb]; rewrite IH by lia; f_equal; lia.
    + cbn [CeDispatch.count]. lia.
Qed.

End Scan.

(** What [parse_line_to_tokens] answers, in terms of the residue. *)
Lemma parse_line_to_tokens_unfold (m : memory) (p : char_ptr)
      (toks : list (option char_ptr)) (cnt : nat) :
  let st := split_loop p (load m p) [] 0 false toks in
  let rejected :=
    (count st =? MAX_TOKENS)%nat && nonempty (c_str (residue st)) in
  fst (fst (fst (fst (parse_line_to_tokens m (Some p) (Some toks) (Some cnt)))))
  = negb rejected
  /\ snd (fst (parse_line_to_tokens m (Some p) (Some toks) (Some cnt)))
     = (if rejected then Some cnt else Some (count st))
  /\ snd (parse_line_to_tokens m (Some p) (Some toks) (Some cnt))
     = (if rejected then [Err E_too_many_tokens] else [])
  /\ snd (fst (fst (parse_line_to_tokens m (Some p) (Some toks) (Some cnt))))
     = Some (tokens st).
Proof.
  cbv zeta. unfold parse_line_to_tokens, residue.
  set (st := split_loop p (load m p) [] 0 false toks).
  destruct (if in_token st && (count st =? MAX_TOKENS)%nat
            then skip_token_loop (ahead st) (behind st)
            else (behind st, ahead st)) as [b1 a1].
  destruct (skip_space_loop a1 b1) as [b2 a2]. cbn [snd].
  rewrite is_nul_deref, negb_involutive.
  destruct ((count st =? MAX_TOKENS)%nat && nonempty (c_str a2));
    cbn [fst snd negb]; repeat split; reflexivity.
Qed.

(** The scanner's answer, in terms of the line scanned. *)
Lemma parse_line_to_tokens_spec
      (m : memory) (p : char_ptr) (toks : list (option char_ptr)) (cnt : nat) :
  let s := c_str (load m p) in
  let res := parse_line_to_tokens m (Some p) (Some toks) (Some cnt) in
  let ok := fst (fst (fst (fst res))) in
  ok = negb (content_remains (after_tokens MAX_TOKENS s))
  /\ content_remains (after_tokens MAX_TOKENS s)
     = (MAX_TOKENS <? count_tokens false s)%nat
  /\ (ok = false -> snd res = [Err E_too_many_tokens] /\ snd (fst res) = Some cnt)
  /\ (ok = true -> snd res = [] /\ snd (fst res) = Some (count_tokens false s)).
Proof.
  cbv zeta.
  destruct (parse_line_to_tokens_unfold m p toks cnt) as (Eok & Ecnt & Eev & _).
  cbv zeta in Eok, Ecnt, Eev.
  pose proof (split_loop_residue p (load m p) [] 0 false toks ltac:(lia)) as R.
  pose proof (split_loop_count p (load m p) [] 0 false toks ltac:(lia)) as C.
  cbv zeta in R. rewrite Nat.sub_0_r in R. cbn [Nat.add] in C.
  rewrite R in Eok, Ecnt, Eev. rewrite Eok, Ecnt, Eev.
  pose proof (content_beyond_count MAX_TOKENS (c_str (load m p))) as B.
  split; [reflexivity|]. split; [exact B|].
  destruct (content_remains (after_tokens MAX_TOKENS (c_str (load m p)))) eqn:T;
    symmetry in B; cbn [negb].
  - split; [tauto|discriminate].
  - apply Nat.ltb_ge in B. split; [discriminate|].
    intros _. split; [reflexivity|]. rewrite C. f_equal. lia.
Qed.

(** C7: the scanner fails, with the too-many-tokens diagnostic, exactly
    when content other than separators remains beyond the first
    [MAX_TOKENS] tokens of the line, that is when the line has more than
    [MAX_TOKENS] tokens.  Trailing separators add no token, so a line of
    exactly [MAX_TOKENS] tokens followed by separators is accepted, also
    when its last token is longer than one character; on success the
    count stored is the number of tokens, on failure the count is left as
    it was. *)
Theorem parse_line_to_tokens_too_many
        (m : memory) (p : char_ptr) (toks : list (option char_ptr)) (cnt : nat) :
  let s := c_str (load m p) in
  let res := parse_line_to_tokens m (Some p) (Some toks) (Some cnt) in
  let ok := fst (fst (fst (fst res))) in
  (ok = false <-> content_remains (after_tokens MAX_TOKENS s) = true)
  /\ (ok = false <-> (MAX_TOKENS < count_tokens false s)%nat)
  /\ (ok = false -> snd res = [Err E_too_many_tokens] /\ snd (fst res) = Some cnt)
  /\ (ok = true -> snd res = [] /\ snd (fst res) = Some (count_tokens false s))
  /\ (forall ws, forallb is_separator ws = true ->
        count_tokens false (s ++ ws) = count_tokens false s)
  /\ scanner_accepts "a b c d e f g h" = true
  /\ scanner_accepts "a b c d e f g hij  " = true
  /\ scanner_accepts "a b c d e f g hij k" = false
  /\ scanner_accepts "a b c d e f g h  i" = false.
Proof.
  cbv zeta.
  destruct (parse_line_to_tokens_spec m p toks cnt) as (Eok & B & F & T).
  cbv zeta in Eok, B, F, T.
  split; [rewrite Eok; now destruct (content_remains _)|].
  split; [rewrite Eok, B, <- Nat.ltb_lt; now destruct (_ <? _)%nat|].
  split; [exact F|]. split; [exact T|].
  split; [intros ws Hws; now apply count_tokens_trailing|].
  repeat split; reflexivity.
Qed.

Lemma parse_line_to_tokens_too_many_witness :
  let m := {| caller_mem := chars "1 2 3 4 5 6 7 8 9"; line_buf := [] |} in
  let p := {| blk := CallerMem; off := 0 |} in
  snd (parse_line_to_tokens m (Some p) (Some (repeat None MAX_TOKENS)) (Some O))
  = [Err E_too_many_tokens]
  /\ fst (fst (fst (fst
       (parse_line_to_tokens m (Some p) (Some (repeat None MAX_TOKENS)) (Some O)))))
     = false.
Proof.
  cbv zeta.
  destruct (parse_line_to_tokens_too_many
              {| caller_mem := chars "1 2 3 4 5 6 7 8 9"; line_buf := [] |}
              {| blk := CallerMem; off := 0 |} (repeat None MAX_TOKENS) O)
    as ((_ & Fail) & _ & Diag & _).
  assert (F : fst (fst (fst (fst
       (parse_line_to_tokens
          {| caller_mem := chars "1 2 3 4 5 6 7 8 9"; line_buf := [] |}
          (Some {| blk := CallerMem; off := 0 |})
          (Some (repeat None MAX_TOKENS)) (Some O))))) = false).
  { apply Fail. reflexivity. }
  split; [apply Diag; exact F | exact F].
Defined.

(** *** The first token, read back from the scanned line *)

Lemma upd_nth_other {A : Type} (i n : nat) (v d : A) (a : list A) :
  n <> i -> nth n (upd i v a) d = nth n a d.
Proof.
  revert i n. induction a as [|x a IH]; intros i n Hne; [now destruct i|].
  destruct i, n; cbn [upd nth]; try reflexivity; try lia. apply IH. lia.
Qed.

Lemma upd_nth_same {A : Type} (i : nat) (v d : A) (a : list A) :
  (i < List.length a)%nat -> nth i (upd i v a) d = v.
Proof.
  revert i. induction a as [|x a IH]; intros i Hi; cbn [List.length] in Hi; [lia|].
  destruct i; cbn [upd nth]; [reflexivity|]. apply IH. lia.
Qed.

Lemma c_str_app (w t : cbuf) :
  Forall (fun c => is_nul c = false) w -> c_str (w ++ t) = w ++ c_str t.
Proof.
  induction 1 as [|c w Hc _ IH]; [reflexivity|].
  cbn [app c_str]. now rewrite Hc, IH.
Qed.



Lemma take_word_no_nul (s : cbuf) :
  Forall (fun c => is_nul c = false) s ->
  Forall (fun c => is_nul c = false) (take_word s).
Proof.
  induction 1 as [|c s Hc Hs IH]; cbn [take_word]; [constructor|].
  destruct (is_separator c); now constructor.
Qed.


(** The two skipping loops only move [ptr] forward, and stay put on a NUL. *)
Lemma skip_token_grows (a b : cbuf) :
  exists y, fst (skip_token_loop a b) = y ++ b.
Proof.
  revert b. induction a as [|c a IH]; intros b; [now exists []|].
  cbn [skip_token_loop].
  destruct (negb (is_nul c) && negb (IS_WHITESPACE c)); [|now exists []].
  destruct (IH (c :: b)) as [y Hy]. exists (y ++ [c]).
  now rewrite Hy, <- app_assoc.
Qed.

Lemma skip_space_grows (a b : cbuf) :
  exists y, fst (skip_space_loop a b) = y ++ b.
Proof.
  revert b. induction a as [|c a IH]; intros b; [now exists []|].
  cbn [skip_space_loop].
  destruct (negb (is_nul c) && IS_WHITESPACE c); [|now exists []].
  destruct (IH (zero_char :: b)) as [y Hy]. exists (y ++ [zero_char]).
  now rewrite Hy, <- app_assoc.
Qed.

Lemma skip_loops_at_nul (a b : cbuf) :
  c_str a = [] ->
  skip_token_loop a b = (b, a) /\ skip_space_loop a b = (b, a).
Proof.
  destruct a as [|c a]; [now split|]. cbn [c_str skip_token_loop skip_space_loop].
  destruct (is_nul c); [now split|discriminate].
Qed.

Lemma final_line_frame (st : scan_state) :
  exists x, final_line st = rev (behind st) ++ x
            /\ (c_str (ahead st) = [] -> c_str x = []).
Proof.
  unfold final_line.
  destruct (c_str (ahead st)) as [|c0 cs] eqn:E.
  - destruct (skip_loops_at_nul (ahead st) (behind st) E) as [T S].
    rewrite T, Tauto.if_same, S. exists (ahead st). now split.
  - destruct (if in_token st && (count st =? MAX_TOKENS)%nat
              then skip_token_loop (ahead st) (behind st)
              else (behind st, ahead st)) as [b1 a1] eqn:P1.
    assert (G1 : exists y, b1 = y ++ behind st).
    { destruct (in_token st && (count st =? MAX_TOKENS)%nat).
      - destruct (skip_token_grows (ahead st) (behind st)) as [y Hy].
        rewrite P1 in Hy. now exists y.
      - injection P1 as <- _. now exists []. }
    destruct G1 as [y1 ->].
    destruct (skip_space_loop a1 (y1 ++ behind st)) as [b2 a2] eqn:P2.
    destruct (skip_space_grows a1 (y1 ++ behind st)) as [y2 Hy2].
    rewrite P2 in Hy2. cbn [fst] in Hy2. subst b2.
    exists (rev y1 ++ rev y2 ++ a2). split; [|discriminate].
    rewrite !rev_app_distr, <- !app_assoc. reflexivity.
Qed.

Section FirstToken.

Variable line : char_ptr.

Lemma split_loop_grows (ahead behind : cbuf) :
  forall count in_token toks,
    exists y,
      rev (CeDispatch.behind (split_loop line ahead behind count in_token toks))
      = rev behind ++ y.
Proof.
  revert behind. induction ahead as [|c ahead IH]; intros behind count in_token toks.
  - exists []. cbn [split_loop CeDispatch.behind]. now rewrite app_nil_r.
  - cbn [split_loop].
    destruct (negb (is_nul c) && (count <? MAX_TOKENS)%nat);
      [|exists []; cbn [CeDispatch.behind]; now rewrite app_nil_r].
    destruct (IS_WHITESPACE c); [|destruct (negb in_token)].
    + destruct (IH (zero_char :: behind) count false toks) as [y Hy].
      exists (zero_char :: y). rewrite Hy. cbn [rev]. now rewrite <- app_assoc.
    + destruct (IH (c :: behind) (S count) true
                   (upd count (Some (ptr_add line (List.length behind))) toks))
        as [y Hy].
      exists (c :: y). rewrite Hy. cbn [rev]. now rewrite <- app_assoc.
    + destruct (IH (c :: behind) count in_token toks) as [y Hy].
      exists (c :: y). rewrite Hy. cbn [rev]. now rewrite <- app_assoc.
Qed.



Hypothesis room_for_two : (1 < MAX_TOKENS)%nat.


End FirstToken.


End TokenFacts.

(** ** More on the parsers *)

Module ParserMore.
Import ParserUtils Spec SpecMore BaseFacts ParserFacts.

(** *** Booleans *)

Lemma tolower_same_letter (c l : ascii) :
  (code (ascii_tolower c) =? code l) = same_letter c l.
Proof.
  destruct c as [[] [] [] [] [] [] [] []]; reflexivity.
Qed.

Lemma same_letter_not_nul (c l : ascii) :
  is_nul l = false -> same_letter c l = true -> is_nul c = false.
Proof.
  unfold same_letter, is_nul. intros Hl. pose proof (code_range c).
  destruct ((65 <=? code c) && (code c <=? 90)) eqn:U.
  - intros _. apply Z.eqb_neq. apply andb_true_iff in U as [U _].
    apply Z.leb_le in U. lia.
  - intros E. apply Z.eqb_eq in E. now rewrite E.
Qed.

(** The comparison loop and the test that follows it, started at index
    [length tpre] of both the literal and the token. *)
Lemma literal_loop_spec (lrest : cbuf) :
  forall (lpre tpre trest : cbuf),
    Forall (fun l => is_nul l = false) lrest ->
    List.length lpre = List.length tpre ->
    let i := literal_loop lrest (tpre ++ trest) (List.length tpre) in
    is_nul (char_at (lpre ++ lrest) i) && is_nul (char_at (tpre ++ trest) i)
    = matches_literal (c_str trest) lrest.
Proof.
  induction lrest as [|l lrest IH]; intros lpre tpre trest Hl Hlen; cbv zeta.
  - cbn [literal_loop]. unfold char_at.
    rewrite app_nil_r, (nth_overflow lpre) by lia.
    rewrite app_nth2, Nat.sub_diag by lia.
    change (is_nul zero_char) with true. cbn [andb].
    destruct trest as [|c trest]; [reflexivity|]. cbn [nth c_str].
    now destruct (is_nul c).
  - inversion Hl as [|? ? Hl1 Hl2]; subst. cbn [literal_loop].
    assert (Et : char_at (tpre ++ trest) (List.length tpre) = hd zero_char trest).
    { unfold char_at. rewrite app_nth2, Nat.sub_diag by lia. now destruct trest. }
    rewrite Et, tolower_same_letter.
    assert (Stop : is_nul (char_at (lpre ++ l :: lrest) (List.length tpre)) = false).
    { unfold char_at. rewrite <- Hlen, app_nth2, Nat.sub_diag by lia. exact Hl1. }
    destruct trest as [|c trest]; cbn [hd c_str].
    + assert (E0 : same_letter zero_char l = false).
      { destruct (same_letter zero_char l) eqn:E; [|reflexivity].
        now apply same_letter_not_nul in E. }
      rewrite E0, Stop. reflexivity.
    + destruct (same_letter c l) eqn:E.
      * rewrite (same_letter_not_nul c l Hl1 E). cbn [matches_literal]. rewrite E.
        cbn [andb].
        specialize (IH (lpre ++ [l]) (tpre ++ [c]) trest Hl2).
        rewrite !length_app in IH. cbn [List.length] in IH.
        rewrite <- !app_assoc in IH. cbn [app] in IH.
        rewrite !Nat.add_1_r in IH. apply IH. lia.
      * rewrite Stop. cbn [andb].
        destruct (is_nul c); [reflexivity|]. cbn [matches_literal]. now rewrite E.
Qed.

Lemma literal_test (lit token : cbuf) :
  Forall (fun l => is_nul l = false) lit ->
  let i := literal_loop lit token 0 in
  is_nul (char_at lit i) && is_nul (char_at token i)
  = matches_literal (c_str token) lit.
Proof.
  intros Hl. exact (literal_loop_spec lit [] [] token Hl eq_refl).
Qed.

Lemma parse_boolean_token_is (token : cbuf) (o : bool) :
  parse_boolean_token (Some token) (Some o)
  = match boolean_value (c_str token) with
    | Some b => (true, Some b)
    | None => (false, Some o)
    end.
Proof.
  unfold parse_boolean_token, boolean_value. cbv zeta.
  rewrite !literal_test by (repeat constructor).
  destruct (matches_literal (c_str token) (chars "true")); [reflexivity|].
  destruct (matches_literal (c_str token) (chars "false")); [reflexivity|].
  unfold strcmp_eq, is_exactly.
  change (c_str (chars "1")) with (chars "1").
  change (c_str (chars "0")) with (chars "0").
  destruct (list_eq_dec ascii_dec (c_str token) (chars "1")); [reflexivity|].
  destruct (list_eq_dec ascii_dec (c_str token) (chars "0")); reflexivity.
Qed.

(** X1: [parse_boolean_token] succeeds exactly on the tokens that are
    ["true"] or ["false"] up to the case of their letters, or exactly ["1"]
    or ["0"], and stores the boolean they denote; on any other token
    (a prefix such as ["tru"], a longer one such as ["truex"], ["01"]) it
    fails and leaves the destination as it was.  With a null token or a
    null destination it fails and stores nothing. *)
Theorem parse_boolean_token_exact (token : option cbuf) (out_b : option bool) :
  parse_boolean_token token out_b
  = match token, out_b with
    | Some t, Some o =>
        match boolean_value (c_str t) with
        | Some b => (true, Some b)
        | None => (false, Some o)
        end
    | _, _ => (false, out_b)
    end.
Proof.
  destruct token as [t|], out_b as [o|]; try reflexivity.
  apply parse_boolean_token_is.
Qed.

(** *** The integer parsers, one by one *)

Lemma parse_u8_is (s : cbuf) (o : Z) :
  parse_u8 (Some s) (Some o)
  = if unsigned_accepts UINT8_MAX (c_str s)
    then (true, Some (decimal_value (c_str s))) else (false, Some o).
Proof. apply parse_unsigned_spec; cbv; try split; congruence. Qed.

Lemma parse_u16_is (s : cbuf) (o : Z) :
  parse_u16 (Some s) (Some o)
  = if unsigned_accepts UINT16_MAX (c_str s)
    then (true, Some (decimal_value (c_str s))) else (false, Some o).
Proof. apply parse_unsigned_spec; cbv; try split; congruence. Qed.

Lemma parse_u32_is (s : cbuf) (o : Z) :
  parse_u32 (Some s) (Some o)
  = if unsigned_accepts UINT32_MAX (c_str s)
    then (true, Some (decimal_value (c_str s))) else (false, Some o).
Proof. apply parse_unsigned_spec; cbv; try split; congruence. Qed.

Lemma parse_u64_is (s : cbuf) (o : Z) :
  parse_u64 (Some s) (Some o)
  = if unsigned_accepts UINT64_MAX (c_str s)
    then (true, Some (decimal_value (c_str s))) else (false, Some o).
Proof. apply parse_unsigned_spec; cbv; try split; congruence. Qed.

Lemma parse_i8_is (s : cbuf) (o : Z) :
  parse_i8 (Some s) (Some o)
  = if signed_accepts INT8_MIN INT8_MAX (c_str s)
    then (true, Some (signed_value (c_str s))) else (false, Some o).
Proof. apply parse_narrow_spec; cbv; congruence. Qed.

Lemma parse_i16_is (s : cbuf) (o : Z) :
  parse_i16 (Some s) (Some o)
  = if signed_accepts INT16_MIN INT16_MAX (c_str s)
    then (true, Some (signed_value (c_str s))) else (false, Some o).
Proof. apply parse_narrow_spec; cbv; congruence. Qed.

Lemma parse_i32_is (s : cbuf) (o : Z) :
  parse_i32 (Some s) (Some o)
  = if signed_accepts INT32_MIN INT32_MAX (c_str s)
    then (true, Some (signed_value (c_str s))) else (false, Some o).
Proof. apply (parse_signed_spec 32). lia. Qed.

Lemma parse_i64_is (s : cbuf) (o : Z) :
  parse_i64 (Some s) (Some o)
  = if signed_accepts INT64_MIN INT64_MAX (c_str s)
    then (true, Some (signed_value (c_str s))) else (false, Some o).
Proof. apply (parse_signed_spec 64). lia. Qed.

(** *** Wider types accept what narrower ones do *)

Lemma unsigned_accepts_wider (tmax tmax' : Z) (s : cbuf) :
  tmax <= tmax' -> unsigned_accepts tmax s = true ->
  unsigned_accepts tmax' s = true.
Proof.
  unfold unsigned_accepts. intros Hle H.
  apply andb_true_iff in H as [H1 H2]. rewrite H1. cbn [andb].
  apply Z.leb_le in H2. apply Z.leb_le. lia.
Qed.

Lemma signed_accepts_wider (tmin tmax tmin' tmax' : Z) (s : cbuf) :
  tmin' <= tmin -> tmax <= tmax' -> signed_accepts tmin tmax s = true ->
  signed_accepts tmin' tmax' s = true.
Proof.
  unfold signed_accepts. intros Hlo Hhi.
  destruct (split_sign s) as [negative digits].
  destruct (nonempty digits && forallb is_digit digits); [|discriminate].
  cbn [andb]. intros H. apply andb_true_iff in H as [H1 H2].
  apply Z.leb_le in H1, H2. apply andb_true_iff. split; apply Z.leb_le; lia.
Qed.

(** A numeral without sign reads the same as a signed one. *)
Lemma unsigned_accepts_signed (tmax tmin' tmax' : Z) (s : cbuf) :
  tmin' <= 0 -> tmax <= tmax' -> unsigned_accepts tmax s = true ->
  signed_accepts tmin' tmax' s = true /\ signed_value s = decimal_value s.
Proof.
  unfold unsigned_accepts, signed_accepts, signed_value. intros Hlo Hhi H.
  apply andb_true_iff in H as [H1 H2]. apply andb_true_iff in H1 as [Hne Hd].
  apply Z.leb_le in H2.
  assert (S : split_sign s = (false, s)).
  { destruct s as [|c s]; [discriminate|]. cbn [forallb] in Hd.
    apply andb_true_iff in Hd as [Hc _]. unfold is_digit in Hc.
    apply andb_true_iff in Hc as [Hc1 Hc2]. apply Z.leb_le in Hc1, Hc2.
    cbn [split_sign].
    destruct (Z.eqb_spec (code c) 45); [lia|].
    destruct (Z.eqb_spec (code c) 43); [lia|]. reflexivity. }
  rewrite S, Hne, Hd. cbn [andb]. split; [|reflexivity].
  pose proof (decimal_value_nonneg s Hd).
  apply andb_true_iff. split; apply Z.leb_le; lia.
Qed.

(** Reading the outcome of an exact parser. *)
Lemma accepted_inv {A : Type} (b : bool) (v w : A) (o : A) :
  (if b then (true, Some v) else (false, Some o)) = (true, Some w) ->
  b = true /\ v = w.
Proof. destruct b; [intros [= ->]; now split|discriminate]. Qed.

(** X2: a token accepted by the parser of an integer type is accepted, with
    the same value, by the parser of every wider type of the same
    signedness, and an unsigned token by the parser of the next wider
    signed type. *)
Theorem wider_parsers_agree (s : cbuf) (o o' v : Z) :
  (parse_u8 (Some s) (Some o) = (true, Some v) ->
   parse_u16 (Some s) (Some o') = (true, Some v)
   /\ parse_i16 (Some s) (Some o') = (true, Some v))
  /\ (parse_u16 (Some s) (Some o) = (true, Some v) ->
      parse_u32 (Some s) (Some o') = (true, Some v)
      /\ parse_i32 (Some s) (Some o') = (true, Some v))
  /\ (parse_u32 (Some s) (Some o) = (true, Some v) ->
      parse_u64 (Some s) (Some o') = (true, Some v)
      /\ parse_i64 (Some s) (Some o') = (true, Some v))
  /\ (parse_i8 (Some s) (Some o) = (true, Some v) ->
      parse_i16 (Some s) (Some o') = (true, Some v))
  /\ (parse_i16 (Some s) (Some o) = (true, Some v) ->
      parse_i32 (Some s) (Some o') = (true, Some v))
  /\ (parse_i32 (Some s) (Some o) = (true, Some v) ->
      parse_i64 (Some s) (Some o') = (true, Some v)).
Proof.
  rewrite !parse_u8_is, !parse_u16_is, !parse_u32_is, !parse_u64_is,
    !parse_i8_is, !parse_i16_is, !parse_i32_is, !parse_i64_is.
  repeat match goal with |- _ /\ _ => split end;
    intros H; apply accepted_inv in H as [A <-].
  - rewrite (unsigned_accepts_wider UINT8_MAX UINT16_MAX _ ltac:(cbv; congruence) A).
    destruct (unsigned_accepts_signed UINT8_MAX INT16_MIN INT16_MAX _
                ltac:(cbv; congruence) ltac:(cbv; congruence) A) as [-> ->].
    now split.
  - rewrite (unsigned_accepts_wider UINT16_MAX UINT32_MAX _ ltac:(cbv; congruence) A).
    destruct (unsigned_accepts_signed UINT16_MAX INT32_MIN INT32_MAX _
                ltac:(cbv; congruence) ltac:(cbv; congruence) A) as [-> ->].
    now split.
  - rewrite (unsigned_accepts_wider UINT32_MAX UINT64_MAX _ ltac:(cbv; congruence) A).
    destruct (unsigned_accepts_signed UINT32_MAX INT64_MIN INT64_MAX _
                ltac:(cbv; congruence) ltac:(cbv; congruence) A) as [-> ->].
    now split.
  - now rewrite (signed_accepts_wider INT8_MIN INT8_MAX INT16_MIN INT16_MAX _
                   ltac:(cbv; congruence) ltac:(cbv; congruence) A).
  - now rewrite (signed_accepts_wider INT16_MIN INT16_MAX INT32_MIN INT32_MAX _
                   ltac:(cbv; congruence) ltac:(cbv; congruence) A).
  - now rewrite (signed_accepts_wider INT32_MIN INT32_MAX INT64_MIN INT64_MAX _
                   ltac:(cbv; congruence) ltac:(cbv; congruence) A).
Qed.

Lemma wider_parsers_agree_witness :
  parse_u16 (Some (chars "200")) (Some 7) = (true, Some 200)
  /\ parse_i16 (Some (chars "200")) (Some 7) = (true, Some 200)
  /\ parse_i64 (Some (chars "-2147483648")) (Some 7) = (true, Some (-2147483648)).
Proof.
  pose proof (wider_parsers_agree (chars "200") 0 7 200) as (U8 & _).
  pose proof (wider_parsers_agree (chars "-2147483648") 0 7 (-2147483648))
    as (_ & _ & _ & _ & _ & I32).
  destruct (U8 eq_refl) as [A B].
  split; [exact A|]. split; [exact B|]. apply I32. reflexivity.
Defined.

(** X3: leading zeros do not count: in front of a non-empty token, a ['0']
    changes neither the verdict nor the value of an unsigned parser. *)
Theorem leading_zero_ignored (s : cbuf) (o : Z) :
  c_str s <> [] ->
  parse_u8 (Some ("0"%char :: s)) (Some o) = parse_u8 (Some s) (Some o)
  /\ parse_u16 (Some ("0"%char :: s)) (Some o) = parse_u16 (Some s) (Some o)
  /\ parse_u32 (Some ("0"%char :: s)) (Some o) = parse_u32 (Some s) (Some o)
  /\ parse_u64 (Some ("0"%char :: s)) (Some o) = parse_u64 (Some s) (Some o).
Proof.
  intros Hne.
  rewrite !parse_u8_is, !parse_u16_is, !parse_u32_is, !parse_u64_is.
  assert (E : c_str ("0"%char :: s) = "0"%char :: c_str s) by reflexivity.
  rewrite E.
  assert (A : forall tmax, unsigned_accepts tmax ("0"%char :: c_str s)
                           = unsigned_accepts tmax (c_str s)).
  { intros tmax. unfold unsigned_accepts, decimal_value.
    destruct (c_str s) as [|c cs]; [congruence|]. reflexivity. }
  assert (V : decimal_value ("0"%char :: c_str s) = decimal_value (c_str s))
    by reflexivity.
  rewrite !A, V. repeat split.
Qed.

Lemma leading_zero_ignored_witness :
  parse_u8 (Some (chars "0255")) (Some 7) = parse_u8 (Some (chars "255")) (Some 7).
Proof.
  apply (leading_zero_ignored (chars "255") 7). discriminate.
Defined.

(** *** Reading back what was written *)

Lemma code_ascii_of (x : Z) :
  0 <= x < 256 -> code (ascii_of_N (Z.to_N x)) = x.
Proof.
  intros Hx. unfold code. rewrite N_ascii_embedding by lia. lia.
Qed.

Lemma digit_char_spec (d : Z) :
  0 <= d <= 9 -> is_digit (digit_char d) = true /\ digit_val (digit_char d) = d.
Proof.
  intros Hd. unfold is_digit, digit_val, digit_char.
  rewrite code_ascii_of by lia. split; [|lia].
  apply andb_true_iff. split; apply Z.leb_le; lia.
Qed.

Lemma digits_no_nul (s : cbuf) : forallb is_digit s = true -> c_str s = s.
Proof.
  intros H. apply c_str_fixed. rewrite forallb_forall in H.
  apply Forall_forall. intros c Hc. specialize (H c Hc).
  unfold is_digit in H. apply andb_true_iff in H as [H _].
  apply Z.leb_le in H. unfold is_nul. apply Z.eqb_neq. lia.
Qed.

Lemma render_onto_value (fuel : nat) :
  forall (v : Z) (acc : cbuf),
    0 <= v < 2 ^ Z.of_nat fuel ->
    decimal_from 0 (render_onto fuel v acc) = decimal_from v acc.
Proof.
  induction fuel as [|fuel IH]; intros v acc Hv.
  - cbn [render_onto]. change (2 ^ Z.of_nat 0) with 1 in Hv.
    now replace v with 0 by lia.
  - cbn [render_onto].
    pose proof (Z.div_mod v 10 ltac:(lia)) as Hdm.
    pose proof (Z.mod_pos_bound v 10 ltac:(lia)) as Hm.
    destruct (digit_char_spec (v mod 10) ltac:(lia)) as [_ Hd].
    destruct (Z.ltb_spec v 10) as [Hsmall|Hbig].
    + rewrite decimal_from_cons, Hd. cbn [Z.mul]. f_equal.
      rewrite Z.mod_small by lia. lia.
    + rewrite IH.
      * rewrite decimal_from_cons, Hd. f_equal. lia.
      * rewrite Nat2Z.inj_succ, Z.pow_succ_r in Hv by lia.
        split; [apply Z.div_pos; lia|].
        apply Z.div_lt_upper_bound; lia.
Qed.

Lemma render_onto_digits (fuel : nat) :
  forall (v : Z) (acc : cbuf),
    0 <= v -> forallb is_digit acc = true ->
    forallb is_digit (render_onto fuel v acc) = true.
Proof.
  induction fuel as [|fuel IH]; intros v acc Hv Hacc; [exact Hacc|].
  cbn [render_onto].
  pose proof (Z.mod_pos_bound v 10 ltac:(lia)) as Hm.
  destruct (digit_char_spec (v mod 10) ltac:(lia)) as [Hd _].
  assert (A : forallb is_digit (digit_char (v mod 10) :: acc) = true)
    by (cbn [forallb]; now rewrite Hd).
  destruct (v <? 10); [exact A|]. apply IH; [apply Z.div_pos; lia|exact A].
Qed.

Lemma render_onto_nonempty (fuel : nat) :
  forall (v : Z) (acc : cbuf),
    nonempty acc = true -> nonempty (render_onto fuel v acc) = true.
Proof.
  induction fuel as [|fuel IH]; intros v acc Hacc; [exact Hacc|].
  cbn [render_onto]. destruct (v <? 10); [reflexivity|]. now apply IH.
Qed.

Lemma render_unsigned_spec (v : Z) :
  0 <= v ->
  nonempty (render_unsigned v) = true
  /\ forallb is_digit (render_unsigned v) = true
  /\ decimal_value (render_unsigned v) = v.
Proof.
  intros Hv. unfold render_unsigned, decimal_value. split; [|split].
  - cbn [render_onto]. destruct (v <? 10); [reflexivity|].
    now apply render_onto_nonempty.
  - now apply render_onto_digits.
  - rewrite render_onto_value; [reflexivity|].
    rewrite Nat2Z.inj_succ, Z2Nat.id by apply Z.log2_nonneg.
    destruct (Z.eq_dec v 0) as [->|Hne]; [cbv; split; congruence|].
    pose proof (Z.log2_spec v ltac:(lia)). lia.
Qed.

Lemma render_unsigned_accepted (tmax v : Z) :
  0 <= v <= tmax ->
  c_str (render_unsigned v) = render_unsigned v
  /\ unsigned_accepts tmax (render_unsigned v) = true
  /\ decimal_value (render_unsigned v) = v.
Proof.
  intros Hv. destruct (render_unsigned_spec v ltac:(lia)) as (Hn & Hd & Hval).
  split; [now apply digits_no_nul|]. split; [|exact Hval].
  unfold unsigned_accepts. rewrite Hn, Hd, Hval. apply Z.leb_le. lia.
Qed.

Lemma render_accepted (tmin tmax v : Z) :
  tmin <= 0 -> tmin <= v <= tmax ->
  c_str (render v) = render v
  /\ signed_accepts tmin tmax (render v) = true
  /\ signed_value (render v) = v.
Proof.
  intros Hmin Hv. unfold render. destruct (Z.ltb_spec v 0) as [Hneg|Hpos].
  - destruct (render_unsigned_spec (- v) ltac:(lia)) as (Hn & Hd & Hval).
    split; [|split].
    + change (c_str ("-"%char :: render_unsigned (- v)))
        with ("-"%char :: c_str (render_unsigned (- v))).
      now rewrite digits_no_nul.
    + unfold signed_accepts, signed_value. cbn [split_sign].
      change (code "-" =? 45) with true. cbv iota.
      rewrite Hn, Hd, Hval. cbn [andb].
      apply andb_true_iff. split; apply Z.leb_le; lia.
    + unfold signed_value. cbn [split_sign].
      change (code "-" =? 45) with true. cbv iota. rewrite Hval. lia.
  - destruct (render_unsigned_accepted tmax v ltac:(lia)) as (Hc & Ha & Hval).
    destruct (unsigned_accepts_signed tmax tmin tmax (render_unsigned v)
                Hmin ltac:(lia) Ha) as [Hs Hv'].
    split; [exact Hc|]. split; [exact Hs|]. now rewrite Hv'.
Qed.

(** X4: writing a number in decimal and parsing it gives the number back,
    for every value of the parser's type: the canonical numeral of [v] is
    accepted by [parse_u8] .. [parse_u64] when [0 <= v <= T_MAX] and by
    [parse_i8] .. [parse_i64] when [T_MIN <= v <= T_MAX], with value [v]. *)
Theorem decimal_round_trip (v o : Z) :
  (0 <= v <= UINT8_MAX -> parse_u8 (Some (render v)) (Some o) = (true, Some v))
  /\ (0 <= v <= UINT16_MAX -> parse_u16 (Some (render v)) (Some o) = (true, Some v))
  /\ (0 <= v <= UINT32_MAX -> parse_u32 (Some (render v)) (Some o) = (true, Some v))
  /\ (0 <= v <= UINT64_MAX -> parse_u64 (Some (render v)) (Some o) = (true, Some v))
  /\ (INT8_MIN <= v <= INT8_MAX ->
      parse_i8 (Some (render v)) (Some o) = (true, Some v))
  /\ (INT16_MIN <= v <= INT16_MAX ->
      parse_i16 (Some (render v)) (Some o) = (true, Some v))
  /\ (INT32_MIN <= v <= INT32_MAX ->
      parse_i32 (Some (render v)) (Some o) = (true, Some v))
  /\ (INT64_MIN <= v <= INT64_MAX ->
      parse_i64 (Some (render v)) (Some o) = (true, Some v)).
Proof.
  assert (U : forall tmax, 0 <= v <= tmax ->
            c_str (render v) = render v
            /\ unsigned_accepts tmax (render v) = true
            /\ decimal_value (render v) = v).
  { intros tmax Hv. unfold render.
    destruct (Z.ltb_spec v 0); [lia|]. now apply render_unsigned_accepted. }
  rewrite parse_u8_is, parse_u16_is, parse_u32_is, parse_u64_is,
    parse_i8_is, parse_i16_is, parse_i32_is, parse_i64_is.
  repeat match goal with |- _ /\ _ => split end; intros Hv.
  1-4: destruct (U _ Hv) as (-> & -> & ->); reflexivity.
  all: match goal with
       | |- context [signed_accepts ?lo ?hi _] =>
           destruct (render_accepted lo hi v ltac:(cbv; congruence) Hv)
             as (-> & -> & ->)
       end; reflexivity.
Qed.

Lemma decimal_round_trip_witness :
  parse_u8 (Some (render 255)) (Some 7) = (true, Some 255)
  /\ parse_u64 (Some (render 18446744073709551615)) (Some 7)
     = (true, Some 18446744073709551615)
  /\ parse_i32 (Some (render (-2147483648))) (Some 7) = (true, Some (-2147483648))
  /\ render (-2147483648) = chars "-2147483648".
Proof.
  destruct (decimal_round_trip 255 7) as (U8 & _).
  destruct (decimal_round_trip 18446744073709551615 7) as (_ & _ & _ & U64 & _).
  destruct (decimal_round_trip (-2147483648) 7) as (_ & _ & _ & _ & _ & _ & I32 & _).
  split; [apply U8; cbv; split; congruence|].
  split; [apply U64; cbv; split; congruence|].
  split; [apply I32; cbv; split; congruence|reflexivity].
Defined.

(** *** Hex: round trip, case, bounds *)

Lemma hex_char_spec (upper : bool) (n : Z) :
  0 <= n < 16 ->
  is_hex (hex_char upper n) = true /\ hex_val (hex_char upper n) = n.
Proof.
  intros Hn.
  assert (E : n = Z.of_nat (Z.to_nat n)) by lia.
  assert (B : (Z.to_nat n < 16)%nat) by lia.
  rewrite E. clear E Hn. generalize dependent (Z.to_nat n). intros k Hk.
  do 16 (destruct k as [|k]; [destruct upper; split; reflexivity|]).
  exfalso; lia.
Qed.

Lemma is_hex_not_nul (c : ascii) : is_hex c = true -> is_nul c = false.
Proof.
  destruct c as [[] [] [] [] [] [] [] []]; cbv; congruence.
Qed.

Lemma hex_encode_spec (upper : bool) (bytes : list Z) :
  Forall (fun b => 0 <= b < 256) bytes ->
  forallb is_hex (hex_encode upper bytes) = true
  /\ decode_pairs (hex_encode upper bytes) = bytes
  /\ List.length (hex_encode upper bytes) = (2 * List.length bytes)%nat.
Proof.
  induction 1 as [|b bytes Hb _ (IH1 & IH2 & IH3)]; [now repeat split|].
  cbn [hex_encode forallb decode_pairs List.length].
  pose proof (Z.div_mod b 16 ltac:(lia)) as Hdm.
  pose proof (Z.mod_pos_bound b 16 ltac:(lia)) as Hm.
  assert (Hq : 0 <= b / 16 < 16).
  { split; [apply Z.div_pos; lia|apply Z.div_lt_upper_bound; lia]. }
  destruct (hex_char_spec upper (b / 16) Hq) as [H1 V1].
  destruct (hex_char_spec upper (b mod 16) Hm) as [H2 V2].
  rewrite H1, H2, V1, V2, IH1, IH2, IH3. repeat split; [f_equal|]; lia.
Qed.

(** X5: decoding the hex form of a byte sequence gives the sequence back:
    for a non-empty sequence of at most [max_len] bytes, written two
    digits per byte in either case, [parse_hex_string] succeeds, stores
    exactly these bytes at the start of the buffer, leaves the rest of the
    buffer alone and reports their number. *)
Theorem hex_round_trip (upper : bool) (bytes buf : list Z) (max_len o : N) :
  bytes <> [] ->
  Forall (fun b => 0 <= b < 256) bytes ->
  (N.of_nat (List.length bytes) <= max_len)%N ->
  parse_hex_string (Some (hex_encode upper bytes)) (Some buf) max_len (Some o)
  = (true, Some (bytes ++ skipn (List.length bytes) buf),
     Some (N.of_nat (List.length bytes))).
Proof.
  intros Hne Hb Hmax.
  destruct (hex_encode_spec upper bytes Hb) as (Hhex & Hdec & Hlen).
  assert (Hc : c_str (hex_encode upper bytes) = hex_encode upper bytes).
  { apply c_str_fixed, Forall_forall. intros c Hin.
    rewrite forallb_forall in Hhex. now apply is_hex_not_nul, Hhex. }
  pose proof (parse_hex_string_spec (hex_encode upper bytes) buf max_len o) as E.
  cbv zeta in E. rewrite Hc, Hdec, Hlen in E.
  assert (D : Nat.div2 (2 * List.length bytes) = List.length bytes)
    by apply Nat.div2_double.
  rewrite D in E.
  assert (A : hex_accepts max_len (hex_encode upper bytes) = true).
  { unfold hex_accepts. rewrite Hhex, Hlen, D.
    replace (nonempty (hex_encode upper bytes)) with true
      by (destruct bytes; [congruence|reflexivity]).
    rewrite Nat.even_mul. cbn [Nat.even orb andb]. apply N.leb_le. exact Hmax. }
  rewrite A in E. exact E.
Qed.

Lemma hex_round_trip_witness :
  parse_hex_string (Some (hex_encode true [222; 173; 190; 239]))
                   (Some [0; 0; 0; 0; 9]) 4 (Some 0%N)
  = (true, Some [222; 173; 190; 239; 9], Some 4%N)
  /\ hex_encode true [222; 173; 190; 239] = chars "DEADBEEF".
Proof.
  split; [|reflexivity].
  apply (hex_round_trip true [222; 173; 190; 239] [0; 0; 0; 0; 9] 4 0).
  - discriminate.
  - repeat constructor; cbv; congruence.
  - cbv. congruence.
Defined.

Lemma tolower_facts (c : ascii) :
  ascii_tolower (ascii_tolower c) = ascii_tolower c
  /\ is_nul (ascii_tolower c) = is_nul c
  /\ (forall d, ascii_to_hex (ascii_tolower c) d = ascii_to_hex c d).
Proof.
  destruct c as [[] [] [] [] [] [] [] []];
    (split; [reflexivity|split; [reflexivity|intros [d|]; reflexivity]]).
Qed.

Lemma c_str_map_tolower (s : cbuf) :
  c_str (map ascii_tolower s) = map ascii_tolower (c_str s).
Proof.
  induction s as [|c s IH]; [reflexivity|]. cbn [map c_str].
  destruct (tolower_facts c) as (_ & -> & _).
  destruct (is_nul c); [reflexivity|]. cbn [map]. now rewrite IH.
Qed.

Lemma char_at_map_tolower (s : cbuf) (i : nat) :
  char_at (map ascii_tolower s) i = ascii_tolower (char_at s i).
Proof.
  unfold char_at. change zero_char with (ascii_tolower zero_char) at 1.
  apply map_nth.
Qed.

Lemma hex_loop_map_tolower (n : nat) :
  forall (i : nat) (s : cbuf) (buf : list Z),
    hex_loop n i (map ascii_tolower s) buf = hex_loop n i s buf.
Proof.
  induction n as [|n IH]; intros i s buf; [reflexivity|].
  cbn [hex_loop]. rewrite !char_at_map_tolower.
  destruct (tolower_facts (char_at s (i * 2))) as (_ & _ & ->).
  destruct (tolower_facts (char_at s (i * 2 + 1))) as (_ & _ & ->).
  destruct (ascii_to_hex (char_at s (i * 2)) (Some 0)) as [[|] [hi|]];
    try reflexivity.
  destruct (ascii_to_hex (char_at s (i * 2 + 1)) (Some 0)) as [[|] [lo|]];
    try reflexivity.
  apply IH.
Qed.

(** X6: hex decoding does not depend on the case of the digits: a token
    and its lower-case form give the same verdict, the same bytes and the
    same length, whatever the buffer. *)
Theorem parse_hex_string_any_case
        (s : cbuf) (out_buf : option (list Z)) (max_len : N) (out_len : option N) :
  parse_hex_string (Some (map ascii_tolower s)) out_buf max_len out_len
  = parse_hex_string (Some s) out_buf max_len out_len.
Proof.
  unfold parse_hex_string, strlen.
  rewrite c_str_map_tolower, length_map.
  destruct out_buf as [buf|], out_len as [o|]; try reflexivity.
  now rewrite hex_loop_map_tolower.
Qed.

(** The loop never stores beyond the pairs it was asked for, nor below the
    index it started at. *)
Lemma hex_loop_frame (n : nat) :
  forall (w t : list Z) (s : cbuf),
    exists w',
      snd (hex_loop n (List.length w) s (w ++ t))
      = w' ++ skipn (List.length w' - List.length w) t
      /\ (List.length w <= List.length w' <= List.length w + n)%nat.
Proof.
  induction n as [|n IH]; intros w t s.
  - exists w. cbn [hex_loop snd]. rewrite Nat.sub_diag. split; [reflexivity|lia].
  - cbn [hex_loop].
    assert (Stop : exists w',
               w ++ t = w' ++ skipn (List.length w' - List.length w) t
               /\ (List.length w <= List.length w' <= List.length w + S n)%nat).
    { exists w. rewrite Nat.sub_diag. split; [reflexivity|lia]. }
    destruct (ascii_to_hex (char_at s (List.length w * 2)) (Some 0))
      as [[|] [hi|]]; try exact Stop.
    destruct (ascii_to_hex (char_at s (List.length w * 2 + 1)) (Some 0))
      as [[|] [lo|]]; try exact Stop.
    rewrite poke_end.
    set (b := wrap8 (Z.lor (Z.shiftl hi 4) lo)).
    replace (S (List.length w)) with (List.length (w ++ [b]))
      by (rewrite length_app; cbn; lia).
    destruct (IH (w ++ [b]) (tl t) s) as (w' & E & Hlen).
    rewrite length_app in Hlen. cbn [List.length] in Hlen.
    exists w'. rewrite E, length_app. cbn [List.length]. split; [|lia].
    f_equal. rewrite skipn_tl. f_equal. lia.
Qed.

(** With room for [max_len] bytes, no store leaves the buffer. *)
Lemma parse_hex_string_room (s : cbuf) (buf : list Z) (max_len o : N) :
  (N.to_nat max_len <= List.length buf)%nat ->
  List.length (match snd (fst (parse_hex_string (Some s) (Some buf) max_len
                                                (Some o))) with
               | Some cells => cells
               | None => buf
               end)
  = List.length buf.
Proof.
  intros Hroom. unfold parse_hex_string.
  destruct (strlen s =? 0)%N; [reflexivity|].
  destruct (negb _); [reflexivity|].
  destruct (N.ltb_spec max_len (N.shiftr (strlen s) 1)) as [|Hfit];
    [reflexivity|].
  destruct (hex_loop_frame (N.to_nat (N.shiftr (strlen s) 1)) [] buf s)
    as (w' & E & Hlen).
  cbn [List.length app Nat.add] in E, Hlen. rewrite Nat.sub_0_r in E.
  destruct (hex_loop _ 0 s buf) as [[|] buf']; cbn [snd fst] in *; subst buf';
    rewrite length_app, length_skipn; lia.
Qed.

(** X7: [parse_hex_string] stays within the room it is given: whatever the
    token, and whether it succeeds or fails, the buffer keeps its length
    and every cell from index [max_len] on keeps its content, as soon as
    the buffer has [max_len] cells. *)
Theorem parse_hex_string_in_bounds
        (s : cbuf) (buf : list Z) (max_len o : N) :
  (N.to_nat max_len <= List.length buf)%nat ->
  exists buf',
    snd (fst (parse_hex_string (Some s) (Some buf) max_len (Some o))) = Some buf'
    /\ List.length buf' = List.length buf
    /\ skipn (N.to_nat max_len) buf' = skipn (N.to_nat max_len) buf.
Proof.
  intros Hroom. unfold parse_hex_string.
  destruct (strlen s =? 0)%N; [now exists buf|].
  destruct (negb (N.land (strlen s) 1 =? 0)%N); [now exists buf|].
  destruct (N.ltb_spec max_len (N.shiftr (strlen s) 1)) as [|Hfit];
    [now exists buf|].
  destruct (hex_loop_frame (N.to_nat (N.shiftr (strlen s) 1)) [] buf s)
    as (w' & E & Hlen).
  cbn [List.length app Nat.add] in E, Hlen. rewrite Nat.sub_0_r in E.
  destruct (hex_loop _ 0 s buf) as [[|] buf']; cbn [snd fst] in *; subst buf';
    (exists (w' ++ skipn (List.length w') buf); split; [reflexivity|]; split;
     [ rewrite length_app, length_skipn; lia
     | rewrite skipn_app, skipn_skipn, (skipn_all2 w') by lia;
       cbn [app]; f_equal; lia ]).
Qed.

Lemma parse_hex_string_in_bounds_witness :
  exists buf',
    snd (fst (parse_hex_string (Some (chars "0102ZZ")) (Some [9; 9; 9; 9]) 3
                               (Some 0%N))) = Some buf'
    /\ List.length buf' = 4%nat
    /\ skipn 3 buf' = [9].
Proof.
  apply (parse_hex_string_in_bounds (chars "0102ZZ") [9; 9; 9; 9] 3 0).
  cbv. lia.
Defined.

End ParserMore.

(** ** More on the hash *)

Module HashMore.
Import CeHash BaseFacts HashFacts.

Lemma c_str_snoc (s : cbuf) (c : ascii) :
  Forall (fun x => is_nul x = false) s -> is_nul c = false ->
  c_str (s ++ [c]) = s ++ [c].
Proof.
  intros Hs Hc. apply c_str_fixed, Forall_app. split; [exact Hs|].
  now constructor.
Qed.

(** X8: the hash can be computed incrementally and stops at the
    terminator: hashing a string extended by one character is one DJB2
    step from the hash of the string, and whatever follows the first NUL
    of a buffer has no influence. *)
Theorem hash_incremental (signed : bool) (s junk : cbuf) (c : ascii) :
  Forall (fun x => is_nul x = false) s ->
  is_nul c = false ->
  ce_hash_calculate signed (Some (s ++ [c]))
  = wrap32 (ce_hash_calculate signed (Some s) * DJB2_HASH_MULTIPLIER
            + char_to_u32 signed c)
  /\ ce_hash_calculate signed (Some (s ++ Ascii.zero :: junk))
     = ce_hash_calculate signed (Some s).
Proof.
  intros Hs Hc. unfold ce_hash_calculate. rewrite !hash_loop_fold. split.
  - rewrite c_str_snoc, (c_str_fixed s) by assumption.
    rewrite map_app, fold_left_app. reflexivity.
  - f_equal. f_equal. clear Hc. induction Hs as [|x s Hx _ IH]; [reflexivity|].
    cbn [app c_str]. now rewrite Hx, IH.
Qed.

Lemma hash_incremental_witness :
  ce_hash_calculate true (Some (chars "reset"))
  = wrap32 (ce_hash_calculate true (Some (chars "rese")) * 33
            + char_to_u32 true "t"%char)
  /\ ce_hash_calculate true (Some (chars "rese" ++ Ascii.zero :: chars " now"))
     = ce_hash_calculate true (Some (chars "rese")).
Proof.
  apply (hash_incremental true (chars "rese") (chars " now") "t"%char).
  - repeat constructor.
  - reflexivity.
Defined.

End HashMore.

(** ** The log history *)

Module LoggerFacts.
Import Logger.

Lemma set_entry_length (i : nat) (e : log_entry_st) (a : list log_entry_st) :
  List.length (set_entry i e a) = List.length a.
Proof.
  revert i. induction a as [|x a IH]; intros i; [now destruct i|].
  destruct i; cbn [set_entry List.length]; [reflexivity|]. now rewrite IH.
Qed.

Lemma set_entry_same (i : nat) (e d : log_entry_st) (a : list log_entry_st) :
  (i < List.length a)%nat -> nth i (set_entry i e a) d = e.
Proof.
  revert i. induction a as [|x a IH]; intros i Hi; cbn [List.length] in Hi; [lia|].
  destruct i; cbn [set_entry nth]; [reflexivity|]. apply IH. lia.
Qed.

Lemma set_entry_other (i j : nat) (e d : log_entry_st) (a : list log_entry_st) :
  j <> i -> nth j (set_entry i e a) d = nth j a d.
Proof.
  revert i j. induction a as [|x a IH]; intros i j Hne; [now destruct i|].
  destruct i, j; cbn [set_entry nth]; try reflexivity; try lia. apply IH. lia.
Qed.

Lemma log_events_snoc (st : log_state) (es : list log_entry_st) (e : log_entry_st) :
  log_events st (es ++ [e]) = log_event (log_events st es) (file_id e) (line e).
Proof. unfold log_events. now rewrite fold_left_app. Qed.

(** Two slots of the ring that are less than its size apart are distinct. *)
Lemma ring_slots_differ (n k : nat) :
  (1 <= k < LOG_HISTORY_SIZE)%nat -> (k <= n)%nat ->
  ((n - k) mod LOG_HISTORY_SIZE <> n mod LOG_HISTORY_SIZE)%nat.
Proof.
  unfold LOG_HISTORY_SIZE. intros Hk Hn E.
  pose proof (Nat.div_mod_eq n 10) as A.
  pose proof (Nat.div_mod_eq (n - k) 10) as B.
  pose proof (Nat.mod_upper_bound n 10 ltac:(lia)).
  pose proof (Nat.Div0.div_le_mono (n - k) n 10 ltac:(lia)).
  lia.
Qed.

(** X9: the log history is a ring of the last [LOG_HISTORY_SIZE] events.
    After any run of [log_event] calls from the initial state, the index
    is the number of calls modulo the size and stays inside the array, the
    array keeps its size, and for every [k] below both the number of calls
    and the size, the [k]-th most recent event is found [k + 1] slots
    behind the index (modulo the size); older events are gone. *)
Theorem log_history_is_ring (es : list log_entry_st) :
  let st := log_events initial_state es in
  let n := List.length es in
  log_history_idx st = (n mod LOG_HISTORY_SIZE)%nat
  /\ (log_history_idx st < LOG_HISTORY_SIZE)%nat
  /\ List.length (log_history st) = LOG_HISTORY_SIZE
  /\ (forall k, (k < n)%nat -> (k < LOG_HISTORY_SIZE)%nat ->
        nth ((n - 1 - k) mod LOG_HISTORY_SIZE) (log_history st) zero_entry
        = nth k (rev es) zero_entry).
Proof.
  cbv zeta. induction es as [|e es IH] using rev_ind.
  - repeat split; try reflexivity; [cbv; lia|]. intros k Hk. cbn in Hk. lia.
  - destruct IH as (Hidx & Hlt & Hlen & Hring).
    rewrite log_events_snoc, length_app, rev_app_distr.
    cbn [List.length rev app]. unfold log_event at 1 2 3 4.
    cbn [log_history_idx log_history]. rewrite set_entry_length, Hidx.
    set (n := List.length es) in *.
    assert (Hsz : LOG_HISTORY_SIZE <> 0%nat) by (cbv; lia).
    split; [|split; [|split; [exact Hlen|]]].
    + rewrite Nat.Div0.add_mod_idemp_l. reflexivity.
    + apply Nat.mod_upper_bound. exact Hsz.
    + intros k Hk Hk'. destruct k as [|k].
      * replace (n + 1 - 1 - 0)%nat with n by lia.
        cbn [nth]. destruct e as [f l]. cbn [file_id line].
        apply set_entry_same. rewrite Hlen. now apply Nat.mod_upper_bound.
      * cbn [nth]. replace (n + 1 - 1 - S k)%nat with (n - 1 - k)%nat by lia.
        rewrite set_entry_other.
        -- apply Hring; lia.
        -- replace (n - 1 - k)%nat with (n - S k)%nat by lia.
           apply ring_slots_differ; lia.
Qed.

Lemma log_history_is_ring_witness :
  let mk := fun l => {| file_id := CE_FILE_DISPATCH_e; line := l |} in
  let st := log_events initial_state (map mk [1; 2; 3; 4; 5; 6; 7; 8; 9; 10; 11; 12]) in
  nth 1 (log_history st) zero_entry = mk 12
  /\ nth 2 (log_history st) zero_entry = mk 3.
Proof.
  cbv zeta.
  destruct (log_history_is_ring
              (map (fun l => {| file_id := CE_FILE_DISPATCH_e; line := l |})
                   [1; 2; 3; 4; 5; 6; 7; 8; 9; 10; 11; 12]))
    as (_ & _ & _ & Ring).
  split.
  - apply (Ring 0%nat); cbv; lia.
  - apply (Ring 9%nat); cbv; lia.
Defined.

End LoggerFacts.

(** ** More on the token scanner *)

Module ScannerMore.
Import ParserUtils CeDispatch Spec SpecMore ScanSpec BaseFacts ParserFacts TokenFacts.

(** *** The scanner writes NULs over separators, and nothing else *)

Lemma blanked_refl (s : cbuf) : Forall2 blanked s s.
Proof. induction s; constructor; [now left|assumption]. Qed.

Lemma skip_token_cells (a b : cbuf) :
  exists done,
    a = done ++ snd (skip_token_loop a b)
    /\ fst (skip_token_loop a b) = rev done ++ b.
Proof.
  revert b. induction a as [|c a IH]; intros b; [now exists []|].
  cbn [skip_token_loop].
  destruct (negb (is_nul c) && negb (IS_WHITESPACE c)); [|now exists []].
  destruct (IH (c :: b)) as (done & E1 & E2). exists (c :: done).
  cbn [app rev]. rewrite <- app_assoc, E2. split; [now f_equal|reflexivity].
Qed.

Lemma skip_space_cells (a b : cbuf) :
  exists done done',
    a = done ++ snd (skip_space_loop a b)
    /\ fst (skip_space_loop a b) = rev done' ++ b
    /\ Forall2 blanked done done'.
Proof.
  revert b. induction a as [|c a IH]; intros b;
    [exists [], []; repeat split; constructor|].
  cbn [skip_space_loop]. rewrite IS_WHITESPACE_separator.
  destruct (is_nul c); cbn [negb andb];
    [exists [], []; repeat split; constructor|].
  destruct (is_separator c) eqn:Sep;
    [|exists [], []; repeat split; constructor].
  destruct (IH (zero_char :: b)) as (done & done' & E1 & E2 & R).
  exists (c :: done), (zero_char :: done').
  cbn [app rev]. rewrite <- app_assoc, E2.
  split; [now f_equal|]. split; [reflexivity|].
  constructor; [right; now split|exact R].
Qed.

Lemma split_loop_cells (line : char_ptr) (a : cbuf) :
  forall (b : cbuf) (count : nat) (in_token : bool) (toks : list (option char_ptr)),
    let st := split_loop line a b count in_token toks in
    exists done done',
      a = done ++ ahead st
      /\ behind st = rev done' ++ b
      /\ Forall2 blanked done done'.
Proof.
  induction a as [|c a IH]; intros b count in_token toks; cbv zeta;
    [exists [], []; repeat split; constructor|].
  cbn [split_loop]. rewrite IS_WHITESPACE_separator.
  destruct (negb (is_nul c) && (count <? MAX_TOKENS)%nat);
    [|exists [], []; repeat split; constructor].
  destruct (is_separator c) eqn:Sep; [|destruct (negb in_token)].
  - destruct (IH (zero_char :: b) count false toks) as (done & done' & E1 & E2 & R).
    exists (c :: done), (zero_char :: done').
    cbn [app rev]. rewrite <- app_assoc, E2.
    split; [now f_equal|]. split; [reflexivity|].
    constructor; [right; now split|exact R].
  - destruct (IH (c :: b) (S count) true
                 (upd count (Some (ptr_add line (List.length b))) toks))
      as (done & done' & E1 & E2 & R).
    exists (c :: done), (c :: done').
    cbn [app rev]. rewrite <- app_assoc, E2.
    split; [now f_equal|]. split; [reflexivity|].
    constructor; [now left|exact R].
  - destruct (IH (c :: b) count in_token toks) as (done & done' & E1 & E2 & R).
    exists (c :: done), (c :: done').
    cbn [app rev]. rewrite <- app_assoc, E2.
    split; [now f_equal|]. split; [reflexivity|].
    constructor; [now left|exact R].
Qed.

(** What the scanner returns as memory and as token array. *)
Lemma parse_line_to_tokens_result (m : memory) (p : char_ptr)
      (toks : list (option char_ptr)) (cnt : nat) :
  let st := split_loop p (load m p) [] 0 false toks in
  snd (fst (fst (fst (parse_line_to_tokens m (Some p) (Some toks) (Some cnt)))))
  = store m p (final_line st)
  /\ snd (fst (fst (parse_line_to_tokens m (Some p) (Some toks) (Some cnt))))
     = Some (tokens st).
Proof.
  cbv zeta. unfold parse_line_to_tokens, final_line.
  set (st := split_loop p (load m p) [] 0 false toks).
  destruct (if in_token st && (count st =? MAX_TOKENS)%nat
            then skip_token_loop (ahead st) (behind st)
            else (behind st, ahead st)) as [b1 a1].
  destruct (skip_space_loop a1 b1) as [b2 a2].
  destruct ((count st =? MAX_TOKENS)%nat && negb (is_nul (deref a2)));
    now split.
Qed.

Lemma final_line_cells (line : char_ptr) (a : cbuf) (toks : list (option char_ptr)) :
  Forall2 blanked a (final_line (split_loop line a [] 0 false toks)).
Proof.
  destruct (split_loop_cells line a [] 0 false toks) as (d1 & d1' & E1 & B1 & R1).
  cbv zeta in E1, B1. unfold final_line.
  set (st := split_loop line a [] 0 false toks) in *.
  rewrite app_nil_r in B1.
  destruct (in_token st && (count st =? MAX_TOKENS)%nat).
  - destruct (skip_token_cells (ahead st) (behind st)) as (d2 & E2 & B2).
    destruct (skip_token_loop (ahead st) (behind st)) as [b1 a1].
    cbn [fst snd] in E2, B2.
    destruct (skip_space_cells a1 b1) as (d3 & d3' & E3 & B3 & R3).
    destruct (skip_space_loop a1 b1) as [b2 a2]. cbn [fst snd] in E3, B3.
    rewrite E1, E2, E3, B3, B2, B1, !rev_app_distr, !rev_involutive, <- !app_assoc.
    repeat apply Forall2_app; try assumption; apply blanked_refl.
  - destruct (skip_space_cells (ahead st) (behind st)) as (d3 & d3' & E3 & B3 & R3).
    destruct (skip_space_loop (ahead st) (behind st)) as [b2 a2].
    cbn [fst snd] in E3, B3.
    rewrite E1, E3, B3, B1, !rev_app_distr, !rev_involutive, <- !app_assoc.
    repeat apply Forall2_app; try assumption; apply blanked_refl.
Qed.

(** X10: the scanner edits the line in place and only by writing NUL over
    separators: after a call, accepted or not, the object the line lives
    in holds the same cells before the line, and from the line on the same
    number of cells, each one as before or a separator turned into NUL;
    the other object is untouched. *)
Theorem scanner_only_blanks_separators
        (m : memory) (p : char_ptr) (toks : list (option char_ptr)) (cnt : nat) :
  let m' := snd (fst (fst (fst
              (parse_line_to_tokens m (Some p) (Some toks) (Some cnt))))) in
  exists line',
    block_of m' (blk p) = firstn (off p) (block_of m (blk p)) ++ line'
    /\ Forall2 blanked (load m p) line'
    /\ List.length line' = List.length (load m p)
    /\ (forall b, b <> blk p -> block_of m' b = block_of m b).
Proof.
  cbv zeta. destruct (parse_line_to_tokens_result m p toks cnt) as [-> _].
  set (st := split_loop p (load m p) [] 0 false toks).
  exists (final_line st).
  pose proof (final_line_cells p (load m p) toks) as R. fold st in R.
  split; [|split; [exact R|split]].
  - unfold store. destruct (blk p); reflexivity.
  - symmetry. exact (Forall2_length R).
  - intros b Hb. unfold store. destruct (blk p), b; try reflexivity; congruence.
Qed.

(** *** Every token, read back from the scanned line *)

Lemma split_loop_count_grows (line : char_ptr) (a : cbuf) :
  forall b count in_token toks,
    (count <= CeDispatch.count (split_loop line a b count in_token toks))%nat.
Proof.
  induction a as [|c a IH]; intros b count in_token toks; [cbn; lia|].
  cbn [split_loop].
  destruct (negb (is_nul c) && (count <? MAX_TOKENS)%nat); [|cbn; lia].
  destruct (IS_WHITESPACE c); [|destruct (negb in_token)].
  - apply IH.
  - specialize (IH (c :: b) (S count) true
                   (upd count (Some (ptr_add line (List.length b))) toks)). lia.
  - apply IH.
Qed.

(** A slot is written when its token starts, and at no other time. *)
Lemma split_loop_slots (line : char_ptr) (a : cbuf) :
  forall b count in_token toks j,
    let st := split_loop line a b count in_token toks in
    (j < count \/ CeDispatch.count st <= j)%nat ->
    nth j (tokens st) None = nth j toks None.
Proof.
  induction a as [|c a IH]; intros b count in_token toks j; cbv zeta;
    [reflexivity|].
  cbn [split_loop].
  destruct (negb (is_nul c) && (count <? MAX_TOKENS)%nat); [|reflexivity].
  destruct (IS_WHITESPACE c); [|destruct (negb in_token)].
  - apply IH.
  - intros Hj.
    pose proof (split_loop_count_grows line a (c :: b) (S count) true
                  (upd count (Some (ptr_add line (List.length b))) toks)) as G.
    rewrite IH by lia. apply upd_nth_other. lia.
  - apply IH.
Qed.

(** The rest of a token and the separators after it, as the last two
    loops leave them. *)
Lemma skip_loops_final (a : cbuf) :
  forall b,
    let '(b1, a1) := skip_token_loop a b in
    let '(b2, a2) := skip_space_loop a1 b1 in
    exists tail,
      rev b2 ++ a2 = rev b ++ take_word (c_str a) ++ tail /\ c_str tail = [].
Proof.
  induction a as [|c a IH]; intros b.
  - cbn. exists []. now rewrite app_nil_r.
  - cbn [skip_token_loop c_str]. rewrite IS_WHITESPACE_separator.
    destruct (is_nul c) eqn:N; cbn [negb andb].
    + cbn [skip_space_loop]. rewrite N. cbn [negb andb take_word app].
      exists (c :: a). split; [reflexivity|]. cbn [c_str]. now rewrite N.
    + cbn [take_word]. destruct (is_separator c) eqn:Sep; cbn [negb].
      * cbn [skip_space_loop]. rewrite N, IS_WHITESPACE_separator, Sep.
        cbn [negb andb].
        destruct (skip_space_grows a (zero_char :: b)) as [y Hy].
        destruct (skip_space_loop a (zero_char :: b)) as [b2 a2].
        cbn [fst] in Hy. subst b2.
        exists (zero_char :: rev y ++ a2).
        rewrite rev_app_distr. cbn [rev app]. rewrite <- !app_assoc.
        split; reflexivity.
      * specialize (IH (c :: b)).
        destruct (skip_token_loop a (c :: b)) as [b1 a1].
        destruct (skip_space_loop a1 b1) as [b2 a2].
        destruct IH as (tail & E & Hn). exists tail. rewrite E.
        cbn [rev app]. rewrite <- app_assoc. now split.
Qed.

Lemma upd_length {A : Type} (i : nat) (v : A) (a : list A) :
  List.length (upd i v a) = List.length a.
Proof.
  revert i. induction a as [|x a IH]; intros i; [now destruct i|].
  destruct i; cbn [upd List.length]; [reflexivity|]. now rewrite IH.
Qed.

Lemma nth_word_skips_separator (n : nat) (c : ascii) (s : cbuf) :
  is_separator c = true -> nth_word n (c :: s) = nth_word n s.
Proof.
  intros Sep. unfold nth_word, first_word.
  destruct n; cbn [after_tokens drop_separators]; now rewrite Sep.
Qed.

Section Tokens.

Variable line : char_ptr.

(** From inside a token on: the line the scanner leaves holds the rest of
    the token, NUL-terminated. *)
Lemma in_word_final (a : cbuf) :
  forall b count toks,
    (count <= MAX_TOKENS)%nat ->
    exists tail,
      final_line (split_loop line a b count true toks)
      = rev b ++ take_word (c_str a) ++ tail
      /\ c_str tail = [].
Proof.
  induction a as [|c a IH]; intros b count toks Hc.
  - exists []. unfold final_line.
    cbn [split_loop CeDispatch.in_token CeDispatch.count CeDispatch.ahead
         CeDispatch.behind skip_token_loop].
    rewrite Tauto.if_same. cbn [skip_space_loop c_str take_word app].
    split; reflexivity.
  - cbn [split_loop c_str]. rewrite IS_WHITESPACE_separator.
    destruct (is_nul c) eqn:N; cbn [negb andb].
    + exists (c :: a). unfold final_line.
      cbn [CeDispatch.in_token CeDispatch.count CeDispatch.ahead CeDispatch.behind].
      destruct (skip_loops_at_nul (c :: a) b) as [T S];
        [cbn [c_str]; now rewrite N|].
      rewrite T, Tauto.if_same, S. cbn [take_word app c_str]. now rewrite N.
    + destruct (Nat.ltb_spec count MAX_TOKENS) as [Hlt|Hge].
      * cbn [take_word]. destruct (is_separator c) eqn:Sep; cbn [negb].
        -- destruct (final_line_frame
                       (split_loop line a (zero_char :: b) count false toks))
             as (x & F & _).
           destruct (split_loop_grows line a (zero_char :: b) count false toks)
             as [y Hy].
           exists (zero_char :: y ++ x). rewrite F, Hy. cbn [rev app].
           rewrite <- !app_assoc. split; reflexivity.
        -- destruct (IH (c :: b) count toks Hc) as (tail & E & Hn).
           exists tail. rewrite E. cbn [rev app]. rewrite <- app_assoc.
           now split.
      * assert (count = MAX_TOKENS) by lia. subst count.
        unfold final_line.
        cbn [CeDispatch.in_token CeDispatch.count CeDispatch.ahead CeDispatch.behind].
        rewrite Nat.eqb_refl. cbn [andb].
        pose proof (skip_loops_final (c :: a) b) as L.
        destruct (skip_token_loop (c :: a) b) as [b1 a1].
        destruct (skip_space_loop a1 b1) as [b2 a2].
        destruct L as (tail & E & Hn). exists tail. rewrite E.
        cbn [c_str]. rewrite N. now split.
Qed.

(** Every slot the scan fills points at its token, NUL-terminated in the
    line the scan leaves.  Offsets are counted from the start of the line;
    [k] tokens were counted before [a] is scanned. *)
Lemma split_loop_tokens (a : cbuf) :
  forall b k in_token toks,
    (k <= MAX_TOKENS)%nat -> (MAX_TOKENS <= List.length toks)%nat ->
    let st := split_loop line a b k in_token toks in
    let rest := if in_token then drop_word (c_str a) else c_str a in
    forall j, (k <= j < CeDispatch.count st)%nat ->
      exists o,
        nth j (tokens st) None = Some (ptr_add line o)
        /\ c_str (skipn o (final_line st)) = nth_word (j - k) rest.
Proof.
  induction a as [|c a IH]; intros b k in_token toks Hk Hlen; cbv zeta.
  - cbn [split_loop CeDispatch.count]. intros j Hj. lia.
  - cbn [split_loop c_str]. rewrite IS_WHITESPACE_separator.
    destruct (is_nul c) eqn:N; cbn [negb andb];
      [cbn [CeDispatch.count]; intros j Hj; lia|].
    destruct (Nat.ltb_spec k MAX_TOKENS) as [Hlt|Hge];
      [|cbn [CeDispatch.count]; intros j Hj; lia].
    destruct (is_separator c) eqn:Sep; [|destruct in_token; cbn [negb]].
    + intros j Hj.
      destruct (IH (zero_char :: b) k false toks Hk Hlen j Hj) as (o & E1 & E2).
      exists o. split; [exact E1|]. rewrite E2.
      assert (D : (if in_token then drop_word (c :: c_str a) else c :: c_str a)
                  = c :: c_str a).
      { destruct in_token; [|reflexivity]. cbn [drop_word]. now rewrite Sep. }
      rewrite D. symmetry. now apply nth_word_skips_separator.
    + intros j Hj.
      destruct (IH (c :: b) k true toks Hk Hlen j Hj) as (o & E1 & E2).
      exists o. split; [exact E1|]. rewrite E2. cbn [drop_word]. now rewrite Sep.
    + intros j Hj. destruct (Nat.eq_dec j k) as [->|Hne].
      * exists (List.length b). split.
        -- rewrite split_loop_slots by lia. apply upd_nth_same. lia.
        -- destruct (in_word_final a (c :: b) (S k)
                       (upd k (Some (ptr_add line (List.length b))) toks)
                       ltac:(lia)) as (tail & E & Hn).
           rewrite E. cbn [rev]. rewrite <- !app_assoc.
           rewrite skipn_app, length_rev, Nat.sub_diag, skipn_all2
             by (rewrite length_rev; lia).
           cbn [app skipn]. rewrite Nat.sub_diag.
           unfold nth_word, first_word. cbn [after_tokens drop_separators].
           rewrite Sep. cbn [take_word c_str]. rewrite Sep, N.
           rewrite c_str_app by apply take_word_no_nul, c_str_no_nul.
           now rewrite Hn, app_nil_r.
      * destruct (IH (c :: b) (S k) true
                     (upd k (Some (ptr_add line (List.length b))) toks)
                     ltac:(lia)
                     ltac:(now rewrite upd_length)
                     j ltac:(lia)) as (o & E1 & E2).
        exists o. split; [exact E1|]. rewrite E2. unfold nth_word.
        replace (j - k)%nat with (S (j - S k)) by lia.
        cbn [after_tokens drop_separators]. rewrite Sep.
        cbn [drop_word]. now rewrite Sep.
Qed.

End Tokens.

Lemma load_store (m : memory) (p : char_ptr) (cells : cbuf) (o : nat) :
  (off p <= List.length (block_of m (blk p)))%nat ->
  load (store m p cells) (ptr_add p o) = skipn o cells.
Proof.
  intros Hoff. unfold load, store, ptr_add. cbn [blk off].
  assert (L : List.length (firstn (off p) (block_of m (blk p))) = off p)
    by (apply firstn_length_le; exact Hoff).
  destruct (blk p); cbn [block_of caller_mem line_buf] in *;
    rewrite skipn_app, L, skipn_all2 by lia; cbn [app]; f_equal; lia.
Qed.

Lemma parse_line_to_tokens_tokens
      (m : memory) (p : char_ptr) (toks : list (option char_ptr)) (cnt : nat) :
  (off p <= List.length (block_of m (blk p)))%nat ->
  (MAX_TOKENS <= List.length toks)%nat ->
  let s := c_str (load m p) in
  let res := parse_line_to_tokens m (Some p) (Some toks) (Some cnt) in
  let m' := snd (fst (fst (fst res))) in
  let n := Nat.min MAX_TOKENS (count_tokens false s) in
  exists toks',
    snd (fst (fst res)) = Some toks'
    /\ (forall i, (i < n)%nat ->
          exists q, nth i toks' None = Some q
                    /\ blk q = blk p
                    /\ c_str (load m' q) = nth_word i s)
    /\ (forall i, (n <= i)%nat -> nth i toks' None = nth i toks None).
Proof.
  intros Hoff Hlen. cbv zeta.
  destruct (parse_line_to_tokens_result m p toks cnt) as [-> ->].
  set (st := split_loop p (load m p) [] 0 false toks).
  pose proof (split_loop_count p (load m p) [] 0 false toks ltac:(lia)) as C.
  fold st in C. cbn [Nat.add] in C. rewrite <- C.
  exists (tokens st). split; [reflexivity|]. split.
  - intros i Hi.
    destruct (split_loop_tokens p (load m p) [] 0 false toks ltac:(lia) Hlen
                                i ltac:(fold st; lia)) as (o & E1 & E2).
    fold st in E1, E2. rewrite Nat.sub_0_r in E2.
    exists (ptr_add p o). split; [exact E1|]. split; [reflexivity|].
    now rewrite load_store.
  - intros i Hi. apply split_loop_slots. right. exact Hi.
Qed.

(** X11: the scanner delivers the tokens of the line.  For a line pointer
    inside its object and a token array of [MAX_TOKENS] slots, after a
    call, accepted or not, slot [i] points into the line at a
    NUL-terminated copy of the [i]-th token, for every [i] below both the
    number of tokens and [MAX_TOKENS]; the slots from there on are as they
    were. *)
Theorem scanner_tokens_read_back
        (m : memory) (p : char_ptr) (toks : list (option char_ptr)) (cnt : nat) :
  (off p <= List.length (block_of m (blk p)))%nat ->
  (MAX_TOKENS <= List.length toks)%nat ->
  let s := c_str (load m p) in
  let res := parse_line_to_tokens m (Some p) (Some toks) (Some cnt) in
  let m' := snd (fst (fst (fst res))) in
  let n := Nat.min MAX_TOKENS (count_tokens false s) in
  exists toks',
    snd (fst (fst res)) = Some toks'
    /\ (forall i, (i < n)%nat ->
          exists q, nth i toks' None = Some q
                    /\ blk q = blk p
                    /\ c_str (load m' q) = nth_word i s)
    /\ (forall i, (n <= i)%nat -> nth i toks' None = nth i toks None).
Proof. apply parse_line_to_tokens_tokens. Qed.

Lemma scanner_tokens_read_back_witness :
  let m := {| caller_mem := chars "  set_speed  42 fast "; line_buf := [] |} in
  let p := {| blk := CallerMem; off := 0 |} in
  let res := parse_line_to_tokens m (Some p) (Some (repeat None MAX_TOKENS)) (Some O) in
  exists toks',
    snd (fst (fst res)) = Some toks'
    /\ (exists q, nth 1 toks' None = Some q
                  /\ blk q = CallerMem
                  /\ c_str (load (snd (fst (fst (fst res)))) q) = chars "42")
    /\ nth 3 toks' None = None.
Proof.
  cbv zeta.
  destruct (scanner_tokens_read_back
              {| caller_mem := chars "  set_speed  42 fast "; line_buf := [] |}
              {| blk := CallerMem; off := 0 |} (repeat None MAX_TOKENS) O)
    as (toks' & E & Read & Rest).
  - cbv. lia.
  - cbv. lia.
  - exists toks'. split; [exact E|]. split.
    + apply (Read 1%nat). cbv. lia.
    + apply (Rest 3%nat). cbv. lia.
Defined.

End ScannerMore.

(** ** The dispatcher *)

Module DispatchFacts.
Import ParserUtils CeDispatch Spec SpecMore ArgSpec BaseFacts ParserFacts
       ParserMore TokenFacts ScannerMore.

Lemma silent_ok : silent_or_failed true [].
Proof. split; [reflexivity|]. split; [reflexivity|discriminate]. Qed.

Lemma silent_failed (ev : list event) :
  ev <> [] -> forallb is_err ev = true -> silent_or_failed false ev.
Proof.
  intros Hne Herr. split; [exact Herr|]. split; [discriminate|]. intros _. exact Hne.
Qed.

Lemma validate_argument_count_events (n : nat) (sig : option ce_signature_st) :
  silent_or_failed (fst (validate_argument_count n sig))
                   (snd (validate_argument_count n sig)).
Proof.
  unfold validate_argument_count. destruct sig as [sig|]; cbn [fst snd].
  - destruct (negb _); cbn [fst snd];
      [apply silent_failed; [discriminate|reflexivity] | apply silent_ok].
  - apply silent_failed; [discriminate|reflexivity].
Qed.

Lemma parse_line_to_tokens_events (m : memory) (p : option char_ptr)
      (toks : option (list (option char_ptr))) (cnt : option nat) :
  silent_or_failed
    (fst (fst (fst (fst (parse_line_to_tokens m p toks cnt)))))
    (snd (parse_line_to_tokens m p toks cnt)).
Proof.
  unfold parse_line_to_tokens.
  destruct p as [p|], toks as [toks|], cnt as [cnt|]; cbn [fst snd];
    try (apply silent_failed; [discriminate|reflexivity]).
  destruct (if in_token _ && _ then _ else _) as [b1 a1].
  destruct (skip_space_loop a1 b1) as [b2 a2].
  destruct (_ && negb (is_nul (deref a2))); cbn [fst snd];
    [apply silent_failed; [discriminate|reflexivity] | apply silent_ok].
Qed.

Lemma strays_then_errs_nil (ok : bool) : strays_then_errs ok [].
Proof. exists [], []. repeat split; reflexivity. Qed.

Lemma strays_then_errs_failed (errs : list event) :
  forallb is_err errs = true -> strays_then_errs false errs.
Proof.
  intros H. exists [], errs. repeat split; try reflexivity; [exact H|discriminate].
Qed.

Lemma in_bounds_app (a b : list event) :
  in_bounds (a ++ b) <-> in_bounds a /\ in_bounds b.
Proof.
  unfold in_bounds. split.
  - intros H. split; intros f y Hin; apply (H f y), in_or_app; tauto.
  - intros [Ha Hb] f y Hin. apply in_app_or in Hin as [Hin|Hin];
      [apply (Ha f y Hin)|apply (Hb f y Hin)].
Qed.

Lemma in_bounds_cons (e : event) (ev : list event) :
  in_bounds (e :: ev) <-> is_stray e = false /\ in_bounds ev.
Proof.
  unfold in_bounds. split.
  - intros H. split.
    + destruct e; try reflexivity. exfalso. apply (H first beyond). now left.
    + intros f y Hin. apply (H f y). now right.
  - intros [He Hev] f y [E|Hin]; [subst e; discriminate|apply (Hev f y Hin)].
Qed.

Lemma in_bounds_nil : in_bounds [].
Proof. intros f y []. Qed.

Lemma in_bounds_errs (errs : list event) :
  forallb is_err errs = true -> in_bounds errs.
Proof.
  intros H f y Hin. rewrite forallb_forall in H. now apply H in Hin.
Qed.

(** One argument: a store that left the buffer is recorded first, the
    diagnostic of a failure after it, and nothing else; without such a
    store the memory is as it was. *)
Lemma parse_value_by_type_events (stray : stray_stores) (m : memory)
      (type_e : ce_arg_type_et)
      (token_cp : option char_ptr) (out : option ce_arg_value_ut)
      (scratch : option scratch_buffer_st) :
  let res := parse_value_by_type stray m type_e token_cp out scratch in
  strays_then_errs (fst (fst (fst (fst res)))) (snd res)
  /\ (in_bounds (snd res) -> snd (fst (fst (fst res))) = m).
Proof.
  cbv zeta. unfold parse_value_by_type.
  destruct token_cp as [tok|], out as [o|];
    try (split; [now apply strays_then_errs_failed|reflexivity]).
  destruct type_e; cbn [fst snd];
    try (split; [apply strays_then_errs_nil|reflexivity]);
    try (split; [now apply strays_then_errs_failed|reflexivity]).
  destruct scratch as [sc|];
    [|split; [now apply strays_then_errs_failed|reflexivity]].
  set (room := skipn (N.to_nat (used sc)) (buffer sc)).
  destruct (parse_hex_string _ _ _ _) as [[ok view] len]. cbn [fst snd].
  set (cells := match view with Some c => c | None => room end).
  destruct (List.length room <? List.length cells)%nat.
  - assert (Out : forall ev, ~ in_bounds (Stray (N.to_nat (used sc) + List.length room)
                                    (N.to_nat (used sc) + List.length cells) :: ev)).
    { intros ev H. apply in_bounds_cons in H as [H _]. discriminate. }
    destruct ok, len as [len|]; cbn [fst snd app]; split;
      try (intros H; now apply Out in H);
      (exists [Stray (N.to_nat (used sc) + List.length room)
                     (N.to_nat (used sc) + List.length cells)]; eexists;
       split; [cbn [app]; reflexivity|];
       repeat split; try reflexivity; discriminate).
  - destruct ok, len as [len|]; cbn [fst snd app]; split; try reflexivity;
      (apply strays_then_errs_nil || now apply strays_then_errs_failed).
Qed.

(** The arguments: the same, and a failure does leave a diagnostic. *)
Lemma parse_arguments_loop_events (stray : stray_stores) (sig : ce_signature_st)
      (tokens_ca : list (option char_ptr)) (n : nat) :
  forall (m : memory) (i : nat) (args : list ce_arg_value_ut)
         (sc : scratch_buffer_st),
    let res := parse_arguments_loop stray m sig tokens_ca n i args sc in
    strays_then_errs (fst (fst (fst (fst res)))) (snd res)
    /\ (fst (fst (fst (fst res))) = false -> forallb is_stray (snd res) = false)
    /\ (in_bounds (snd res) -> snd (fst (fst (fst res))) = m).
Proof.
  induction n as [|n IH]; intros m i args sc; cbv zeta.
  { split; [apply strays_then_errs_nil|]. split; [discriminate|reflexivity]. }
  cbn [parse_arguments_loop].
  destruct (nth (i + ARG_OFFSET) tokens_ca None) as [tok|].
  2:{ cbn [fst snd]. split; [now apply strays_then_errs_failed|].
      split; reflexivity. }
  pose proof (parse_value_by_type_events stray m
                (nth i (types_e sig) TYPE_INVALID_e)
                (Some tok) (Some (nth i args zero_value)) (Some sc)) as [E F].
  destruct (parse_value_by_type _ _ _ _ _ _) as [[[[ok m'] out] sc'] ev].
  cbn [fst snd] in E, F.
  destruct E as (strays & errs & -> & Hs & He & Hok). destruct ok.
  - rewrite (Hok eq_refl), app_nil_r in *.
    specialize (IH m' (S i)
                   (match out with Some v => upd i v args | None => args end)
                   (match sc' with Some s => s | None => sc end)).
    cbv zeta in IH.
    destruct (parse_arguments_loop _ _ _ _ _ _ _ _) as [[[[ok' m''] a] s] ev'].
    cbn [fst snd] in *. destruct IH as ((strays' & errs' & -> & Hs' & He' & Hok') & Hne & IF).
    split; [|split].
    + exists (strays ++ strays'), errs'. rewrite app_assoc, forallb_app, Hs, Hs'.
      repeat split; (reflexivity || assumption).
    + intros ->. specialize (Hne eq_refl). rewrite !forallb_app in *.
      rewrite Hs, Hs' in *. cbn [andb] in *. exact Hne.
    + intros B. apply in_bounds_app in B as [B1 B2].
      rewrite (IF B2). apply F. exact B1.
  - cbn [fst snd]. split; [|split].
    + exists strays, (errs ++ [Err (E_failed_argument (i + 1)
                                      (nth i (types_e sig) TYPE_INVALID_e)
                                      (c_str (load m' tok)))]).
      rewrite app_assoc, forallb_app, He. repeat split; try reflexivity;
        [exact Hs|discriminate].
    + intros _. rewrite !forallb_app. cbn. now rewrite !andb_false_r.
    + intros B. apply in_bounds_app in B as [B _]. apply F. exact B.
Qed.

Lemma parse_arguments_events (stray : stray_stores) (m : memory)
      (sig : option ce_signature_st)
      (tokens_ca : option (list (option char_ptr)))
      (args : option (list ce_arg_value_ut)) (sc : option scratch_buffer_st) :
  let res := parse_arguments stray m sig tokens_ca args sc in
  strays_then_errs (fst (fst (fst (fst res)))) (snd res)
  /\ (fst (fst (fst (fst res))) = false -> forallb is_stray (snd res) = false)
  /\ (in_bounds (snd res) -> snd (fst (fst (fst res))) = m).
Proof.
  cbv zeta. unfold parse_arguments.
  destruct sig as [sig|], tokens_ca as [toks|], args as [a|], sc as [s|];
    cbn [fst snd];
    try (split; [now apply strays_then_errs_failed|split; reflexivity]).
  destruct (_ <? _)%nat;
    [cbn [fst snd]; split; [now apply strays_then_errs_failed|split; reflexivity]|].
  pose proof (parse_arguments_loop_events stray sig toks (type_count_u8 sig)
                                          m 0 a s) as H.
  cbv zeta in H.
  destruct (parse_arguments_loop _ _ _ _ _ _ _ _) as [[[[ok m'] a'] s'] ev].
  exact H.
Qed.


(** The scanner stores to the line it is given and nowhere else. *)
Lemma scanner_frame (m : memory) (p : char_ptr)
      (toks : list (option char_ptr)) (cnt : nat) :
  blk p = LineBuf ->
  caller_mem (snd (fst (fst (fst
    (parse_line_to_tokens m (Some p) (Some toks) (Some cnt))))))
  = caller_mem m.
Proof.
  intros Hblk. unfold parse_line_to_tokens, store. rewrite Hblk.
  repeat match goal with
         | |- context [let '(_, _) := ?e in _] => destruct e
         | |- context [if ?b then _ else _] => destruct b
         end; reflexivity.
Qed.

(** *** One argument *)

Lemma scratch_with_nil (sc : scratch_buffer_st) : scratch_with sc [] = sc.
Proof.
  unfold scratch_with. cbn [app List.length].
  rewrite Nat.add_0_r, firstn_skipn, N.add_0_r. now destruct sc.
Qed.

Lemma firstn_exact {A : Type} (l1 l2 : list A) (n : nat) :
  n = List.length l1 -> firstn n (l1 ++ l2) = l1.
Proof.
  intros ->. rewrite firstn_app, Nat.sub_diag, firstn_all. cbn [firstn].
  apply app_nil_r.
Qed.

Lemma skipn_past {A : Type} (l1 l2 : list A) (n k : nat) :
  n = (List.length l1 + k)%nat -> skipn n (l1 ++ l2) = skipn k l2.
Proof.
  intros ->. rewrite skipn_app, skipn_all2 by lia. cbn [app]. f_equal. lia.
Qed.

Lemma scratch_with_app (sc : scratch_buffer_st) (b1 b2 : list Z) :
  (N.to_nat (used sc) <= List.length (buffer sc))%nat ->
  scratch_with (scratch_with sc b1) b2 = scratch_with sc (b1 ++ b2).
Proof.
  intros Hused. unfold scratch_with. cbn [buffer used].
  set (u := N.to_nat (used sc)) in *.
  assert (L : List.length (firstn u (buffer sc)) = u)
    by (apply firstn_length_le; exact Hused).
  replace (N.to_nat (used sc + N.of_nat (List.length b1)))
    with (u + List.length b1)%nat by (subst u; lia).
  f_equal.
  - rewrite (app_assoc (firstn u (buffer sc)) b1).
    rewrite firstn_exact by (rewrite length_app; lia).
    rewrite skipn_past with (k := List.length b2)
      by (rewrite length_app; lia).
    rewrite skipn_skipn, length_app, <- !app_assoc.
    replace (List.length b2 + (u + List.length b1))%nat
      with (u + (List.length b1 + List.length b2))%nat by lia.
    reflexivity.
  - rewrite length_app. lia.
Qed.

(** Bytes that fit the room left take the place of as many cells. *)
Lemma scratch_with_fits (sc : scratch_buffer_st) (bytes : list Z) :
  (N.to_nat (used sc) + List.length bytes <= List.length (buffer sc))%nat ->
  List.length (buffer (scratch_with sc bytes)) = List.length (buffer sc)
  /\ N.to_nat (used (scratch_with sc bytes))
     = (N.to_nat (used sc) + List.length bytes)%nat.
Proof.
  intros Hfit. unfold scratch_with. cbn [buffer used].
  rewrite !length_app, length_skipn, firstn_length_le by lia. lia.
Qed.

(** A binary argument: its bytes are stored from the fill on, and when
    they do not fit what is left of the array, the store that leaves it
    is on record. *)
Lemma binary_argument_step (stray : stray_stores) (m : memory) (tok : char_ptr)
      (o : ce_arg_value_ut) (sc : scratch_buffer_st) :
  let s := c_str (load m tok) in
  let bytes := decode_pairs s in
  let res := parse_value_by_type stray m TYPE_UINT8_PTR_e (Some tok) (Some o)
                                 (Some sc) in
  hex_accepts MAX_ARG_CONTENT_SIZE s = true ->
  if (List.length bytes <=? List.length (buffer sc) - N.to_nat (used sc))%nat
  then res = (true, m, Some (V_bytes_u8p (N.to_nat (used sc))),
              Some (scratch_with sc bytes), [])
  else (N.to_nat (used sc) <= List.length (buffer sc))%nat ->
       let after := stray m sc bytes in
       res = (true, fst after,
              Some (V_bytes_u8p (N.to_nat (used (snd after)))),
              Some {| buffer := buffer (snd after);
                      used := (used (snd after)
                               + N.of_nat (List.length bytes))%N |},
              [Stray (List.length (buffer sc))
                     (N.to_nat (used sc) + List.length bytes)]).
Proof.
  cbv zeta. intros Hacc. unfold parse_value_by_type. cbv zeta.
  set (u := N.to_nat (used sc)).
  set (room := skipn u (buffer sc)).
  pose proof (parse_hex_string_spec (load m tok) room MAX_ARG_CONTENT_SIZE 0) as E.
  cbv zeta in E. rewrite Hacc in E. rewrite E. clear E. cbn [fst snd].
  rewrite <- decode_pairs_length.
  set (bytes := decode_pairs (c_str (load m tok))).
  assert (Lroom : List.length room = (List.length (buffer sc) - u)%nat)
    by (subst room; apply length_skipn).
  rewrite length_app, length_skipn, Lroom.
  destruct (Nat.leb_spec (List.length bytes) (List.length (buffer sc) - u))
    as [Hfit|Hover].
  - replace (List.length (buffer sc) - u
             <? List.length bytes + (List.length (buffer sc) - u - List.length bytes))%nat
      with false by (symmetry; apply Nat.ltb_ge; lia).
    cbn [fst snd used buffer]. unfold scratch_with. fold u.
    subst room. rewrite skipn_skipn, (Nat.add_comm (List.length bytes) u).
    reflexivity.
  - intros Hused.
    replace (List.length (buffer sc) - u
             <? List.length bytes + (List.length (buffer sc) - u - List.length bytes))%nat
      with true by (symmetry; apply Nat.ltb_lt; lia).
    cbn [fst snd].
    rewrite (skipn_all2 room) by lia. rewrite app_nil_r.
    replace (u + (List.length (buffer sc) - u))%nat
      with (List.length (buffer sc)) by lia.
    replace (u + (List.length bytes
                  + (List.length (buffer sc) - u - List.length bytes)))%nat
      with (u + List.length bytes)%nat by lia.
    reflexivity.
Qed.

Lemma parse_value_by_type_is (stray : stray_stores) (m : memory)
      (type_e : ce_arg_type_et)
      (tok : char_ptr) (o : ce_arg_value_ut) (sc : scratch_buffer_st) :
  let s := c_str (load m tok) in
  let bytes := argument_bytes type_e s in
  let res := parse_value_by_type stray m type_e (Some tok) (Some o) (Some sc) in
  match typed_value type_e tok s (N.to_nat (used sc)) with
  | Some v =>
      if (List.length bytes <=? List.length (buffer sc) - N.to_nat (used sc))%nat
      then res = (true, m, Some v, Some (scratch_with sc bytes), [])
      else (N.to_nat (used sc) <= List.length (buffer sc))%nat ->
           let after := stray m sc bytes in
           res = (true, fst after,
                  Some (V_bytes_u8p (N.to_nat (used (snd after)))),
                  Some {| buffer := buffer (snd after);
                          used := (used (snd after)
                                   + N.of_nat (List.length bytes))%N |},
                  [Stray (List.length (buffer sc))
                         (N.to_nat (used sc) + List.length bytes)])
  | None =>
      fst (fst (fst (fst res))) = false /\ snd (fst (fst res)) = Some o
  end.
Proof.
  cbv zeta.
  destruct type_e;
    try (unfold parse_value_by_type, typed_value; cbn [argument_bytes List.length];
         rewrite ?scratch_with_nil;
         rewrite ?parse_u8_is, ?parse_u16_is, ?parse_u32_is, ?parse_u64_is,
           ?parse_i8_is, ?parse_i16_is, ?parse_i32_is, ?parse_i64_is,
           ?parse_boolean_token_is;
         try match goal with
             | |- context [unsigned_accepts ?t ?s] => destruct (unsigned_accepts t s)
             | |- context [signed_accepts ?lo ?hi ?s] => destruct (signed_accepts lo hi s)
             | |- context [boolean_value ?s] => destruct (boolean_value s)
             end;
         cbn [into_member fst snd option_map Nat.leb];
         try reflexivity;
         (split; reflexivity)).
  (* TYPE_UINT8_PTR_e *)
  unfold typed_value. cbn [argument_bytes].
  destruct (hex_accepts MAX_ARG_CONTENT_SIZE (c_str (load m tok))) eqn:Hacc.
  - apply (binary_argument_step stray m tok o sc Hacc).
  - unfold parse_value_by_type. cbv zeta.
    pose proof (parse_hex_string_spec (load m tok)
                  (skipn (N.to_nat (used sc)) (buffer sc))
                  MAX_ARG_CONTENT_SIZE 0) as E.
    cbv zeta in E. rewrite Hacc in E. destruct E as [E _].
    destruct (parse_hex_string _ _ _ _) as [[[|] view] [len|]];
      cbn [fst snd] in *; try discriminate; split; reflexivity.
Qed.

(** *** All the arguments *)

Lemma skipn_head {A : Type} (d : A) (l : list A) (k : nat) :
  skipn k l = if (k <? List.length l)%nat then nth k l d :: skipn (S k) l else [].
Proof.
  revert k. induction l as [|x l IH]; intros k; [now destruct k|].
  destruct k; [reflexivity|]. cbn [skipn nth List.length].
  change (S k <? S (List.length l))%nat with (k <? List.length l)%nat.
  rewrite IH. destruct (k <? List.length l)%nat; reflexivity.
Qed.

Lemma firstn_S_upd {A : Type} (i : nat) (v : A) (a : list A) :
  (i < List.length a)%nat -> firstn (S i) (upd i v a) = firstn i a ++ [v].
Proof.
  revert i. induction a as [|x a IH]; intros i Hi; [cbn in Hi; lia|].
  destruct i; [reflexivity|]. cbn [List.length] in Hi.
  cbn [upd]. rewrite !firstn_cons. rewrite IH by lia. reflexivity.
Qed.

Lemma skipn_upd {A : Type} (i k : nat) (v : A) (a : list A) :
  (i < k)%nat -> skipn k (upd i v a) = skipn k a.
Proof.
  revert i k. induction a as [|x a IH]; intros i k Hik; [now destruct i|].
  destruct k; [lia|]. destruct i; cbn [upd skipn]; [reflexivity|].
  apply IH. lia.
Qed.

(** The loop against the values the tokens denote: when they all denote
    one and their bytes fit the room left, the loop stores them and
    nothing else happens; when the bytes do not fit, the first thing on
    record is a store behind the end of the array; and when some token
    denotes no value the loop fails, unless a store has left the array
    before. *)
Lemma parse_arguments_loop_is (stray : stray_stores) (m : memory)
      (sig : ce_signature_st) (toks : list (option char_ptr)) (n : nat) :
  forall (i : nat) (args : list ce_arg_value_ut) (sc : scratch_buffer_st),
    (i + n <= List.length args)%nat ->
    (N.to_nat (used sc) <= List.length (buffer sc))%nat ->
    let res := parse_arguments_loop stray m sig toks n i args sc in
    match argument_values m
            (map (fun j => nth j (types_e sig) TYPE_INVALID_e) (seq i n))
            (skipn (i + 1) toks) (N.to_nat (used sc)) with
    | Some (vs, bytes) =>
        if (N.to_nat (used sc) + List.length bytes <=? List.length (buffer sc))%nat
        then res = (true, m, firstn i args ++ vs ++ skipn (i + n) args,
                    scratch_with sc bytes, [])
        else exists beyond rest,
               snd res = Stray (List.length (buffer sc)) beyond :: rest
               /\ (List.length (buffer sc) < beyond
                   <= N.to_nat (used sc) + List.length bytes)%nat
    | None =>
        in_bounds (snd res) ->
        fst (fst (fst (fst res))) = false /\ snd (fst (fst (fst res))) = m
    end.
Proof.
  induction n as [|n IH]; intros i args sc Hargs Hused; cbv zeta.
  - cbn [seq map argument_values parse_arguments_loop app List.length].
    rewrite Nat.add_0_r.
    replace (N.to_nat (used sc) <=? List.length (buffer sc))%nat with true
      by (symmetry; apply Nat.leb_le; exact Hused).
    now rewrite Nat.add_0_r, firstn_skipn, scratch_with_nil.
  - cbn [seq map argument_values parse_arguments_loop].
    unfold ARG_OFFSET. rewrite (skipn_head None toks (i + 1)).
    destruct (i + 1 <? List.length toks)%nat eqn:Hin.
    2:{ apply Nat.ltb_ge in Hin. rewrite nth_overflow by exact Hin.
        intros _. split; reflexivity. }
    destruct (nth (i + 1) toks None) as [tok|]; [|intros _; split; reflexivity].
    pose proof (parse_value_by_type_is stray m
                  (nth i (types_e sig) TYPE_INVALID_e)
                  tok (nth i args zero_value) sc) as P.
    pose proof (parse_value_by_type_events stray m
                  (nth i (types_e sig) TYPE_INVALID_e)
                  (Some tok) (Some (nth i args zero_value)) (Some sc)) as [_ F].
    cbv zeta in P, F.
    destruct (typed_value _ tok _ _) as [v|].
    2:{ destruct P as [P _].
        destruct (parse_value_by_type _ _ _ _ _ _) as [[[[ok m'] out] sc'] ev].
        cbn [fst snd] in P, F. subst ok. cbn [fst snd].
        intros B. apply in_bounds_app in B as [B _]. split; [reflexivity|].
        apply F. exact B. }
    set (b1 := argument_bytes _ _) in *.
    destruct (Nat.leb_spec (List.length b1)
                           (List.length (buffer sc) - N.to_nat (used sc)))
      as [Hfit|Hover].
    + (* the argument fits *)
      rewrite P. clear P F.
      destruct (scratch_with_fits sc b1 ltac:(lia)) as [Lb Lu].
      specialize (IH (S i) (upd i v args) (scratch_with sc b1)).
      cbv zeta in IH. rewrite upd_length, Lb, Lu in IH.
      specialize (IH ltac:(lia) ltac:(lia)).
      change (S i + 1)%nat with (S (i + 1)) in IH.
      destruct (argument_values m _ _ _) as [[vs more]|].
      * rewrite length_app.
        replace (N.to_nat (used sc) + (List.length b1 + List.length more))%nat
          with (N.to_nat (used sc) + List.length b1 + List.length more)%nat by lia.
        destruct (_ <=? _)%nat.
        -- rewrite IH, scratch_with_app by exact Hused.
           rewrite firstn_S_upd, skipn_upd by lia.
           rewrite <- app_assoc. cbn [app].
           replace (S i + n)%nat with (i + S n)%nat by lia. reflexivity.
        -- destruct IH as (beyond & rest & E & Hb).
           destruct (parse_arguments_loop _ _ _ _ _ _ _ _) as [[[[ok' m''] a] s'] e'].
           cbn [snd app] in *. exists beyond, rest. split; [exact E|lia].
      * intros B.
        destruct (parse_arguments_loop _ _ _ _ _ _ _ _) as [[[[ok' m''] a] s'] e'].
        cbn [fst snd app] in *. apply IH. exact B.
    + (* the argument does not fit *)
      specialize (P Hused). cbv zeta in P. rewrite P. clear P F IH.
      destruct (parse_arguments_loop _ _ _ _ _ _ _ _) as [[[[ok' m''] a] s'] e'].
      cbn [fst snd app].
      destruct (argument_values m _ _ _) as [[vs more]|].
      * rewrite length_app.
        replace (_ <=? _)%nat with false by (symmetry; apply Nat.leb_gt; lia).
        exists (N.to_nat (used sc) + List.length b1)%nat, e'.
        split; [reflexivity|lia].
      * intros B. exfalso. eapply B. now left.
Qed.

Lemma argument_values_length (m : memory) (types : list ce_arg_type_et) :
  forall (tokens : list (option char_ptr)) (at_used : nat)
         (vs : list ce_arg_value_ut) (bytes : list Z),
    argument_values m types tokens at_used = Some (vs, bytes) ->
    List.length vs = List.length types.
Proof.
  induction types as [|ty types IH]; intros tokens at_used vs bytes E.
  - cbn in E. now inversion E.
  - cbn [argument_values] in E. destruct tokens as [|[tok|] tokens]; try discriminate.
    destruct (typed_value _ _ _ _); [|discriminate].
    destruct (argument_values m types tokens _) as [[vs' more]|] eqn:E';
      [|discriminate].
    inversion E. subst. cbn [List.length]. f_equal. eapply IH. exact E'.
Qed.

Lemma parse_arguments_is (stray : stray_stores) (m : memory)
      (sig : ce_signature_st)
      (toks : list (option char_ptr)) (args : list ce_arg_value_ut)
      (sc : scratch_buffer_st) :
  (type_count_u8 sig <= List.length args)%nat ->
  (N.to_nat (used sc) <= List.length (buffer sc))%nat ->
  let res := parse_arguments stray m (Some sig) (Some toks) (Some args)
                             (Some sc) in
  match (if (type_count_u8 sig <=? MAX_PARSABLE_ARGUMENTS)%nat
         then argument_values m (declared_types sig) (skipn 1 toks)
                              (N.to_nat (used sc))
         else None) with
  | Some (vs, bytes) =>
      if (N.to_nat (used sc) + List.length bytes <=? List.length (buffer sc))%nat
      then res = (true, m, Some (vs ++ skipn (type_count_u8 sig) args),
                  Some (scratch_with sc bytes), [])
           /\ List.length vs = type_count_u8 sig
      else exists beyond rest,
             snd res = Stray (List.length (buffer sc)) beyond :: rest
             /\ (List.length (buffer sc) < beyond
                 <= N.to_nat (used sc) + List.length bytes)%nat
  | None =>
      in_bounds (snd res) ->
      fst (fst (fst (fst res))) = false /\ snd (fst (fst (fst res))) = m
      /\ snd res <> []
  end.
Proof.
  intros Hargs Hused. cbv zeta. unfold parse_arguments.
  rewrite Nat.ltb_antisym.
  destruct (type_count_u8 sig <=? MAX_PARSABLE_ARGUMENTS)%nat; cbn [negb];
    [|intros _; repeat split; discriminate].
  pose proof (parse_arguments_loop_is stray m sig toks (type_count_u8 sig) 0
                args sc Hargs Hused) as L.
  pose proof (parse_arguments_loop_events stray sig toks (type_count_u8 sig)
                                          m 0 args sc) as (_ & Ne & _).
  cbv zeta in L, Ne. cbn [Nat.add firstn app] in L.
  unfold declared_types.
  destruct (argument_values m _ _ _) as [[vs bytes]|] eqn:E.
  - destruct (_ <=? _)%nat.
    + rewrite L. split; [reflexivity|].
      apply argument_values_length in E.
      now rewrite E, length_map, length_seq.
    + destruct L as (beyond & rest & Ev & Hb).
      destruct (parse_arguments_loop _ _ _ _ _ _ _ _) as [[[[ok m'] a] s'] e].
      cbn [snd] in *. now exists beyond, rest.
  - intros B.
    destruct (parse_arguments_loop _ _ _ _ _ _ _ _) as [[[[ok m'] a] s'] e].
    cbn [fst snd] in *. destruct (L B) as [L1 L2]. subst ok.
    repeat split; try assumption.
    intros ->. specialize (Ne eq_refl). discriminate.
Qed.

(** One turn of the loop on an argument that fits, and on one that does
    not. *)
Lemma loop_step_fits (stray : stray_stores) (m : memory) (sig : ce_signature_st)
      (toks : list (option char_ptr)) (n i : nat)
      (args : list ce_arg_value_ut) (sc : scratch_buffer_st)
      (tok : char_ptr) (v : ce_arg_value_ut) :
  let type_e := nth i (types_e sig) TYPE_INVALID_e in
  let bytes := argument_bytes type_e (c_str (load m tok)) in
  nth (i + 1) toks None = Some tok ->
  typed_value type_e tok (c_str (load m tok)) (N.to_nat (used sc)) = Some v ->
  (List.length bytes <= List.length (buffer sc) - N.to_nat (used sc))%nat ->
  parse_arguments_loop stray m sig toks (S n) i args sc
  = parse_arguments_loop stray m sig toks n (S i) (upd i v args)
                         (scratch_with sc bytes).
Proof.
  cbv zeta. intros Htok Hval Hfit. cbn [parse_arguments_loop].
  unfold ARG_OFFSET. rewrite Htok.
  pose proof (parse_value_by_type_is stray m (nth i (types_e sig) TYPE_INVALID_e)
                tok (nth i args zero_value) sc) as P.
  cbv zeta in P. rewrite Hval in P.
  replace (_ <=? _)%nat with true in P by (symmetry; apply Nat.leb_le; exact Hfit).
  rewrite P.
  now destruct (parse_arguments_loop _ _ _ _ _ _ _ _) as [[[[ok' m''] a] s'] e'].
Qed.

Lemma loop_step_overrun (stray : stray_stores) (m : memory)
      (sig : ce_signature_st)
      (toks : list (option char_ptr)) (n i : nat)
      (args : list ce_arg_value_ut) (sc : scratch_buffer_st)
      (tok : char_ptr) (v : ce_arg_value_ut) :
  let type_e := nth i (types_e sig) TYPE_INVALID_e in
  let bytes := argument_bytes type_e (c_str (load m tok)) in
  nth (i + 1) toks None = Some tok ->
  typed_value type_e tok (c_str (load m tok)) (N.to_nat (used sc)) = Some v ->
  (N.to_nat (used sc) <= List.length (buffer sc))%nat ->
  (List.length (buffer sc) - N.to_nat (used sc) < List.length bytes)%nat ->
  exists rest,
    snd (parse_arguments_loop stray m sig toks (S n) i args sc)
    = Stray (List.length (buffer sc))
            (N.to_nat (used sc) + List.length bytes) :: rest.
Proof.
  cbv zeta. intros Htok Hval Hused Hover. cbn [parse_arguments_loop].
  unfold ARG_OFFSET. rewrite Htok.
  pose proof (parse_value_by_type_is stray m (nth i (types_e sig) TYPE_INVALID_e)
                tok (nth i args zero_value) sc) as P.
  cbv zeta in P. rewrite Hval in P.
  replace (_ <=? _)%nat with false in P by (symmetry; apply Nat.leb_gt; exact Hover).
  specialize (P Hused). cbv zeta in P. rewrite P.
  destruct (parse_arguments_loop _ _ _ _ _ _ _ _) as [[[[ok' m''] a] s'] e'].
  cbn [snd app]. now exists e'.
Qed.

(** *** What the values are, one by one *)

Lemma firstn_skipn_app {A : Type} (l1 l2 b : list A) (n k : nat) :
  List.length b = n -> firstn n (skipn k l1) = b ->
  firstn n (skipn k (l1 ++ l2)) = b.
Proof.
  intros Hb E. rewrite skipn_app, firstn_app.
  assert (n <= List.length (skipn k l1))%nat.
  { rewrite <- Hb, <- E, length_firstn. lia. }
  replace (n - List.length (skipn k l1))%nat with 0%nat by lia.
  cbn [firstn]. now rewrite app_nil_r.
Qed.

Lemma argument_values_nth (m : memory) (types : list ce_arg_type_et) :
  forall (tokens : list (option char_ptr)) (at_used : nat)
         (vs : list ce_arg_value_ut) (bytes : list Z),
    argument_values m types tokens at_used = Some (vs, bytes) ->
    forall i, (i < List.length types)%nat ->
      exists q k,
        nth i tokens None = Some q
        /\ typed_value (nth i types TYPE_INVALID_e) q (c_str (load m q))
                       (at_used + k)
           = Some (nth i vs zero_value)
        /\ firstn (List.length (argument_bytes (nth i types TYPE_INVALID_e)
                                               (c_str (load m q))))
                  (skipn k bytes)
           = argument_bytes (nth i types TYPE_INVALID_e) (c_str (load m q))
        /\ (k + List.length (argument_bytes (nth i types TYPE_INVALID_e)
                                            (c_str (load m q)))
            <= List.length bytes)%nat.
Proof.
  induction types as [|ty types IH]; intros tokens at_used vs bytes E i Hi;
    [cbn in Hi; lia|].
  cbn [argument_values] in E. destruct tokens as [|[tok|] tokens]; try discriminate.
  destruct (typed_value ty tok _ at_used) as [v|] eqn:Ev; [|discriminate].
  destruct (argument_values m types tokens _) as [[vs' more]|] eqn:E';
    [|discriminate].
  inversion E. subst vs bytes. clear E.
  destruct i as [|i].
  - exists tok, 0%nat. cbn [nth skipn]. rewrite Nat.add_0_r.
    split; [reflexivity|]. split; [exact Ev|].
    split; [now apply firstn_exact|rewrite length_app; lia].
  - cbn [List.length] in Hi.
    destruct (IH _ _ _ _ E' i ltac:(lia)) as (q & k & Hq & Hv & Hb & Hk).
    exists q, (List.length (argument_bytes ty (c_str (load m tok))) + k)%nat.
    cbn [nth]. split; [exact Hq|]. split; [now rewrite Nat.add_assoc|].
    split; [now rewrite skipn_past with (k := k) by reflexivity|].
    rewrite length_app. lia.
Qed.

Lemma argument_values_bytes (m : memory) (types : list ce_arg_type_et) :
  forall (tokens : list (option char_ptr)) (at_used : nat)
         (vs : list ce_arg_value_ut) (bytes : list Z),
    argument_values m types tokens at_used = Some (vs, bytes) ->
    (List.length bytes
     <= N.to_nat MAX_ARG_CONTENT_SIZE * binary_arguments types)%nat.
Proof.
  unfold binary_arguments.
  induction types as [|ty types IH]; intros tokens at_used vs bytes E.
  - cbn in E. inversion E. cbn. lia.
  - cbn [argument_values] in E.
    destruct tokens as [|[tok|] tokens]; try discriminate.
    destruct (typed_value ty tok _ at_used) as [v|] eqn:Ev; [|discriminate].
    destruct (argument_values m types tokens _) as [[vs' more]|] eqn:E';
      [|discriminate].
    inversion E. subst vs bytes. clear E. apply IH in E'.
    rewrite length_app. cbn [filter].
    destruct ty; cbn [argument_bytes is_binary List.length]; try lia.
    unfold typed_value in Ev.
    destruct (hex_accepts _ _) eqn:Hx; [|discriminate].
    unfold hex_accepts in Hx. apply andb_true_iff in Hx as [_ Hx].
    apply N.leb_le in Hx. rewrite decode_pairs_length. lia.
Qed.

Lemma nth_map_seq {A : Type} (f : nat -> A) (d : A) (n : nat) :
  forall a i, (i < n)%nat -> nth i (map f (seq a n)) d = f (a + i)%nat.
Proof.
  induction n as [|n IH]; intros a i Hi; [lia|].
  cbn [seq map]. destruct i as [|i]; cbn [nth]; [now rewrite Nat.add_0_r|].
  rewrite IH by lia. f_equal. lia.
Qed.

Lemma nth_declared_types (sig : ce_signature_st) (i : nat) :
  (i < type_count_u8 sig)%nat ->
  nth i (declared_types sig) TYPE_INVALID_e = nth i (types_e sig) TYPE_INVALID_e.
Proof. intros Hi. unfold declared_types. now rewrite nth_map_seq. Qed.

Lemma declared_types_length (sig : ce_signature_st) :
  List.length (declared_types sig) = type_count_u8 sig.
Proof. unfold declared_types. now rewrite length_map, length_seq. Qed.

Lemma handler_calls_errs (ev : list event) :
  forallb is_err ev = true -> handler_calls ev = [].
Proof.
  unfold handler_calls. induction ev as [|e ev IH]; [reflexivity|].
  cbn [forallb filter]. intros H. apply andb_true_iff in H as [He Hr].
  destruct e; try discriminate. cbn [is_invoke]. now apply IH.
Qed.

Lemma handler_calls_strays (ev : list event) :
  forallb is_stray ev = true -> handler_calls ev = [].
Proof.
  unfold handler_calls. induction ev as [|e ev IH]; [reflexivity|].
  cbn [forallb filter]. intros H. apply andb_true_iff in H as [He Hr].
  destruct e; try discriminate. cbn [is_invoke]. now apply IH.
Qed.

Lemma skipn_repeat {A : Type} (v : A) (n k : nat) :
  skipn k (repeat v n) = repeat v (n - k).
Proof.
  revert k. induction n as [|n IH]; intros k; [now destruct k|].
  destruct k; [reflexivity|]. cbn [repeat skipn Nat.sub]. apply IH.
Qed.

(** *** Signatures with one binary argument at most *)

Lemma binary_arguments_cons (ty : ce_arg_type_et) (types : list ce_arg_type_et) :
  binary_arguments (ty :: types)
  = ((if is_binary ty then 1 else 0) + binary_arguments types)%nat.
Proof. unfold binary_arguments. cbn [filter]. now destruct (is_binary ty). Qed.

(** Nothing but a binary argument touches the scratch buffer. *)
Lemma scalar_argument_step (stray : stray_stores) (m : memory)
      (type_e : ce_arg_type_et) (tok : char_ptr) (o : ce_arg_value_ut)
      (sc : scratch_buffer_st) :
  is_binary type_e = false ->
  let res := parse_value_by_type stray m type_e (Some tok) (Some o) (Some sc) in
  snd (fst (fst (fst res))) = m
  /\ snd (fst res) = Some sc
  /\ forallb is_err (snd res) = true.
Proof.
  intros Hty. cbv zeta. unfold parse_value_by_type.
  destruct type_e; try discriminate; cbn [fst snd]; repeat split; reflexivity.
Qed.

Lemma one_binary_in_bounds (stray : stray_stores) (sig : ce_signature_st)
      (toks : list (option char_ptr)) (n : nat) :
  forall (m : memory) (i : nat) (args : list ce_arg_value_ut)
         (sc : scratch_buffer_st),
    let types := map (fun j => nth j (types_e sig) TYPE_INVALID_e) (seq i n) in
    binary_arguments types = 0%nat
    \/ ((binary_arguments types <= 1)%nat /\ used sc = 0%N
        /\ (N.to_nat MAX_ARG_CONTENT_SIZE <= List.length (buffer sc))%nat) ->
    in_bounds (snd (parse_arguments_loop stray m sig toks n i args sc)).
Proof.
  induction n as [|n IH]; intros m i args sc; cbv zeta; [intros _; apply in_bounds_nil|].
  cbn [seq map parse_arguments_loop]. rewrite binary_arguments_cons.
  set (type_e := nth i (types_e sig) TYPE_INVALID_e).
  intros Hone.
  destruct (nth (i + ARG_OFFSET) toks None) as [tok|];
    [|cbn [snd]; now apply in_bounds_errs].
  destruct (is_binary type_e) eqn:Hty.
  - (* the binary argument: the scratch buffer is empty *)
    destruct Hone as [Hone|(Hone & Hused & Hroom)]; [lia|].
    assert (Hrest : binary_arguments
                      (map (fun j => nth j (types_e sig) TYPE_INVALID_e)
                           (seq (S i) n)) = 0%nat) by lia.
    destruct type_e; try discriminate.
    unfold parse_value_by_type. cbv zeta. rewrite Hused. cbn [N.to_nat skipn].
    pose proof (parse_hex_string_room (load m tok) (buffer sc)
                  MAX_ARG_CONTENT_SIZE 0 Hroom) as R.
    destruct (parse_hex_string _ _ _ _) as [[ok view] len]. cbn [fst snd] in *.
    rewrite R, Nat.ltb_irrefl. cbn [fst snd].
    destruct ok, len as [len|]; cbn [app];
      try (now apply in_bounds_errs).
    match goal with
    | |- context [parse_arguments_loop stray ?m' sig toks n (S i) ?a ?s] =>
        specialize (IH m' (S i) a s (or_introl Hrest));
        destruct (parse_arguments_loop stray m' sig toks n (S i) a s)
          as [[[[ok' m''] a'] s'] e']
    end.
    exact IH.
  - (* any other argument leaves the scratch buffer alone *)
    destruct (scalar_argument_step stray m type_e tok (nth i args zero_value) sc Hty)
      as (Hm & Hsc & Herr).
    destruct (parse_value_by_type _ _ _ _ _ _) as [[[[ok m'] out] sc'] ev].
    cbn [fst snd] in Hm, Hsc, Herr. subst m' sc'.
    destruct ok.
    + specialize (IH m (S i)
                     (match out with Some v => upd i v args | None => args end) sc).
      cbv zeta in IH. cbn [Nat.add] in Hone. specialize (IH Hone).
      destruct (parse_arguments_loop _ _ _ _ _ _ _ _) as [[[[ok' m''] a] s'] e'].
      cbn [snd] in *. apply in_bounds_app. split; [now apply in_bounds_errs|exact IH].
    + cbn [snd]. apply in_bounds_errs. now rewrite forallb_app, Herr.
Qed.
Section Engine.

Variable char_is_signed : bool.
Variable ce_table : list ce_signature_st.
Variable ce_invoke_handler :
  ce_signature_st -> list ce_arg_value_ut -> memory -> scratch_buffer_st -> bool.
Variable stray : stray_stores.

Abbreviation dispatch :=
  (ce_dispatch_from_line char_is_signed ce_table ce_invoke_handler stray).

(** Every dispatch goes one of the two ways, and leaves the caller's
    memory as it found it when no store has left the scratch buffer. *)
Lemma dispatch_shape (m : memory) (line_str : option nat) :
  dispatch_trace ce_invoke_handler (fst (fst (dispatch m line_str)))
                 (snd (dispatch m line_str))
  /\ (in_bounds (snd (dispatch m line_str)) ->
      caller_mem (snd (fst (dispatch m line_str))) = caller_mem m).
Proof.
  unfold ce_dispatch_from_line.
  destruct line_str as [o|];
    [|split; [apply (trace_failed _ [] [] [_]);
                [now left|reflexivity|discriminate|reflexivity]
             |reflexivity]].
  destruct (_ <=? _)%N;
    [split; [apply (trace_failed _ [] [] [_]);
               [now left|reflexivity|discriminate|reflexivity]
            |reflexivity]|].
  match goal with
  | |- context [parse_line_to_tokens ?m0 ?p ?t ?c] =>
      pose proof (parse_line_to_tokens_events m0 p t c) as (T1 & T2 & T3);
      assert (Frame : caller_mem (snd (fst (fst (fst
                        (parse_line_to_tokens m0 p t c))))) = caller_mem m);
      [ unfold parse_line_to_tokens, store; cbn [blk off];
        repeat match goal with
               | |- context [let '(_, _) := ?e in _] => destruct e
               | |- context [if ?b then _ else _] => destruct b
               end; reflexivity
      | destruct (parse_line_to_tokens m0 p t c) as [[[[ok m1] toks] cnt] ev] ]
  end.
  cbn [fst snd] in T1, T2, T3, Frame. destruct ok.
  2:{ split; [|intros _; exact Frame].
      apply (trace_failed _ calls_upto_tokenize [] ev);
        [right; now left | reflexivity | now apply T3 | exact T1]. }
  rewrite (T2 eq_refl). cbn [app fst snd].
  set (tokens_apc := match toks with Some t => t | None => _ end).
  set (tokens_count := match cnt with Some n => n | None => O end).
  assert (NoCmd : dispatch_trace ce_invoke_handler false
                    ([Call F_parse_line_to_tokens] ++ [] ++ [Err E_no_command])).
  { apply (trace_failed _ calls_upto_tokenize [] [_]);
      [right; now left | reflexivity | discriminate | reflexivity]. }
  destruct tokens_count as [|n]; [split; [exact NoCmd|intros _; exact Frame]|].
  destruct (nth 0 tokens_apc None) as [tok0|];
    [|split; [exact NoCmd|intros _; exact Frame]].
  destruct (lookup_signature_by_hash ce_table _) as [sig|].
  2:{ split; [|intros _; exact Frame].
      apply (trace_failed _ calls_upto_resolve [] [_]);
        [right; right; now left | reflexivity | discriminate | reflexivity]. }
  pose proof (validate_argument_count_events (S n) (Some sig)) as (V1 & V2 & V3).
  destruct (validate_argument_count (S n) (Some sig)) as [[|] ev'];
    cbn [fst snd] in V1, V2, V3.
  2:{ split; [|intros _; exact Frame].
      apply (trace_failed _ calls_upto_arity [] ev');
        [do 3 right; now left | reflexivity | now apply V3 | exact V1]. }
  rewrite (V2 eq_refl). cbn [app]. unfold dispatch_command.
  match goal with
  | |- context [parse_arguments ?st ?m0 ?s ?t ?a ?c] =>
      pose proof (parse_arguments_events st m0 s t a c)
        as ((strays & errs & Eev & Hs & He & Hok) & _ & PF);
      destruct (parse_arguments st m0 s t a c) as [[[[ok m2] args'] sc'] ev'']
  end.
  cbv zeta in Eev, Hok, PF. cbn [fst snd] in Eev, Hok, PF. subst ev''.
  assert (Mem : forall last,
            in_bounds ([Call F_parse_line_to_tokens; Call F_lookup_signature_by_hash;
                        Call F_validate_argument_count; Call F_dispatch_command;
                        Call F_parse_arguments] ++ (strays ++ errs) ++ [last]) ->
            caller_mem m2 = caller_mem m).
  { intros last B. apply in_bounds_app in B as [_ B].
    apply in_bounds_app in B as [B _]. rewrite (PF B). exact Frame. }
  assert (Failed : dispatch_trace ce_invoke_handler false
            ([Call F_parse_line_to_tokens; Call F_lookup_signature_by_hash;
              Call F_validate_argument_count; Call F_dispatch_command;
              Call F_parse_arguments] ++ (strays ++ errs)
             ++ [Err E_failed_command_arguments])).
  { rewrite <- app_assoc.
    apply (trace_failed _ calls_upto_parse strays (errs ++ [_]));
      [do 4 right; now left | exact Hs | destruct errs; discriminate
      | rewrite forallb_app, He; reflexivity]. }
  destruct ok; [|split; [exact Failed|apply Mem]].
  destruct args' as [args'|]; [|split; [exact Failed|apply Mem]].
  destruct sc' as [sc'|]; [|split; [exact Failed|apply Mem]].
  rewrite (Hok eq_refl), app_nil_r in *. split; [|apply Mem].
  apply (trace_invoked ce_invoke_handler strays sig args' m2 sc' Hs).
Qed.
(** *** What follows from the shape of a dispatch *)









(** *** The inputs that never reach a handler *)


(** The hash reads its argument up to the terminator only. *)
Lemma hash_of_c_str (buf : cbuf) :
  CeHash.ce_hash_calculate char_is_signed (Some buf)
  = CeHash.ce_hash_calculate char_is_signed (Some (c_str buf)).
Proof.
  unfold CeHash.ce_hash_calculate.
  now rewrite !HashFacts.hash_loop_fold, c_str_idem.
Qed.

Lemma upd_padding {A : Type} (v : A) (a : list A) (n i : nat) :
  (List.length a <= i)%nat -> upd i v (a ++ repeat v n) = a ++ repeat v n.
Proof.
  revert i. induction a as [|x a IH]; intros i Hi.
  - cbn [app]. clear Hi. revert i.
    induction n as [|n IHn]; intros i; [now destruct i|].
    cbn [repeat]. destruct i; cbn [upd]; [reflexivity|]. now rewrite IHn.
  - cbn [List.length] in Hi. destruct i; [lia|].
    cbn [app upd]. rewrite IH by lia. reflexivity.
Qed.

(** The copy of the line holds the string of the line. *)
Lemma line_copy (src : cbuf) (size : nat) :
  (List.length (c_str src) < size)%nat ->
  c_str (upd (size - 1) zero_char
             (strncpy (repeat zero_char size) src (size - 1)))
  = c_str src.
Proof.
  intros Hlen. unfold strncpy. rewrite firstn_all2 by lia.
  assert (R : repeat zero_char size
              = repeat zero_char (size - 1) ++ repeat zero_char 1)
    by (rewrite <- repeat_app; f_equal; lia).
  rewrite R, skipn_app, repeat_length, Nat.sub_diag.
  rewrite skipn_all2 by (rewrite repeat_length; lia).
  cbn [app skipn]. rewrite <- repeat_app, upd_padding by lia.
  rewrite c_str_app by apply c_str_no_nul.
  replace (size - 1 - List.length (c_str src) + 1)%nat
    with (S (size - 1 - List.length (c_str src))) by lia.
  cbn [repeat c_str]. change (is_nul zero_char) with true. cbv iota.
  apply app_nil_r.
Qed.



(** *** A dispatch, stage by stage *)

(** Up to the arguments, a dispatch is decided by the tokens of the line.
    The scanner leaves one pointer per token, into the local copy of the
    line; the rest is [dispatch_command] on the entry found, when there is
    one and it declares as many arguments as the line has. *)
Lemma dispatch_is (m : memory) (o : nat) :
  let s := c_str (skipn o (caller_mem m)) in
  (strlen (skipn o (caller_mem m)) < MAX_LINE_BUF_SIZE)%N ->
  let res := dispatch m (Some o) in
  let n := count_tokens false s in
  exists m2 toks,
    caller_mem m2 = caller_mem m
    /\ (forall i, (i < Nat.min MAX_TOKENS n)%nat ->
          exists q, nth i toks None = Some q
                    /\ blk q = LineBuf
                    /\ c_str (load m2 q) = nth_word i s)
    /\ (forall i, (Nat.min MAX_TOKENS n <= i)%nat -> nth i toks None = None)
    /\ match (if (0 <? n)%nat && (n <=? MAX_TOKENS)%nat
              then lookup_signature_by_hash ce_table
                     (CeHash.ce_hash_calculate char_is_signed
                                               (Some (nth_word 0 s)))
              else None) with
       | Some sig =>
           if (n =? S (type_count_u8 sig))%nat
           then res = (let r := dispatch_command ce_invoke_handler stray m2
                                                 (Some sig) (Some toks) in
                       (fst (fst r), snd (fst r),
                        calls_upto_arity ++ Call F_dispatch_command :: snd r))
           else fst res = (false, m2) /\ uneventful (snd res)
       | None => fst res = (false, m2) /\ uneventful (snd res)
       end.
Proof.
  cbv zeta. intros Hshort. unfold ce_dispatch_from_line. cbv zeta.
  cbn [line_buf caller_mem].
  set (m0 := {| caller_mem := caller_mem m;
                line_buf := repeat zero_char (N.to_nat MAX_LINE_BUF_SIZE) |}).
  change (load m0 {| blk := CallerMem; off := o |})
    with (skipn o (caller_mem m)).
  destruct (N.leb_spec MAX_LINE_BUF_SIZE (strlen (skipn o (caller_mem m))))
    as [Hlong|_]; [lia|].
  set (src := skipn o (caller_mem m)) in *.
  set (size := N.to_nat MAX_LINE_BUF_SIZE).
  assert (Hcopy : c_str (upd (size - 1) zero_char
                    (strncpy (repeat zero_char size) src (size - 1)))
                  = c_str src).
  { apply line_copy. unfold strlen, MAX_LINE_BUF_SIZE in Hshort. subst size.
    unfold MAX_LINE_BUF_SIZE. lia. }
  set (m1 := {| caller_mem := caller_mem m;
                line_buf := upd (size - 1) zero_char
                              (strncpy (repeat zero_char size) src (size - 1)) |}).
  set (lb := {| blk := LineBuf; off := 0 |}).
  assert (Hload : c_str (load m1 lb) = c_str src) by exact Hcopy.
  pose proof (parse_line_to_tokens_spec m1 lb (repeat None MAX_TOKENS) O)
    as (Eok & B & F & T).
  pose proof (parse_line_to_tokens_tokens m1 lb (repeat None MAX_TOKENS) O
                ltac:(cbn; lia) ltac:(rewrite repeat_length; lia))
    as (toks & Etoks & Read & Rest).
  pose proof (scanner_frame m1 lb (repeat None MAX_TOKENS) O eq_refl) as Frame.
  cbv zeta in Eok, B, F, T, Etoks, Read, Rest, Frame.
  rewrite Hload in *. rewrite B in Eok. clear B.
  destruct (parse_line_to_tokens m1 (Some lb) (Some (repeat None MAX_TOKENS))
                                 (Some O)) as [[[[ok m2] toks0] cnt] ev].
  cbn [fst snd] in *. subst toks0. exists m2, toks.
  split; [exact Frame|]. split; [exact Read|]. split.
  { intros i Hi. rewrite (Rest i Hi). apply nth_repeat. }
  destruct (Nat.ltb_spec MAX_TOKENS (count_tokens false (c_str src))) as [Hmany|Hfew];
    cbn [negb] in Eok; subst ok.
  { destruct (F eq_refl) as [-> _]. cbn [fst snd].
    replace (count_tokens false (c_str src) <=? MAX_TOKENS)%nat with false
      by (symmetry; apply Nat.leb_gt; exact Hmany).
    rewrite andb_false_r. split; reflexivity. }
  destruct (T eq_refl) as [-> ->]. clear F T. cbn [app].
  replace (count_tokens false (c_str src) <=? MAX_TOKENS)%nat with true
    by (symmetry; apply Nat.leb_le; exact Hfew).
  rewrite andb_true_r.
  destruct (count_tokens false (c_str src)) as [|n] eqn:Hn;
    [split; reflexivity|].
  change (0 <? S n)%nat with true. cbv iota.
  destruct (Read 0%nat ltac:(lia)) as (q & E0 & _ & Hread).
  rewrite E0.
  rewrite (hash_of_c_str (load m2 q)), Hread.
  destruct (lookup_signature_by_hash ce_table _) as [sig|];
    [|split; reflexivity].
  unfold validate_argument_count.
  change (0 <? S n)%nat with true. cbv iota.
  replace (S n - 1)%nat with n by lia.
  change (S n =? S (type_count_u8 sig))%nat with (n =? type_count_u8 sig)%nat.
  destruct (Nat.eqb_spec n (type_count_u8 sig)) as [Hcount|_]; cbn [negb];
    [|split; reflexivity].
  now destruct (dispatch_command _ _ _ _ _) as [[ok m3] ev3].
Qed.

(** The arguments of a command, and the call of its handler. *)
Lemma dispatch_command_is (m : memory) (sig : ce_signature_st)
      (toks : list (option char_ptr)) :
  (type_count_u8 sig <= MAX_PARSABLE_ARGUMENTS)%nat ->
  let r := dispatch_command ce_invoke_handler stray m (Some sig) (Some toks) in
  match argument_values m (declared_types sig) (skipn 1 toks) 0 with
  | Some (vs, bytes) =>
      if (List.length bytes <=? N.to_nat MAX_ARG_CONTENT_SIZE)%nat
      then let args := vs ++ repeat zero_value (MAX_TOKENS - type_count_u8 sig) in
           let sc := scratch_with empty_scratch bytes in
           r = (ce_invoke_handler sig args m sc, m,
                [Call F_parse_arguments; Invoke sig args m sc])
           /\ List.length vs = type_count_u8 sig
      else exists beyond rest,
             snd r = Call F_parse_arguments
                     :: Stray (N.to_nat MAX_ARG_CONTENT_SIZE) beyond :: rest
             /\ (N.to_nat MAX_ARG_CONTENT_SIZE < beyond <= List.length bytes)%nat
  | None =>
      in_bounds (snd r) ->
      fst r = (false, m) /\ handler_calls (snd r) = []
  end.
Proof.
  intros Hcount. cbv zeta. unfold dispatch_command. fold empty_scratch.
  pose proof (parse_arguments_is stray m sig toks (repeat zero_value MAX_TOKENS)
                empty_scratch
                ltac:(rewrite repeat_length;
                      unfold MAX_PARSABLE_ARGUMENTS, ARG_OFFSET in Hcount; lia)
                ltac:(cbn; lia)) as P.
  pose proof (parse_arguments_events stray m (Some sig) (Some toks)
                (Some (repeat zero_value MAX_TOKENS)) (Some empty_scratch))
    as ((strays & errs & Eev & Hs & He & Hok) & _ & _).
  cbv zeta in P, Eev, Hok.
  replace (type_count_u8 sig <=? MAX_PARSABLE_ARGUMENTS)%nat with true in P
    by (symmetry; apply Nat.leb_le; exact Hcount).
  change (N.to_nat (used empty_scratch)) with 0%nat in P.
  change (List.length (buffer empty_scratch))
    with (N.to_nat MAX_ARG_CONTENT_SIZE) in P.
  cbn [Nat.add] in P.
  destruct (argument_values m (declared_types sig) (skipn 1 toks) 0)
    as [[vs bytes]|].
  - destruct (_ <=? _)%nat.
    + destruct P as [-> Lvs]. rewrite skipn_repeat. cbn [fst snd app].
      split; [reflexivity|exact Lvs].
    + destruct P as (beyond & rest & Ev & Hb).
      destruct (parse_arguments _ _ _ _ _ _) as [[[[ok m'] args'] sc'] ev'].
      cbn [snd] in Ev. subst ev'.
      exists beyond.
      destruct ok, args' as [args'|], sc' as [sc'|]; cbn [snd app];
        eexists; (split; [reflexivity|exact Hb]).
  - intros B.
    destruct (parse_arguments _ _ _ _ _ _) as [[[[ok m'] args'] sc'] ev'].
    cbn [fst snd] in *.
    assert (B' : in_bounds ev').
    { destruct ok, args' as [args'|], sc' as [sc'|]; cbn [snd] in B;
        apply in_bounds_cons in B as [_ B];
        apply in_bounds_app in B as [B _]; exact B. }
    destruct (P B') as (-> & -> & _). cbn [fst snd].
    split; [reflexivity|]. subst ev'.
    unfold handler_calls. cbn [filter is_invoke]. rewrite !filter_app.
    fold (handler_calls strays). fold (handler_calls errs).
    now rewrite handler_calls_strays, handler_calls_errs.
Qed.

(** What [dispatch_command] leaves on record: its call of
    [parse_arguments], what that call recorded, and one more event. *)
Lemma dispatch_command_events (m : memory) (sig : ce_signature_st)
      (toks : list (option char_ptr)) :
  (type_count_u8 sig <= MAX_PARSABLE_ARGUMENTS)%nat ->
  exists last,
    is_stray last = false
    /\ snd (dispatch_command ce_invoke_handler stray m (Some sig) (Some toks))
       = Call F_parse_arguments
         :: snd (parse_arguments_loop stray m sig toks (type_count_u8 sig) 0
                                      (repeat zero_value MAX_TOKENS)
                                      empty_scratch)
         ++ [last].
Proof.
  intros Hcount. unfold dispatch_command, parse_arguments. fold empty_scratch.
  replace (MAX_PARSABLE_ARGUMENTS <? type_count_u8 sig)%nat with false
    by (symmetry; apply Nat.ltb_ge; exact Hcount).
  destruct (parse_arguments_loop _ _ _ _ _ _ _ _) as [[[[ok m'] a] s'] e].
  destruct ok; cbn [snd]; eexists; (split; [|reflexivity]); reflexivity.
Qed.

(** The defect in general: a command whose first two arguments are
    binary, on a line whose first two arguments are hex strings of [k1] and
    [k2] bytes with [k1 + k2] above [MAX_ARG_CONTENT_SIZE].  Each is held
    against the whole capacity, so both are accepted, and the second is
    stored from [buffer + k1] on, up to [buffer[k1 + k2 - 1]]: the first
    thing the dispatch does after its five calls is to store behind the
    end of the array. *)
Lemma second_binary_overruns (m : memory) (o : nat) (sig : ce_signature_st) :
  let s := c_str (skipn o (caller_mem m)) in
  let k1 := Nat.div2 (List.length (nth_word 1 s)) in
  let k2 := Nat.div2 (List.length (nth_word 2 s)) in
  (strlen (skipn o (caller_mem m)) < MAX_LINE_BUF_SIZE)%N ->
  count_tokens false s = S (type_count_u8 sig) ->
  (2 <= type_count_u8 sig <= MAX_PARSABLE_ARGUMENTS)%nat ->
  lookup_signature_by_hash ce_table
    (CeHash.ce_hash_calculate char_is_signed (Some (nth_word 0 s))) = Some sig ->
  nth 0 (types_e sig) TYPE_INVALID_e = TYPE_UINT8_PTR_e ->
  nth 1 (types_e sig) TYPE_INVALID_e = TYPE_UINT8_PTR_e ->
  hex_accepts MAX_ARG_CONTENT_SIZE (nth_word 1 s) = true ->
  hex_accepts MAX_ARG_CONTENT_SIZE (nth_word 2 s) = true ->
  (N.to_nat MAX_ARG_CONTENT_SIZE < k1 + k2)%nat ->
  firstn 6 (snd (dispatch m (Some o)))
  = calls_upto_parse ++ [Stray (N.to_nat MAX_ARG_CONTENT_SIZE) (k1 + k2)].
Proof.
  cbv zeta. intros Hshort Hn Htc Hlook Ht0 Ht1 Hx1 Hx2 Hover.
  destruct (dispatch_is m o Hshort) as (m2 & toks & _ & Read & _ & D).
  cbv zeta in Read, D. rewrite Hn in Read, D.
  unfold MAX_PARSABLE_ARGUMENTS, ARG_OFFSET, MAX_TOKENS in Htc.
  replace ((0 <? S (type_count_u8 sig))%nat
           && (S (type_count_u8 sig) <=? MAX_TOKENS)%nat) with true in D
    by (symmetry; apply andb_true_iff; split;
        [apply Nat.ltb_lt|apply Nat.leb_le; unfold MAX_TOKENS]; lia).
  rewrite Hlook, Nat.eqb_refl in D. rewrite D. clear D. cbn [snd].
  destruct (dispatch_command_events m2 sig toks
              ltac:(unfold MAX_PARSABLE_ARGUMENTS, ARG_OFFSET, MAX_TOKENS; lia))
    as (last & _ & ->).
  destruct (Read 1%nat ltac:(unfold MAX_TOKENS; lia)) as (q1 & E1 & _ & R1).
  destruct (Read 2%nat ltac:(unfold MAX_TOKENS; lia)) as (q2 & E2 & _ & R2).
  destruct (type_count_u8 sig) as [|[|n]]; [lia|lia|].
  assert (Hx : hex_accepts MAX_ARG_CONTENT_SIZE
                 (nth_word 1 (c_str (skipn o (caller_mem m)))) = true) by exact Hx1.
  unfold hex_accepts in Hx. apply andb_true_iff in Hx as [_ Hx].
  apply N.leb_le in Hx.
  rewrite (loop_step_fits stray m2 sig toks (S n) 0
             (repeat zero_value MAX_TOKENS) empty_scratch q1 (V_bytes_u8p 0)).
  2:{ exact E1. }
  2:{ rewrite Ht0, R1. unfold typed_value. now rewrite Hx1. }
  2:{ rewrite Ht0, R1. cbn [argument_bytes]. rewrite decode_pairs_length.
      change (List.length (buffer empty_scratch))
        with (N.to_nat MAX_ARG_CONTENT_SIZE).
      change (N.to_nat (used empty_scratch)) with 0%nat. lia. }
  rewrite Ht0, R1. cbn [argument_bytes].
  set (sc1 := scratch_with empty_scratch _).
  assert (Fit : (N.to_nat (used empty_scratch)
                 + List.length (decode_pairs
                                  (nth_word 1 (c_str (skipn o (caller_mem m)))))
                 <= List.length (buffer empty_scratch))%nat).
  { rewrite decode_pairs_length.
    change (List.length (buffer empty_scratch))
      with (N.to_nat MAX_ARG_CONTENT_SIZE).
    change (N.to_nat (used empty_scratch)) with 0%nat. lia. }
  destruct (scratch_with_fits empty_scratch _ Fit) as [Lb Lu].
  fold sc1 in Lb, Lu. rewrite decode_pairs_length in Lu.
  change (List.length (buffer empty_scratch))
    with (N.to_nat MAX_ARG_CONTENT_SIZE) in Lb.
  change (N.to_nat (used empty_scratch)) with 0%nat in Lu. cbn [Nat.add] in Lu.
  destruct (loop_step_overrun stray m2 sig toks n 1
              (upd 0 (V_bytes_u8p 0) (repeat zero_value MAX_TOKENS)) sc1
              q2 (V_bytes_u8p (N.to_nat (used sc1)))) as (rest & ->).
  { exact E2. }
  { rewrite Ht1, R2. unfold typed_value. now rewrite Hx2. }
  { lia. }
  { rewrite Ht1, R2. cbn [argument_bytes]. rewrite decode_pairs_length. lia. }
  rewrite Ht1, R2, Lb, Lu. cbn [argument_bytes].
  rewrite decode_pairs_length. reflexivity.
Qed.

End Engine.



(** C1, where the code departs from it: on a [cat_mixed] line whose first
    two binary arguments are 33 bytes each.  The first is decoded into
    [buffer[0]] to [buffer[32]].  The second is held against
    [MAX_ARG_CONTENT_SIZE], not against the 31 cells that are left: it is
    accepted and its 33 bytes are stored from [buffer + 33] on, the last
    two of them to [buffer[64]] and [buffer[65]], which the array of
    [MAX_ARG_CONTENT_SIZE] = 64 cells does not have.  That store is the
    first thing the dispatch does after its five calls, whatever the
    handler and whatever comes of such a store. *)
Theorem scratch_overrun
        (char_is_signed : bool)
        (handler : ce_signature_st -> list ce_arg_value_ut -> memory ->
                   scratch_buffer_st -> bool)
        (stray : stray_stores) :
  let m := {| caller_mem := Demo.long_buffers_line; line_buf := [] |} in
  let ev := snd (ce_dispatch_from_line char_is_signed
                   (Demo.ce_table char_is_signed) handler stray m (Some O)) in
  (strlen Demo.long_buffers_line = 159)%N
  /\ count_tokens false Demo.long_buffers_line = 8%nat
  /\ parse_hex_string (Some (repeat "B"%char 66)) (Some (repeat 0 31))
                      MAX_ARG_CONTENT_SIZE (Some 0%N)
     = (true, Some (repeat 187 33), Some 33%N)
  /\ firstn 6 ev = calls_upto_parse ++ [Stray 64 66].
Proof.
  cbv zeta. split; [reflexivity|]. split; [reflexivity|].
  split; [reflexivity|].
  destruct char_is_signed.
  - apply (second_binary_overruns true (Demo.ce_table true) handler stray
             {| caller_mem := Demo.long_buffers_line; line_buf := [] |} O
             (Demo.signature true "cat_mixed" 5
                [TYPE_UINT8_PTR_e; TYPE_UINT8_PTR_e; TYPE_STRING_e; TYPE_STRING_e;
                 TYPE_UINT8_PTR_e; TYPE_INT64_e; TYPE_UINT32_e]));
      try (vm_compute; reflexivity); vm_compute; lia.
  - apply (second_binary_overruns false (Demo.ce_table false) handler stray
             {| caller_mem := Demo.long_buffers_line; line_buf := [] |} O
             (Demo.signature false "cat_mixed" 5
                [TYPE_UINT8_PTR_e; TYPE_UINT8_PTR_e; TYPE_STRING_e; TYPE_STRING_e;
                 TYPE_UINT8_PTR_e; TYPE_INT64_e; TYPE_UINT32_e]));
      try (vm_compute; reflexivity); vm_compute; lia.
Qed.


(** *** The end-to-end behaviour the tests of the repository expect *)

Example dispatch_void :
  Demo.run true (chars "void")
  = (true, snd (fst (Demo.run true (chars "void"))),
     calls_upto_parse
     ++ [Invoke (Demo.signature true "void" 4 [])
                (repeat zero_value MAX_TOKENS)
                (snd (fst (Demo.run true (chars "void"))))
                {| buffer := repeat 0 64; used := 0 |}]).
Proof. reflexivity. Qed.

Example dispatch_cat_byte :
  fst (fst (Demo.run true (chars "cat_byte 22"))) = true
  /\ invocations (snd (Demo.run true (chars "cat_byte 22"))) = 1%nat
  /\ option_map (firstn 1) (invoked_args (snd (Demo.run true (chars "cat_byte 22"))))
     = Some [V_u8 22].
Proof. repeat split; reflexivity. Qed.

Example dispatch_cat_bytes :
  let ev := snd (Demo.run true (chars "cat_bytes 010203 3")) in
  option_map (firstn 2) (invoked_args ev) = Some [V_bytes_u8p 0; V_u8 3]
  /\ option_map (fun sc => (firstn 3 (buffer sc), used sc)) (invoked_scratch ev)
     = Some ([1; 2; 3], 3%N).
Proof. split; reflexivity. Qed.

Example dispatch_cat_mixed :
  let ev :=
    snd (Demo.run true
           (chars "cat_mixed 010203 0A0B0C foo bar D00EFFAA -123456789 987654321")) in
  option_map (firstn 7) (invoked_args ev)
  = Some [V_bytes_u8p 0; V_bytes_u8p 3;
          V_str_cp {| blk := LineBuf; off := 24 |};
          V_str_cp {| blk := LineBuf; off := 28 |};
          V_bytes_u8p 6; V_i64 (-123456789); V_u32 987654321]
  /\ option_map (fun sc => (firstn 10 (buffer sc), used sc)) (invoked_scratch ev)
     = Some ([1; 2; 3; 10; 11; 12; 208; 14; 255; 170], 10%N).
Proof. split; reflexivity. Qed.

Example dispatch_blank_lines :
  fst (Demo.run true (chars "")) = (false, snd (fst (Demo.run true (chars ""))))
  /\ snd (Demo.run true (chars " "))
     = [Call F_parse_line_to_tokens; Err E_no_command]
  /\ snd (ce_dispatch_from_line true (Demo.ce_table true) Demo.accept
            Demo.unreached {| caller_mem := []; line_buf := [] |} None)
     = [Err (E_null_pointer F_ce_dispatch_from_line)].
Proof. repeat split; reflexivity. Qed.

End DispatchFacts.

(** ** More on the dispatcher *)

Module DispatchMore.
Import ParserUtils CeDispatch Spec SpecMore ArgSpec BaseFacts ParserFacts
       ParserMore TokenFacts ScannerMore DispatchFacts.

(** *** Looking a command up *)

Lemma lookup_loop_spec (table : list ce_signature_st) (hash : Z) :
  match lookup_loop table hash with
  | Some sig =>
      exists before after,
        table = before ++ sig :: after
        /\ hash_u32 sig = hash
        /\ Forall (fun e => hash_u32 e <> hash) before
  | None => Forall (fun e => hash_u32 e <> hash) table
  end.
Proof.
  induction table as [|e table IH]; [constructor|].
  cbn [lookup_loop]. destruct (Z.eqb_spec (hash_u32 e) hash) as [E|Hne].
  - exists [], table. repeat split; [exact E|constructor].
  - destruct (lookup_loop table hash) as [sig|].
    + destruct IH as (before & after & -> & E & F).
      exists (e :: before), after. repeat split; [exact E|now constructor].
    + now constructor.
Qed.

(** X12: looking a hash up scans the table in order and stops at the first
    entry with that hash: the entry returned has the hash and no entry
    before it has; nothing is returned only when no entry has the hash; so
    the hash of every entry of the table resolves to an entry with the
    same hash (the first of them, should the table hold duplicates). *)
Theorem lookup_first_match (table : list ce_signature_st) (hash : Z) :
  match lookup_signature_by_hash table hash with
  | Some sig =>
      exists before after,
        table = before ++ sig :: after
        /\ hash_u32 sig = hash
        /\ Forall (fun e => hash_u32 e <> hash) before
  | None => Forall (fun e => hash_u32 e <> hash) table
  end
  /\ (forall e, In e table ->
        exists sig, lookup_signature_by_hash table (hash_u32 e) = Some sig
                    /\ hash_u32 sig = hash_u32 e).
Proof.
  unfold lookup_signature_by_hash. split; [apply lookup_loop_spec|].
  intros e Hin. pose proof (lookup_loop_spec table (hash_u32 e)) as L.
  destruct (lookup_loop table (hash_u32 e)) as [sig|].
  - destruct L as (_ & _ & _ & E & _). now exists sig.
  - rewrite Forall_forall in L. now destruct (L e Hin).
Qed.

Lemma lookup_first_match_witness :
  exists sig,
    lookup_signature_by_hash (Demo.ce_table true)
      (hash_u32 (Demo.signature true "cat_bytes" 3 [TYPE_UINT8_PTR_e; TYPE_UINT8_e]))
    = Some sig
    /\ hash_u32 sig
       = hash_u32 (Demo.signature true "cat_bytes" 3 [TYPE_UINT8_PTR_e; TYPE_UINT8_e]).
Proof.
  apply (lookup_first_match (Demo.ce_table true) 0). cbn. tauto.
Defined.

(** *** One argument *)



(** *** All the arguments *)

(** X14: the arguments of a command against the values their tokens
    denote.  When the signature declares at most [MAX_PARSABLE_ARGUMENTS]
    arguments and every declared type finds, in order, a token that
    denotes a value of it, then either the bytes of the binary arguments
    fit what is left of the scratch buffer, the call succeeds, the output
    array holds the values in its first slots and its former content after
    them, and the scratch buffer holds the bytes one after the other from
    its fill on; or they do not fit, and the first thing on record is a
    store behind the end of the array.  Otherwise the call fails with a
    diagnostic and leaves the memory as it was, provided no store has left
    the array before the failure. *)
Theorem parse_arguments_exact (stray : stray_stores) (m : memory)
        (sig : ce_signature_st)
        (toks : list (option char_ptr)) (args : list ce_arg_value_ut)
        (sc : scratch_buffer_st) :
  (type_count_u8 sig <= List.length args)%nat ->
  (N.to_nat (used sc) <= List.length (buffer sc))%nat ->
  let res := parse_arguments stray m (Some sig) (Some toks) (Some args)
                             (Some sc) in
  match (if (type_count_u8 sig <=? MAX_PARSABLE_ARGUMENTS)%nat
         then argument_values m (declared_types sig) (skipn 1 toks)
                              (N.to_nat (used sc))
         else None) with
  | Some (vs, bytes) =>
      if (N.to_nat (used sc) + List.length bytes <=? List.length (buffer sc))%nat
      then res = (true, m, Some (vs ++ skipn (type_count_u8 sig) args),
                  Some (scratch_with sc bytes), [])
           /\ List.length vs = type_count_u8 sig
      else exists beyond rest,
             snd res = Stray (List.length (buffer sc)) beyond :: rest
             /\ (List.length (buffer sc) < beyond
                 <= N.to_nat (used sc) + List.length bytes)%nat
  | None =>
      in_bounds (snd res) ->
      fst (fst (fst (fst res))) = false /\ snd (fst (fst (fst res))) = m
      /\ snd res <> []
  end.
Proof. apply parse_arguments_is. Qed.

Lemma parse_arguments_exact_witness :
  let m := {| caller_mem := [];
              line_buf := chars "cat_bytes" ++ [zero_char] ++ chars "0aff"
                          ++ [zero_char] ++ chars "7" ++ [zero_char] |} in
  let toks := [Some {| blk := LineBuf; off := 0 |};
               Some {| blk := LineBuf; off := 10 |};
               Some {| blk := LineBuf; off := 15 |}] ++ repeat None 5 in
  let sig := Demo.signature false "cat_bytes" 3 [TYPE_UINT8_PTR_e; TYPE_UINT8_e] in
  parse_arguments Demo.unreached m (Some sig) (Some toks)
                  (Some (repeat zero_value MAX_TOKENS)) (Some empty_scratch)
  = (true, m, Some ([V_bytes_u8p 0; V_u8 7] ++ repeat zero_value 6),
     Some {| buffer := [10; 255] ++ repeat 0 62; used := 2 |}, []).
Proof.
  cbv zeta.
  pose proof (parse_arguments_exact Demo.unreached
                {| caller_mem := [];
                   line_buf := chars "cat_bytes" ++ [zero_char] ++ chars "0aff"
                               ++ [zero_char] ++ chars "7" ++ [zero_char] |}
                (Demo.signature false "cat_bytes" 3 [TYPE_UINT8_PTR_e; TYPE_UINT8_e])
                ([Some {| blk := LineBuf; off := 0 |};
                  Some {| blk := LineBuf; off := 10 |};
                  Some {| blk := LineBuf; off := 15 |}] ++ repeat None 5)
                (repeat zero_value MAX_TOKENS) empty_scratch
                ltac:(vm_compute; lia) ltac:(vm_compute; lia)) as P.
  vm_compute in P. destruct P as [P _]. vm_compute. exact P.
Defined.

(** *** A whole dispatch *)

Lemma uneventful_is (ev : list event) :
  uneventful ev -> handler_calls ev = [] /\ in_bounds ev.
Proof.
  unfold uneventful, handler_calls.
  induction ev as [|e ev IH]; [split; [reflexivity|apply in_bounds_nil]|].
  cbn [forallb]. intros H. apply andb_true_iff in H as [He Hr].
  destruct (IH Hr) as [IH1 IH2]. apply negb_true_iff, orb_false_iff in He as [Hi Hs].
  split.
  - cbn [filter]. now rewrite Hi.
  - apply in_bounds_cons. now split.
Qed.

Section Engine.

Variable char_is_signed : bool.
Variable ce_table : list ce_signature_st.
Variable ce_invoke_handler :
  ce_signature_st -> list ce_arg_value_ut -> memory -> scratch_buffer_st -> bool.
Variable stray : stray_stores.

Abbreviation run :=
  (ce_dispatch_from_line char_is_signed ce_table ce_invoke_handler stray).

(** A dispatch in which no store leaves the scratch buffer either calls
    the handler, once, on the values the tokens denote, or calls none and
    fails. *)
Lemma dispatch_cases (m : memory) (o : nat) :
  let s := c_str (skipn o (caller_mem m)) in
  (strlen (skipn o (caller_mem m)) < MAX_LINE_BUF_SIZE)%N ->
  let res := run m (Some o) in
  let n := count_tokens false s in
  in_bounds (snd res) ->
  exists m2 toks,
    snd (fst res) = m2
    /\ caller_mem m2 = caller_mem m
    /\ (forall i, (i < Nat.min MAX_TOKENS n)%nat ->
          exists q, nth i toks None = Some q
                    /\ blk q = LineBuf
                    /\ c_str (load m2 q) = nth_word i s)
    /\ (forall i, (Nat.min MAX_TOKENS n <= i)%nat -> nth i toks None = None)
    /\ ((exists sig vs bytes,
           (n <= MAX_TOKENS)%nat
           /\ lookup_signature_by_hash ce_table
                (CeHash.ce_hash_calculate char_is_signed (Some (nth_word 0 s)))
              = Some sig
           /\ n = S (type_count_u8 sig)
           /\ argument_values m2 (declared_types sig) (skipn 1 toks) 0
              = Some (vs, bytes)
           /\ (List.length bytes <= N.to_nat MAX_ARG_CONTENT_SIZE)%nat
           /\ List.length vs = type_count_u8 sig
           /\ let args := vs ++ repeat zero_value
                                       (MAX_TOKENS - type_count_u8 sig) in
              let sc := scratch_with empty_scratch bytes in
              fst (fst res) = ce_invoke_handler sig args m2 sc
              /\ handler_calls (snd res) = [Invoke sig args m2 sc])
        \/ (fst (fst res) = false
            /\ handler_calls (snd res) = []
            /\ dispatch_outcome char_is_signed ce_table ce_invoke_handler
                                m2 toks s = (false, []))).
Proof.
  cbv zeta. intros Hshort B.
  destruct (dispatch_is char_is_signed ce_table ce_invoke_handler stray m o Hshort)
    as (m2 & toks & Frame & Read & Rest & D).
  cbv zeta in D. exists m2, toks.
  enough (G : snd (fst (run m (Some o))) = m2
              /\ ((exists sig vs bytes,
                     (count_tokens false (c_str (skipn o (caller_mem m)))
                      <= MAX_TOKENS)%nat
                     /\ lookup_signature_by_hash ce_table
                          (CeHash.ce_hash_calculate char_is_signed
                             (Some (nth_word 0 (c_str (skipn o (caller_mem m))))))
                        = Some sig
                     /\ count_tokens false (c_str (skipn o (caller_mem m)))
                        = S (type_count_u8 sig)
                     /\ argument_values m2 (declared_types sig) (skipn 1 toks) 0
                        = Some (vs, bytes)
                     /\ (List.length bytes <= N.to_nat MAX_ARG_CONTENT_SIZE)%nat
                     /\ List.length vs = type_count_u8 sig
                     /\ fst (fst (run m (Some o)))
                        = ce_invoke_handler sig
                            (vs ++ repeat zero_value (MAX_TOKENS - type_count_u8 sig))
                            m2 (scratch_with empty_scratch bytes)
                     /\ handler_calls (snd (run m (Some o)))
                        = [Invoke sig
                             (vs ++ repeat zero_value (MAX_TOKENS - type_count_u8 sig))
                             m2 (scratch_with empty_scratch bytes)])
                  \/ (fst (fst (run m (Some o))) = false
                      /\ handler_calls (snd (run m (Some o))) = []
                      /\ dispatch_outcome char_is_signed ce_table ce_invoke_handler
                           m2 toks (c_str (skipn o (caller_mem m))) = (false, [])))).
  { destruct G as [G1 G2]. split; [exact G1|]. split; [exact Frame|].
    split; [exact Read|]. split; [exact Rest|exact G2]. }
  clear Frame Read Rest. unfold dispatch_outcome. cbv zeta.
  set (n := count_tokens false (c_str (skipn o (caller_mem m)))) in *.
  assert (Early : fst (run m (Some o)) = (false, m2) /\ uneventful (snd (run m (Some o))) ->
                  snd (fst (run m (Some o))) = m2
                  /\ fst (fst (run m (Some o))) = false
                  /\ handler_calls (snd (run m (Some o))) = []).
  { intros [E U]. apply uneventful_is in U as [U _]. rewrite E. now repeat split. }
  destruct ((0 <? n)%nat && (n <=? MAX_TOKENS)%nat) eqn:V.
  2:{ destruct (Early D) as (E1 & E2 & E3). split; [exact E1|]. right. now repeat split. }
  destruct (lookup_signature_by_hash ce_table _) as [sig|] eqn:L.
  2:{ destruct (Early D) as (E1 & E2 & E3). split; [exact E1|]. right. now repeat split. }
  destruct (Nat.eqb_spec n (S (type_count_u8 sig))) as [A|_].
  2:{ destruct (Early D) as (E1 & E2 & E3). split; [exact E1|]. right. now repeat split. }
  clear Early. apply andb_true_iff in V as [_ V]. apply Nat.leb_le in V.
  assert (Htc : (type_count_u8 sig <= MAX_PARSABLE_ARGUMENTS)%nat)
    by (unfold MAX_PARSABLE_ARGUMENTS, ARG_OFFSET, MAX_TOKENS in *; lia).
  pose proof (dispatch_command_is ce_invoke_handler stray m2 sig toks Htc) as C.
  cbv zeta in C. rewrite D in B |- *. cbn [fst snd] in B |- *.
  apply in_bounds_app in B as [_ B]. apply in_bounds_cons in B as [_ B].
  destruct (argument_values m2 (declared_types sig) (skipn 1 toks) 0)
    as [[vs bytes]|] eqn:Av.
  - destruct (Nat.leb_spec (List.length bytes) (N.to_nat MAX_ARG_CONTENT_SIZE))
      as [Hfit|Hover].
    + destruct C as [C Lvs]. rewrite C. cbn [fst snd]. split; [reflexivity|].
      left. exists sig, vs, bytes.
      repeat match goal with |- _ /\ _ => split end;
        try assumption; reflexivity.
    + exfalso. destruct C as (beyond & rest & C & _). rewrite C in B.
      apply in_bounds_cons in B as [_ B]. apply in_bounds_cons in B as [B _].
      discriminate.
  - destruct (C B) as [C1 C2]. rewrite C1. cbn [fst snd]. split; [reflexivity|].
    right. split; [reflexivity|]. split; [|reflexivity].
    unfold handler_calls. rewrite filter_app. cbn [filter is_invoke app].
    exact C2.
Qed.

(** X15: what a dispatch comes to.  For a line that fits the line buffer
    and a dispatch in which no store leaves the scratch buffer, the scanner
    leaves one pointer per token, each into the local copy of the line at
    a NUL-terminated copy of its token, and the result and the handler
    calls of the dispatch are those of the documented pipeline: the line
    must have between one and [MAX_TOKENS] tokens, the hash of the first
    must be in the table, the number of the others must be the number of
    declared arguments, each must denote a value of its declared type; the
    handler of the entry found is then called exactly once, on these
    values followed by zeroed slots, and its answer is the result.  In
    every other case the result is [false] and no handler is called. *)
Theorem dispatch_exact (m : memory) (o : nat) :
  let s := c_str (skipn o (caller_mem m)) in
  (strlen (skipn o (caller_mem m)) < MAX_LINE_BUF_SIZE)%N ->
  let res := run m (Some o) in
  let m' := snd (fst res) in
  let n := Nat.min MAX_TOKENS (count_tokens false s) in
  in_bounds (snd res) ->
  exists toks,
    (forall i, (i < n)%nat ->
       exists q, nth i toks None = Some q
                 /\ blk q = LineBuf
                 /\ c_str (load m' q) = nth_word i s)
    /\ (forall i, (n <= i)%nat -> nth i toks None = None)
    /\ (fst (fst res), handler_calls (snd res))
       = dispatch_outcome char_is_signed ce_table ce_invoke_handler m' toks s.
Proof.
  cbv zeta. intros Hshort B.
  destruct (dispatch_cases m o Hshort B)
    as (m2 & toks & Em & _ & Read & Rest & Cases).
  subst m2. exists toks. split; [exact Read|]. split; [exact Rest|].
  destruct Cases as [(sig & vs & bytes & Hn & L & A & Av & _ & _ & E1 & E2)
                    |(E1 & E2 & E3)].
  - rewrite E1, E2. unfold dispatch_outcome. cbv zeta.
    rewrite L, Av.
    replace ((0 <? count_tokens false (c_str (skipn o (caller_mem m))))%nat
             && (count_tokens false (c_str (skipn o (caller_mem m)))
                 <=? MAX_TOKENS)%nat) with true
      by (symmetry; apply andb_true_iff; split;
          [apply Nat.ltb_lt; lia|apply Nat.leb_le; exact Hn]).
    replace (count_tokens false (c_str (skipn o (caller_mem m)))
             =? S (type_count_u8 sig))%nat with true
      by (symmetry; apply Nat.eqb_eq; exact A).
    reflexivity.
  - now rewrite E1, E2, E3.
Qed.

(** A handler is reached only through a well-formed line. *)
Lemma invoked_is (m : memory) (o : nat) (sig : ce_signature_st)
      (args : list ce_arg_value_ut) (m' : memory) (sc : scratch_buffer_st) :
  let s := c_str (skipn o (caller_mem m)) in
  (strlen (skipn o (caller_mem m)) < MAX_LINE_BUF_SIZE)%N ->
  in_bounds (snd (run m (Some o))) ->
  In (Invoke sig args m' sc) (snd (run m (Some o))) ->
  exists toks vs bytes,
    m' = snd (fst (run m (Some o)))
    /\ fst (fst (run m (Some o))) = ce_invoke_handler sig args m' sc
    /\ (forall i, (i < count_tokens false s)%nat ->
          exists q, nth i toks None = Some q
                    /\ blk q = LineBuf
                    /\ c_str (load m' q) = nth_word i s)
    /\ lookup_signature_by_hash ce_table
         (CeHash.ce_hash_calculate char_is_signed (Some (nth_word 0 s)))
       = Some sig
    /\ count_tokens false s = S (type_count_u8 sig)
    /\ (count_tokens false s <= MAX_TOKENS)%nat
    /\ argument_values m' (declared_types sig) (skipn 1 toks) 0 = Some (vs, bytes)
    /\ (List.length bytes <= N.to_nat MAX_ARG_CONTENT_SIZE)%nat
    /\ List.length vs = type_count_u8 sig
    /\ args = vs ++ repeat zero_value (MAX_TOKENS - type_count_u8 sig)
    /\ sc = scratch_with empty_scratch bytes.
Proof.
  cbv zeta. intros Hshort B Hin.
  destruct (dispatch_cases m o Hshort B)
    as (m2 & toks & Em & _ & Read & _ & Cases).
  assert (Hin' : In (Invoke sig args m' sc) (handler_calls (snd (run m (Some o)))))
    by (apply filter_In; split; [exact Hin|reflexivity]).
  destruct Cases as [(sig0 & vs & bytes & Hn & L & A & Av & Hfit & Lvs & E1 & E2)
                    |(_ & E2 & _)];
    rewrite E2 in Hin'; [|destruct Hin'].
  destruct Hin' as [E|[]]. inversion E. subst. clear E.
  exists toks, vs, bytes.
  repeat match goal with |- _ /\ _ => split end;
    try reflexivity; try assumption.
  intros i Hi. apply Read. lia.
Qed.

(** X16: what a handler is given.  When a dispatch of a line that fits
    the line buffer calls a handler, and no store has left the scratch
    buffer, the handler is the one the table holds for the hash of the
    first token, the line has exactly one token more than the handler
    declares arguments, the result of the dispatch is the handler's
    answer, and argument [i] is the value that token [i + 1] of the line
    denotes at the [i]-th declared type: a string argument points, in the
    local copy of the line, at a NUL-terminated copy of the token; a
    binary argument points into the scratch buffer the handler is given,
    where the decoded bytes of the token are. *)
Theorem handler_sees_arguments (m : memory) (o : nat) (sig : ce_signature_st)
        (args : list ce_arg_value_ut) (m' : memory) (sc : scratch_buffer_st) :
  let s := c_str (skipn o (caller_mem m)) in
  (strlen (skipn o (caller_mem m)) < MAX_LINE_BUF_SIZE)%N ->
  in_bounds (snd (run m (Some o))) ->
  In (Invoke sig args m' sc) (snd (run m (Some o))) ->
  m' = snd (fst (run m (Some o)))
  /\ fst (fst (run m (Some o))) = ce_invoke_handler sig args m' sc
  /\ lookup_signature_by_hash ce_table
       (CeHash.ce_hash_calculate char_is_signed (Some (nth_word 0 s)))
     = Some sig
  /\ count_tokens false s = S (type_count_u8 sig)
  /\ List.length args = MAX_TOKENS
  /\ (forall i, (i < type_count_u8 sig)%nat ->
        let type_e := nth i (types_e sig) TYPE_INVALID_e in
        let w := nth_word (S i) s in
        exists q at_used,
          blk q = LineBuf
          /\ c_str (load m' q) = w
          /\ typed_value type_e q w at_used = Some (nth i args zero_value)
          /\ (at_used + List.length (argument_bytes type_e w)
              <= N.to_nat MAX_ARG_CONTENT_SIZE)%nat
          /\ firstn (List.length (argument_bytes type_e w))
                    (skipn at_used (buffer sc))
             = argument_bytes type_e w).
Proof.
  cbv zeta. intros Hshort B Hin.
  destruct (invoked_is m o sig args m' sc Hshort B Hin)
    as (toks & vs & bytes & Em & Eret & Read & Look & Hcount & Hfew & A & Hfit
        & Lvs & -> & ->).
  cbv zeta in Read, Look, Hcount, Hfew.
  split; [exact Em|]. split; [exact Eret|]. split; [exact Look|].
  split; [exact Hcount|]. split.
  { rewrite length_app, repeat_length, Lvs. lia. }
  intros i Hi.
  destruct (argument_values_nth _ _ _ _ _ _ A i
              ltac:(rewrite declared_types_length; exact Hi))
    as (q & k & Hq & Hv & Hb & Hk).
  rewrite nth_declared_types in Hv, Hb, Hk by exact Hi.
  destruct (Read (S i) ltac:(lia)) as (q' & Hq' & Hblk & Hread).
  assert (q' = q).
  { destruct toks as [|t toks]; [destruct i; discriminate|].
    cbn [skipn nth] in Hq, Hq'. congruence. }
  subst q'. rewrite Hread in Hv, Hb, Hk.
  exists q, k. split; [exact Hblk|]. split; [exact Hread|]. split.
  - rewrite app_nth1 by lia. exact Hv.
  - split; [lia|].
    unfold scratch_with, empty_scratch.
    cbn [buffer used N.to_nat firstn app Nat.add].
    apply firstn_skipn_app; [reflexivity|exact Hb].
Qed.

(** X17: a command with one binary argument at most is safe.  When the
    entry the table holds for the first token of a line declares one
    binary argument or none, no dispatch of the line stores outside the
    scratch buffer, whatever the tokens are; the caller's memory is then
    as it was, and a handler that is called is given a scratch buffer of
    [MAX_ARG_CONTENT_SIZE] cells, filled to that size at most. *)
Theorem one_binary_argument_in_bounds (m : memory) (o : nat) :
  let s := c_str (skipn o (caller_mem m)) in
  (strlen (skipn o (caller_mem m)) < MAX_LINE_BUF_SIZE)%N ->
  (forall sig,
     lookup_signature_by_hash ce_table
       (CeHash.ce_hash_calculate char_is_signed (Some (nth_word 0 s))) = Some sig ->
     (binary_arguments (declared_types sig) <= 1)%nat) ->
  let res := run m (Some o) in
  in_bounds (snd res)
  /\ caller_mem (snd (fst res)) = caller_mem m
  /\ (forall sig args m' sc,
        In (Invoke sig args m' sc) (snd res) ->
        List.length (buffer sc) = N.to_nat MAX_ARG_CONTENT_SIZE
        /\ (used sc <= MAX_ARG_CONTENT_SIZE)%N).
Proof.
  cbv zeta. intros Hshort Hone.
  assert (B : in_bounds (snd (run m (Some o)))).
  { destruct (dispatch_is char_is_signed ce_table ce_invoke_handler stray m o Hshort)
      as (m2 & toks & _ & _ & _ & D).
    cbv zeta in D.
    set (n := count_tokens false (c_str (skipn o (caller_mem m)))) in *.
    destruct ((0 <? n)%nat && (n <=? MAX_TOKENS)%nat) eqn:V;
      [|now apply uneventful_is, D].
    destruct (lookup_signature_by_hash ce_table _) as [sig|] eqn:L;
      [|now apply uneventful_is, D].
    destruct (Nat.eqb_spec n (S (type_count_u8 sig))) as [A|_];
      [|now apply uneventful_is, D].
    apply andb_true_iff in V as [_ V]. apply Nat.leb_le in V.
    assert (Htc : (type_count_u8 sig <= MAX_PARSABLE_ARGUMENTS)%nat)
      by (unfold MAX_PARSABLE_ARGUMENTS, ARG_OFFSET, MAX_TOKENS in *; lia).
    rewrite D. cbn [snd].
    destruct (dispatch_command_events ce_invoke_handler stray m2 sig toks Htc)
      as (last & Hlast & ->).
    apply in_bounds_app. split.
    { intros f y Hin. cbn in Hin. intuition discriminate. }
    apply in_bounds_cons. split; [reflexivity|].
    apply in_bounds_cons. split; [reflexivity|].
    apply in_bounds_app. split.
    - apply one_binary_in_bounds. right. split; [exact (Hone sig eq_refl)|].
      split; [reflexivity|].
      cbn [buffer empty_scratch]. rewrite repeat_length. lia.
    - apply in_bounds_cons. split; [exact Hlast|apply in_bounds_nil]. }
  split; [exact B|]. split.
  { now apply dispatch_shape. }
  intros sig args m' sc Hin.
  destruct (invoked_is m o sig args m' sc Hshort B Hin)
    as (toks & vs & bytes & _ & _ & _ & _ & _ & _ & _ & Hfit & _ & _ & ->).
  destruct (scratch_with_fits empty_scratch bytes
              ltac:(cbn [used buffer empty_scratch];
                    rewrite repeat_length; cbn [N.to_nat Nat.add]; exact Hfit))
    as [Lb Lu].
  split.
  - rewrite Lb. cbn [buffer empty_scratch]. apply repeat_length.
  - change (N.to_nat (used empty_scratch)) with 0%nat in Lu.
    cbn [Nat.add] in Lu. lia.
Qed.

End Engine.

Lemma dispatch_exact_witness :
  let m := {| caller_mem := chars "cat_bytes 0aff 7"; line_buf := [] |} in
  let s := c_str (skipn 0 (caller_mem m)) in
  let res := ce_dispatch_from_line false (Demo.ce_table false) Demo.accept
                                   Demo.unreached m (Some O) in
  exists toks,
    (forall i, (i < Nat.min MAX_TOKENS (count_tokens false s))%nat ->
       exists q, nth i toks None = Some q
                 /\ blk q = LineBuf
                 /\ c_str (load (snd (fst res)) q) = nth_word i s)
    /\ (forall i, (Nat.min MAX_TOKENS (count_tokens false s) <= i)%nat ->
          nth i toks None = None)
    /\ (fst (fst res), handler_calls (snd res))
       = dispatch_outcome false (Demo.ce_table false) Demo.accept
                          (snd (fst res)) toks s.
Proof.
  apply (dispatch_exact false (Demo.ce_table false) Demo.accept Demo.unreached
           {| caller_mem := chars "cat_bytes 0aff 7"; line_buf := [] |} O).
  - vm_compute. reflexivity.
  - intros first beyond Hb. vm_compute in Hb.
    repeat (destruct Hb as [Hb|Hb]; [discriminate|]). exact Hb.
Defined.

Lemma handler_sees_arguments_witness :
  let m := {| caller_mem := chars "cat_bytes 0aff 7"; line_buf := [] |} in
  let res := ce_dispatch_from_line false (Demo.ce_table false) Demo.accept
                                   Demo.unreached m (Some O) in
  let sig := Demo.signature false "cat_bytes" 3 [TYPE_UINT8_PTR_e; TYPE_UINT8_e] in
  let args := [V_bytes_u8p 0; V_u8 7] ++ repeat zero_value 6 in
  let sc := {| buffer := [10; 255] ++ repeat 0 62; used := 2 |} in
  In (Invoke sig args (snd (fst res)) sc) (snd res)
  /\ exists q at_used,
       blk q = LineBuf
       /\ c_str (load (snd (fst res)) q) = chars "0aff"
       /\ typed_value TYPE_UINT8_PTR_e q (chars "0aff") at_used = Some (V_bytes_u8p 0)
       /\ (at_used + 2 <= 64)%nat
       /\ firstn 2 (skipn at_used (buffer sc)) = [10; 255].
Proof.
  cbv zeta.
  assert (Hin : In (Invoke
                      (Demo.signature false "cat_bytes" 3
                                      [TYPE_UINT8_PTR_e; TYPE_UINT8_e])
                      ([V_bytes_u8p 0; V_u8 7] ++ repeat zero_value 6)
                      (snd (fst (ce_dispatch_from_line false (Demo.ce_table false)
                          Demo.accept Demo.unreached
                          {| caller_mem := chars "cat_bytes 0aff 7"; line_buf := [] |}
                          (Some O))))
                      {| buffer := [10; 255] ++ repeat 0 62; used := 2 |})
                   (snd (ce_dispatch_from_line false (Demo.ce_table false)
                          Demo.accept Demo.unreached
                          {| caller_mem := chars "cat_bytes 0aff 7"; line_buf := [] |}
                          (Some O)))).
  { vm_compute. do 5 right. left. reflexivity. }
  split; [exact Hin|].
  destruct (handler_sees_arguments false (Demo.ce_table false) Demo.accept
              Demo.unreached
              {| caller_mem := chars "cat_bytes 0aff 7"; line_buf := [] |} O
              _ _ _ _ ltac:(vm_compute; reflexivity)
              ltac:(intros first beyond Hb; vm_compute in Hb;
                    repeat (destruct Hb as [Hb|Hb]; [discriminate|]); exact Hb)
              Hin)
    as (_ & _ & _ & _ & _ & Args).
  apply (Args 0%nat). vm_compute. lia.
Defined.

Lemma one_binary_argument_in_bounds_witness :
  let m := {| caller_mem := chars "cat_bytes 0aff 7"; line_buf := [] |} in
  let res := ce_dispatch_from_line false (Demo.ce_table false) Demo.accept
                                   Demo.unreached m (Some O) in
  in_bounds (snd res) /\ caller_mem (snd (fst res)) = chars "cat_bytes 0aff 7".
Proof.
  cbv zeta.
  destruct (one_binary_argument_in_bounds false (Demo.ce_table false) Demo.accept
              Demo.unreached
              {| caller_mem := chars "cat_bytes 0aff 7"; line_buf := [] |} O)
    as (B & Frame & _).
  - vm_compute. reflexivity.
  - intros sig Hlook. vm_compute in Hlook. injection Hlook as <-.
    vm_compute. lia.
  - split; [exact B|exact Frame].
Defined.

End DispatchMore.
